(** * Constraint extraction from CEL expressions (protoc-gen-es, cel-parser.ts)

    A shallow embedding of the expression-tree analyzer of
    [packages/protoc-gen-es/src/cel-parser.ts]: the field-path resolver, the
    constant extractor, the visitor with its four operator handlers, the
    union-branch composer and the post-visit deduplication, followed by the
    properties of the analyzer that the specification states.

    Modelling choices.
    - A JavaScript string is a [string]; each character stands for one code
      unit below 256.
    - A JavaScript number is an IEEE 754 double, here a [spec_float];
      [Number] applied to a bigint rounds to the nearest double.
    - Objects used as dictionaries ([literalFields], [nestedConstraints]) are
      finite maps over their own keys; arrays are lists. Both objects are
      created with [{}], so a read of a key they do not own falls through to
      [Object.prototype], and so does an assignment to [__proto__].
    - The analyzer mutates the result it is given and may throw; here every
      function takes the result and returns how the call ends together with
      the state the result is left in.
    - The external parser, [snakeToCamel] (imported from util.js) and the
      wording of the engine's TypeError message are parameters of the
      development. *)

From Stdlib Require Import ZArith SpecFloat Ascii String.
From stdpp Require Import gmap strings list fin_maps.

Set Warnings "-register-all,-clear-no-such-hyp".

(** ** JavaScript built-ins used by the analyzer *)

Module Js.

(** Code units below 256 that [String.prototype.trim] strips: TAB, LF, VT,
    FF, CR, SPACE and NBSP. *)
Definition isWhiteSpace (c : ascii) : bool :=
  let n := Ascii.N_of_ascii c in
  ((9 <=? n) && (n <=? 13) || (n =? 32) || (n =? 160))%N.

Fixpoint trimStart (s : string) : string :=
  match s with
  | EmptyString => EmptyString
  | String c t => if isWhiteSpace c then trimStart t else s
  end.

Fixpoint trimEnd (s : string) : string :=
  match s with
  | EmptyString => EmptyString
  | String c t =>
      match trimEnd t with
      | EmptyString => if isWhiteSpace c then EmptyString else String c EmptyString
      | t' => String c t'
      end
  end.

(** [s.trim()] *)
Definition trim (s : string) : string := trimEnd (trimStart s).

(** [s.startsWith(search)] *)
Fixpoint startsWith (search s : string) : bool :=
  match search, s with
  | EmptyString, _ => true
  | String a p, String b t => Ascii.eqb a b && startsWith p t
  | String _ _, EmptyString => false
  end.

(** [s.includes(search)] *)
Fixpoint includes (search s : string) : bool :=
  match s with
  | EmptyString => startsWith search EmptyString
  | String _ t => startsWith search s || includes search t
  end.

(** [s.split(sep)] for a separator of one code unit. *)
Fixpoint split (sep : ascii) (s : string) : list string :=
  match s with
  | EmptyString => [EmptyString]
  | String c t =>
      if Ascii.eqb c sep then EmptyString :: split sep t
      else match split sep t with
           | h :: r => String c h :: r
           | [] => [String c EmptyString]
           end
  end.

(** [Number(z)] for a bigint [z]: the nearest double, ties to even. *)
Definition Number (z : Z) : spec_float := binary_normalize 53 1024 z 0 false.

(** [[...new Set(l)]]: the first occurrence of every element, in order. *)
Fixpoint uniqFrom (seen l : list string) : list string :=
  match l with
  | [] => []
  | x :: t =>
      if bool_decide (x ∈ seen) then uniqFrom seen t
      else x :: uniqFrom (x :: seen) t
  end.

Definition uniq (l : list string) : list string := uniqFrom [] l.

(** The double-quote character, as a one-character string. *)
Definition dquote : string := String (Ascii.ascii_of_N 34) EmptyString.

(** The property names of [Object.prototype]: every object created with
    [{}] inherits them. *)
Definition objectPrototypeNames : list string :=
  ["constructor"; "hasOwnProperty"; "isPrototypeOf"; "propertyIsEnumerable";
   "toLocaleString"; "toString"; "valueOf"; "__proto__";
   "__defineGetter__"; "__defineSetter__"; "__lookupGetter__";
   "__lookupSetter__"].

(** What [obj[key]] evaluates to on an object created with [{}]: the
    object's own property, else the property inherited under that name (a
    function, or the prototype itself for [__proto__]: truthy, and without a
    [push]), else [undefined]. *)
Inductive Property (A : Type) : Type :=
| Own (value : A)
| Inherited
| Undefined.

Arguments Own {A} value.
Arguments Inherited {A}.
Arguments Undefined {A}.

Definition get {A : Type} (obj : gmap string A) (key : string) : Property A :=
  match obj !! key with
  | Some value => Own value
  | None =>
      if bool_decide (key ∈ objectPrototypeNames) then Inherited else Undefined
  end.

(** [obj[key] = value] on an object created with [{}], for a value that is
    not an object: the assignment creates or replaces the own property,
    except that without an own [__proto__] it reaches the inherited setter,
    which ignores such a value. *)
Definition assign {A : Type} (key : string) (value : A) (obj : gmap string A)
  : gmap string A :=
  match obj !! key with
  | Some _ => <[key := value]> obj
  | None => if bool_decide (key = "__proto__") then obj else <[key := value]> obj
  end.

End Js.

(** ** The expression tree (the parser's output)

    Node ids, call targets and the contents of list, struct and
    comprehension nodes are left out. A select carries its test-only flag:
    the parser expands the macro [has(e.f)] to the select [e.f] with the
    flag set. *)

Inductive Constant : Type :=
| NoConstantKind
| NullValue
| BoolValue (value : bool)
| Int64Value (value : Z)
| Uint64Value (value : Z)
| DoubleValue (value : spec_float)
| StringValue (value : string)
| BytesValue (value : list Z)
| DurationValue
| TimestampValue.

Inductive Expr : Type :=
| NoExprKind
| ConstExpr (value : Constant)
| IdentExpr (name : string)
| SelectExpr (operand : option Expr) (field : string) (testOnly : bool)
| CallExpr (function : string) (args : list Expr)
| ListExpr
| StructExpr
| ComprehensionExpr.

(** What [parse] does on an expression text: it throws (the catch clause
    reads a message off the thrown value) or returns a parsed expression whose
    [expr] may be unset. *)
Inductive ParseOutcome : Type :=
| Throws (message : string)
| Parsed (expr : option Expr).

(** ** Results *)

Inductive LiteralValue : Type :=
| LString (s : string)
| LNumber (n : spec_float)
| LBoolean (b : bool).

Module UnionBranch.
Record t : Type := mk {
  readOnlyFields : list string;
  literalFields : gmap string LiteralValue;
  nestedConstraints : gmap string (list string)
}.
End UnionBranch.

Record CELParseResult : Type := mkResult {
  readOnlyFields : list string;
  literalFields : gmap string LiteralValue;
  unsupportedFields : list string;
  errors : list string;
  nestedConstraints : gmap string (list string);
  unionGroups : list UnionBranch.t
}.

Definition createEmptyResult : CELParseResult :=
  {| readOnlyFields := [];
     literalFields := ∅;
     unsupportedFields := [];
     errors := [];
     nestedConstraints := ∅;
     unionGroups := [] |}.

(** How a call that works on a mutable state ends: normally, or abruptly,
    by a thrown error. The state is mutated in place, so what was done
    before a throw stays done. *)
Inductive Completion (S : Type) : Type :=
| Normal (state : S)
| Abrupt (state : S).

Arguments Normal {S} state.
Arguments Abrupt {S} state.

Definition stateOf {S : Type} (c : Completion S) : S :=
  match c with
  | Normal state | Abrupt state => state
  end.

Definition isAbrupt {S : Type} (c : Completion S) : bool :=
  match c with
  | Normal _ => false
  | Abrupt _ => true
  end.

(** Sequencing: a throw skips what follows. *)
Definition andThen {S : Type} (c : Completion S) (next : S → Completion S)
  : Completion S :=
  match c with
  | Normal state => next state
  | Abrupt state => Abrupt state
  end.

(** A [for] loop over [items] whose body may throw. *)
Definition forLoop {S A : Type} (body : S → A → Completion S) (items : list A)
    (start : S) : Completion S :=
  fold_left (λ acc item, andThen acc (λ state, body state item))
            items (Normal start).

(** Field assignments on a result. *)
Definition set_readOnlyFields (v : list string) (r : CELParseResult) :=
  mkResult v (literalFields r) (unsupportedFields r) (errors r)
           (nestedConstraints r) (unionGroups r).
Definition set_literalFields (v : gmap string LiteralValue) (r : CELParseResult) :=
  mkResult (readOnlyFields r) v (unsupportedFields r) (errors r)
           (nestedConstraints r) (unionGroups r).
Definition set_unsupportedFields (v : list string) (r : CELParseResult) :=
  mkResult (readOnlyFields r) (literalFields r) v (errors r)
           (nestedConstraints r) (unionGroups r).
Definition set_errors (v : list string) (r : CELParseResult) :=
  mkResult (readOnlyFields r) (literalFields r) (unsupportedFields r) v
           (nestedConstraints r) (unionGroups r).
Definition set_nestedConstraints (v : gmap string (list string)) (r : CELParseResult) :=
  mkResult (readOnlyFields r) (literalFields r) (unsupportedFields r) (errors r)
           v (unionGroups r).
Definition set_unionGroups (v : list UnionBranch.t) (r : CELParseResult) :=
  mkResult (readOnlyFields r) (literalFields r) (unsupportedFields r) (errors r)
           (nestedConstraints r) v.

(** ** Field and value extraction *)

Definition isThisIdentifier (expr : Expr) : bool :=
  match expr with
  | IdentExpr name => bool_decide (name = "this")
  | _ => false
  end.

(** [extractFieldPath]: [None] is [null]. The empty string can be returned
    (a select of an empty field name on [this]); callers test the result for
    truthiness. *)
Fixpoint extractFieldPath (expr : Expr) : option string :=
  match expr with
  | SelectExpr None _ _ => None
  | SelectExpr (Some operand) field _ =>
      match extractFieldPath operand with
      | None => if isThisIdentifier operand then Some field else None
      | Some operandPath =>
          if bool_decide (operandPath = "") then None
          else Some (operandPath +:+ "." +:+ field)
      end
  | _ => None
  end.

(** The field path when it is truthy (neither [null] nor empty). *)
Definition truthyPath (o : option string) : option string :=
  match o with
  | Some p => if bool_decide (p = "") then None else Some p
  | None => None
  end.

Definition extractConstant (expr : Expr) : option LiteralValue :=
  match expr with
  | ConstExpr (StringValue v) => Some (LString v)
  | ConstExpr (Int64Value v) | ConstExpr (Uint64Value v) => Some (LNumber (Js.Number v))
  | ConstExpr (DoubleValue v) => Some (LNumber v)
  | ConstExpr (BoolValue v) => Some (LBoolean v)
  | _ => None
  end.

Definition hasBranchConstraints (result : CELParseResult) : bool :=
  negb (bool_decide (readOnlyFields result = []))
  || negb (bool_decide (literalFields result = ∅))
  || negb (bool_decide (nestedConstraints result = ∅)).

(** ** The analyzer *)

Section Analyzer.

Variable snakeToCamel : string → string.

(** [addReadOnlyField]. The nested case reads
    [result.nestedConstraints[parentField]], creates the array when the
    read is falsy, and calls [push] on what is there. Under a name of
    [Object.prototype] that the object does not own, the read is truthy, no
    array is created, and the call of [push] throws a TypeError. *)
Definition addReadOnlyField (fieldPath : string) (result : CELParseResult)
  : Completion CELParseResult :=
  if negb (Js.includes "." fieldPath) then
    Normal (set_readOnlyFields
              (readOnlyFields result ++ [snakeToCamel fieldPath]) result)
  else
    match snakeToCamel <$> Js.split "."%char fieldPath with
    | parentField :: childField :: _ =>
        match Js.get (nestedConstraints result) parentField with
        | Js.Undefined =>
            Normal (set_nestedConstraints
                      (<[parentField := [childField]]> (nestedConstraints result))
                      result)
        | Js.Own children =>
            Normal (set_nestedConstraints
                      (<[parentField := children ++ [childField]]>
                         (nestedConstraints result))
                      result)
        | Js.Inherited => Abrupt result
        end
    | _ => Normal result
    end.

Definition handleNegation (arg : option Expr) (result : CELParseResult)
  : Completion CELParseResult :=
  match arg with
  | None | Some NoExprKind => Normal result
  | Some (CallExpr fn innerArgs) =>
      match innerArgs with
      | [inner] =>
          if bool_decide (fn = "has") then
            match truthyPath (extractFieldPath inner) with
            | Some field => addReadOnlyField field result
            | None => Normal result
            end
          else Normal result
      | _ => Normal result
      end
  | Some ((SelectExpr _ _ _ | IdentExpr _) as e) =>
      match truthyPath (extractFieldPath e) with
      | Some field => addReadOnlyField field result
      | None => Normal result
      end
  | Some _ => Normal result
  end.

Definition processEqualityPair (fieldExpr valueExpr : Expr)
    (result : CELParseResult) : Completion CELParseResult :=
  match extractConstant valueExpr with
  | None => Normal result
  | Some constantValue =>
      match truthyPath (extractFieldPath fieldExpr) with
      | None => Normal result
      | Some field =>
          if negb (Js.includes "." field) then
            Normal (set_literalFields
                      (Js.assign (snakeToCamel field) constantValue
                                 (literalFields result))
                      result)
          else addReadOnlyField field result
      end
  end.

Definition handleEquality (args : list Expr) (result : CELParseResult)
  : Completion CELParseResult :=
  match args with
  | [lhs; rhs] =>
      andThen (processEqualityPair lhs rhs result) (processEqualityPair rhs lhs)
  | _ => Normal result
  end.

(** The two list handlers call back into the visitor; they take it as an
    argument and [visitExpr] ties the knot. *)
Definition handleAnd (visit : Expr → CELParseResult → Completion CELParseResult)
    (args : list Expr) (result : CELParseResult) : Completion CELParseResult :=
  forLoop (λ res arg, visit arg res) args result.

(** One iteration of the loop of [handleOr]: the state is the local
    [branches] array and the enclosing result. A throw of the visitor leaves
    both as they are. *)
Definition handleOr_step
    (visit : Expr → CELParseResult → Completion CELParseResult)
    (st : list UnionBranch.t * CELParseResult) (arg : Expr)
  : Completion (list UnionBranch.t * CELParseResult) :=
  match visit arg createEmptyResult with
  | Normal branchResult =>
      let branches :=
        if hasBranchConstraints branchResult then
          st.1 ++ [UnionBranch.mk (readOnlyFields branchResult)
                                  (literalFields branchResult)
                                  (nestedConstraints branchResult)]
        else st.1 in
      Normal (branches, set_errors (errors st.2 ++ errors branchResult) st.2)
  | Abrupt _ => Abrupt st
  end.

(** [handleOr]: the branches reach [unionGroups] after the loop only, so a
    throw inside the loop loses them. *)
Definition handleOr (visit : Expr → CELParseResult → Completion CELParseResult)
    (args : list Expr) (result : CELParseResult) : Completion CELParseResult :=
  match forLoop (handleOr_step visit) args ([], result) with
  | Normal st => Normal (set_unionGroups (unionGroups st.2 ++ st.1) st.2)
  | Abrupt st => Abrupt st.2
  end.

Fixpoint visitExpr (expr : Expr) (result : CELParseResult)
  : Completion CELParseResult :=
  match expr with
  | CallExpr fn args =>
      if bool_decide (fn = "!_") then handleNegation (head args) result
      else if bool_decide (fn = "_==_") then handleEquality args result
      else if bool_decide (fn = "_&&_") then handleAnd visitExpr args result
      else if bool_decide (fn = "_||_") then handleOr visitExpr args result
      else Normal result
  | _ => Normal result
  end.

Definition deduplicateResult (result : CELParseResult) : CELParseResult :=
  {| readOnlyFields := Js.uniq (readOnlyFields result);
     literalFields := literalFields result;
     unsupportedFields := Js.uniq (unsupportedFields result);
     errors := errors result;
     nestedConstraints := Js.uniq <$> nestedConstraints result;
     unionGroups := unionGroups result |}.

Variable parse : string → ParseOutcome.

(** The message of the TypeError that the engine throws for the call of a
    [push] that is not a function; the wording is the engine's. *)
Variable typeErrorMessage : string.

(** [parseCELExpression]. The [try] block covers the parser, the visitor
    and the deduplication; the [catch] clause adds its message to whatever
    the result holds by then. *)
Definition parseCELExpression (celExpression : string) : CELParseResult :=
  let result := createEmptyResult in
  if bool_decide (Js.trim celExpression = "") then result
  else
    match parse celExpression with
    | Parsed None =>
        set_errors
          (errors result ++ ["No expression found in CEL: " +:+ celExpression])
          result
    | Parsed (Some expr) =>
        match visitExpr expr result with
        | Normal visited => deduplicateResult visited
        | Abrupt partial =>
            set_errors
              (errors partial ++
                 ["Failed to parse CEL expression " +:+ Js.dquote
                  +:+ celExpression +:+ Js.dquote +:+ ": "
                  +:+ typeErrorMessage])
              partial
        end
    | Throws message =>
        set_errors
          (errors result ++
             ["Failed to parse CEL expression " +:+ Js.dquote +:+ celExpression
              +:+ Js.dquote +:+ ": " +:+ message])
          result
    end.

End Analyzer.

(** ** Names imported from util.js *)

Module Util.

(** Modelled from the spec: the upper-case form of one code unit, used by
    [snakeToCamel] below (ASCII letters only; the transform is described as
    free of locale rules). *)
Definition toUpperCase (c : ascii) : ascii :=
  let n := Ascii.N_of_ascii c in
  if ((97 <=? n) && (n <=? 122))%N then Ascii.ascii_of_N (n - 32) else c.

(** Modelled from the spec: the loop of [snakeToCamel]; an underscore is
    removed and the code unit after it is upper-cased. *)
Fixpoint camelFrom (capNext : bool) (s : string) : string :=
  match s with
  | EmptyString => EmptyString
  | String c t =>
      if Ascii.eqb c "_" then camelFrom true t
      else String (if capNext then toUpperCase c else c) (camelFrom false t)
  end.

(** Modelled from the spec: [snakeToCamel] lives in util.js, which is not
    among the sources. The specification describes it as a pure string
    transform from the lowercase-with-underscores convention to camel case
    by separator removal ([field_name] becomes [fieldName]). The theorems
    below hold for every [snakeToCamel]; this one instantiates them on
    concrete inputs. *)
Definition snakeToCamel (s : string) : string := camelFrom false s.

End Util.

(** ** Expression trees used in the statements *)

Definition this : Expr := IdentExpr "this".

(** [this.s1.s2...sn] as the parser builds it: selects nested to the left. *)
Definition thisField (segs : list string) : Expr :=
  fold_left (λ e s, SelectExpr (Some e) s false) segs this.

(** The dotted path of [first.r1...rn]. *)
Definition joinPath (first : string) (rest : list string) : string :=
  fold_left (λ p f, p +:+ "." +:+ f) rest first.

Definition stringLit (s : string) : Expr := ConstExpr (StringValue s).
Definition intLit (z : Z) : Expr := ConstExpr (Int64Value z).
Definition eqE (a b : Expr) : Expr := CallExpr "_==_" [a; b].
Definition andE (args : list Expr) : Expr := CallExpr "_&&_" args.
Definition orE (args : list Expr) : Expr := CallExpr "_||_" args.
Definition notE (a : Expr) : Expr := CallExpr "!_" [a].

(** A call node named [has]: the first case of [handleNegation]. *)
Definition hasE (a : Expr) : Expr := CallExpr "has" [a].

(** [has(e)] as the parser expands the macro: the select [e] with its
    test-only flag set. *)
Definition hasMacro (e : Expr) : Expr :=
  match e with
  | SelectExpr operand field _ => SelectExpr operand field true
  | _ => e
  end.

(** The assertions of one conjunctive scope, in visiting order: the operands
    of nested conjunctions, flattened. *)
Fixpoint conjuncts (e : Expr) : list Expr :=
  match e with
  | CallExpr fn args =>
      if bool_decide (fn = "_&&_") then flat_map conjuncts args else [e]
  | _ => [e]
  end.

(** [this.f] for a name [f] that is not empty and has no dot: a top-level
    field. *)
Definition topLevelField (f : string) (e : Expr) : Prop :=
  f ≠ "" ∧ Js.includes "." f = false
  ∧ ∃ flag, e = SelectExpr (Some this) f flag.

(** A presence negation of the top-level field [f]: the negation of
    [this.f], with or without the test-only flag that the macro [has] sets,
    or of a call of [has] on it. *)
Definition negatesField (f : string) (a : Expr) : Prop :=
  ∃ target rest,
    a = CallExpr "!_" (target :: rest)
    ∧ (topLevelField f target
       ∨ ∃ inner, target = hasE inner ∧ topLevelField f inner).

(** An equality of the top-level field [f] with a constant, in either
    order. *)
Definition pinsField (f : string) (b : Expr) : Prop :=
  ∃ lhs rhs,
    b = eqE lhs rhs
    ∧ ((topLevelField f lhs ∧ is_Some (extractConstant rhs))
       ∨ (topLevelField f rhs ∧ is_Some (extractConstant lhs))).

(** The scope that a result describes is empty: nothing is in the three
    fields that a branch carries. *)
Definition scopeEmpty (r : CELParseResult) : Prop :=
  readOnlyFields r = [] ∧ literalFields r = ∅ ∧ nestedConstraints r = ∅.

#[global] Instance scopeEmpty_dec r : Decision (scopeEmpty r).
Proof. unfold scopeEmpty. apply _. Defined.

(** The results of visiting every operand of a disjunction into a fresh
    result, when none of the visits throws. *)
Fixpoint operandScopes
    (visit : Expr → CELParseResult → Completion CELParseResult)
    (args : list Expr) : option (list CELParseResult) :=
  match args with
  | [] => Some []
  | arg :: args =>
      match visit arg createEmptyResult with
      | Normal scope => (scope ::.) <$> operandScopes visit args
      | Abrupt _ => None
      end
  end.

(** The branch made of a scope. *)
Definition branchOfScope (r : CELParseResult) : UnionBranch.t :=
  UnionBranch.mk (readOnlyFields r) (literalFields r) (nestedConstraints r).

(** The branches that the scopes of the operands of a disjunction leave:
    one per scope that is not empty, in order. *)
Definition keptBranches (scopes : list CELParseResult) : list UnionBranch.t :=
  branchOfScope <$> filter (λ d, ¬ scopeEmpty d) scopes.

(** Accumulating the facts [delta] on top of the scope [acc]: lists are
    appended, literals of [delta] overwrite those of [acc], and the children
    recorded under one parent are appended. *)
Definition mergeInto (acc delta : CELParseResult) : CELParseResult :=
  {| readOnlyFields := readOnlyFields acc ++ readOnlyFields delta;
     literalFields := literalFields delta ∪ literalFields acc;
     unsupportedFields := unsupportedFields acc ++ unsupportedFields delta;
     errors := errors acc ++ errors delta;
     nestedConstraints :=
       union_with (λ old new, Some (old ++ new))
                  (nestedConstraints acc) (nestedConstraints delta);
     unionGroups := unionGroups acc ++ unionGroups delta |}.

(** The same on what a call leaves, however it ends. *)
Definition mergeCompletion (acc : CELParseResult)
    (c : Completion CELParseResult) : Completion CELParseResult :=
  match c with
  | Normal delta => Normal (mergeInto acc delta)
  | Abrupt delta => Abrupt (mergeInto acc delta)
  end.

(** The own keys of a result that started as [{}] and was filled by the
    analyzer: no own [__proto__] among the literals and no name of
    [Object.prototype] among the parents. *)
Definition plainKeys (r : CELParseResult) : Prop :=
  literalFields r !! "__proto__" = None
  ∧ Forall (λ key, nestedConstraints r !! key = None) Js.objectPrototypeNames.

(** The same for a branch. *)
Definition plainBranch (br : UnionBranch.t) : Prop :=
  UnionBranch.literalFields br !! "__proto__" = None
  ∧ Forall (λ key, UnionBranch.nestedConstraints br !! key = None)
           Js.objectPrototypeNames.

(** A string all of whose code units are white space. *)
Definition blank (s : string) : Prop :=
  Forall (λ c, Js.isWhiteSpace c = true) (list_ascii_of_string s).

(** A parser given by a table of texts and their trees; it rejects every
    text that is not in the table. *)
Fixpoint tableParser (table : list (string * Expr)) (text : string)
  : ParseOutcome :=
  match table with
  | [] => Throws "syntax error"
  | (t, e) :: table' =>
      if bool_decide (text = t) then Parsed (Some e) else tableParser table' text
  end.

(** ** Example expressions: texts and the trees the parser builds for them *)

Module Examples.

Definition disjunctionText : string := "this.a == '' || this.b == 0".
Definition disjunctionTree : Expr :=
  orE [eqE (thisField ["a"]) (stringLit ""); eqE (thisField ["b"]) (intLit 0)].

Definition conflictText : string := "this.field == '' && this.field == 0".
Definition conflictTree : Expr :=
  andE [eqE (thisField ["field"]) (stringLit "");
        eqE (thisField ["field"]) (intLit 0)].

Definition deepText : string := "this.parent.child.grandchild == ''".
Definition deepTree : Expr :=
  eqE (thisField ["parent"; "child"; "grandchild"]) (stringLit "").

Definition sharedText : string := "!has(this.f) && this.f == ''".
Definition sharedTree : Expr :=
  andE [notE (hasMacro (thisField ["f"])); eqE (thisField ["f"]) (stringLit "")].

Definition presenceText : string := "!has(this.field)".
Definition presenceTree : Expr := notE (hasMacro (thisField ["field"])).

Definition bareText : string := "!this.field".
Definition bareTree : Expr := notE (thisField ["field"]).

Definition repeatedText : string :=
  "(!has(this.a) && !has(this.a)) || this.b == 0".
Definition repeatedTree : Expr :=
  orE [andE [notE (hasMacro (thisField ["a"]));
             notE (hasMacro (thisField ["a"]))];
       eqE (thisField ["b"]) (intLit 0)].

Definition nestedOrTree : Expr :=
  orE [orE [eqE (thisField ["a"]) (stringLit "");
            eqE (thisField ["b"]) (intLit 0)];
       notE (thisField ["c"])].

(** Paths whose first segment names a property of [Object.prototype]. *)
Definition inheritedText : string := "this.constructor.child == ''".
Definition inheritedTree : Expr :=
  eqE (thisField ["constructor"; "child"]) (stringLit "").

Definition inheritedPresenceText : string := "!has(this.constructor.child)".
Definition inheritedPresenceTree : Expr :=
  notE (hasMacro (thisField ["constructor"; "child"])).

Definition inheritedBareText : string := "!this.constructor.child".
Definition inheritedBareTree : Expr :=
  notE (thisField ["constructor"; "child"]).

Definition partialText : string := "!this.a && !this.a && !this.to_string.x".
Definition partialTree : Expr :=
  andE [andE [notE (thisField ["a"]); notE (thisField ["a"])];
        notE (thisField ["to_string"; "x"])].

(** The parser on the example texts. *)
Definition parse : string → ParseOutcome :=
  tableParser [(disjunctionText, disjunctionTree);
               (conflictText, conflictTree);
               (deepText, deepTree);
               (sharedText, sharedTree);
               (presenceText, presenceTree);
               (bareText, bareTree);
               (repeatedText, repeatedTree);
               (inheritedText, inheritedTree);
               (inheritedPresenceText, inheritedPresenceTree);
               (inheritedBareText, inheritedBareTree);
               (partialText, partialTree)].

(** The TypeError message in the wording of Node's engine. *)
Definition typeErrorMessage : string :=
  "result.nestedConstraints[parentField].push is not a function".

(** The entry point with the modelled [snakeToCamel] and that parser. *)
Definition run : string → CELParseResult :=
  parseCELExpression Util.snakeToCamel parse typeErrorMessage.

(** The entry point on a text for which the parser returns the tree [e]. *)
Definition runTree (e : Expr) : CELParseResult :=
  parseCELExpression Util.snakeToCamel (tableParser [("e", e)])
                     typeErrorMessage "e".

End Examples.

(** ** The plugin's use of the analyzer (protoc-gen-es-plugin.ts)

    What the plugin reads of a message descriptor: the outcome of
    [getOption(message, ext_message)] and the list of members. *)

(** One rule of the message option; only its expression is read. *)
Record Rule : Type := mkRule { expression : string }.

(** What [getOption(message, ext_message)] does: it throws (the getters
    catch that), returns [undefined], or returns rules with their [cel]
    list. *)
Inductive OptionLookup : Type :=
| LookupThrows
| LookupUndefined
| LookupRules (cel : list Rule).

Inductive MemberKind : Type := KindField | KindOneof.

Record DescMember : Type := mkMember {
  kind : MemberKind;
  localName : string
}.

Record DescMessage : Type := mkMessage {
  getOption : OptionLookup;
  members : list DescMember
}.

Section Plugin.

Variable snakeToCamel : string → string.
Variable parse : string → ParseOutcome.
Variable typeErrorMessage : string.

(** The loop of [getReadOnlyFields] over the rules; a rule with an empty
    expression is skipped. *)
Definition collectReadOnlyFields (cel : list Rule) : list string :=
  fold_left
    (λ allReadOnlyFields constraint,
       if bool_decide (expression constraint = "") then allReadOnlyFields
       else allReadOnlyFields
            ++ readOnlyFields
                 (parseCELExpression snakeToCamel parse typeErrorMessage
                    (expression constraint)))
    cel [].

Definition getReadOnlyFields (message : DescMessage) : list string :=
  match getOption message with
  | LookupThrows | LookupUndefined | LookupRules [] => []
  | LookupRules cel =>
      (λ field, if Js.includes "." field then field else snakeToCamel field)
        <$> Js.uniq (collectReadOnlyFields cel)
  end.

Definition getUnionGroups (message : DescMessage) : list UnionBranch.t :=
  match getOption message with
  | LookupThrows | LookupUndefined | LookupRules [] => []
  | LookupRules cel =>
      fold_left
        (λ allUnionGroups constraint,
           if bool_decide (expression constraint = "") then allUnionGroups
           else allUnionGroups
                ++ unionGroups
                     (parseCELExpression snakeToCamel parse typeErrorMessage
                        (expression constraint)))
        cel []
  end.

(** The inner loop of [getNestedReadOnlyFields] over the entries of one
    result. Every key is listed once; the order of [Object.entries] is taken
    to be that of [map_to_list]. The keys are own keys of a result of the
    analyzer, which are never names of [Object.prototype], so the read of
    [allNestedConstraints[key]] is a lookup among the own keys. *)
Definition mergeNestedEntries (all : gmap string (list string))
    (entries : list (string * list string)) : gmap string (list string) :=
  fold_left
    (λ all entry, <[entry.1 := default [] (all !! entry.1) ++ entry.2]> all)
    entries all.

Definition getNestedReadOnlyFields (message : DescMessage)
  : gmap string (list string) :=
  match getOption message with
  | LookupThrows | LookupUndefined | LookupRules [] => ∅
  | LookupRules cel =>
      let allNestedConstraints :=
        fold_left
          (λ all constraint,
             if bool_decide (expression constraint = "") then all
             else mergeNestedEntries all
                    (map_to_list
                       (nestedConstraints
                          (parseCELExpression snakeToCamel parse
                             typeErrorMessage (expression constraint)))))
          cel ∅ in
      Js.uniq <$> allNestedConstraints
  end.

End Plugin.

(** *** The alternatives of a message shape

    [generateMessageShape] prints one alternative per union group. For
    every group it copies the message-level nested constraints with an
    object spread, which copies the references to the arrays, not the
    arrays; it then pushes the group's children onto those arrays before
    replacing them, in the copy only, by deduplicated ones. The arrays of
    the message-level object are told apart by their key. The keys are own
    keys of results of the analyzer, so the reads are lookups among the own
    keys here too. *)

Inductive ArrayRef : Type :=
| SharedArray (key : string)
| OwnArray (items : list string).

(** The contents of an array, given the message-level object. *)
Definition readArray (store : gmap string (list string)) (ref : ArrayRef)
  : list string :=
  match ref with
  | SharedArray key => default [] (store !! key)
  | OwnArray items => items
  end.

(** [{ ...nestedConstraints }] *)
Definition spreadCopy (store : gmap string (list string))
  : gmap string ArrayRef :=
  map_imap (λ key _, Some (SharedArray key)) store.

(** One iteration of the merge loop: create the entry when missing, push
    the fields, then replace the entry by a deduplicated array. The state is
    the message-level object and the copy. *)
Definition mergeGroupEntry
    (st : gmap string (list string) * gmap string ArrayRef)
    (entry : string * list string)
  : gmap string (list string) * gmap string ArrayRef :=
  let key := entry.1 in
  let fields := entry.2 in
  let merged1 :=
    match st.2 !! key with
    | None => <[key := OwnArray []]> st.2
    | Some _ => st.2
    end in
  let pushed :=
    match merged1 !! key with
    | Some (SharedArray k) => (alter (λ items, items ++ fields) k st.1, merged1)
    | Some (OwnArray items) => (st.1, <[key := OwnArray (items ++ fields)]> merged1)
    | None => (st.1, merged1)
    end in
  match pushed.2 !! key with
  | Some ref =>
      (pushed.1, <[key := OwnArray (Js.uniq (readArray pushed.1 ref))]> pushed.2)
  | None => pushed
  end.

(** One alternative: the members handed to [generateMessageShapeMember]
    and the nested constraints handed with each of them. *)
Record Alternative : Type := mkAlternative {
  shapeMembers : list DescMember;
  shapeConstraints : gmap string (list string)
}.

(** The test that skips a member. *)
Definition skipsMember (readOnly groupReadOnly : list string)
    (member : DescMember) : bool :=
  match kind member with
  | KindField =>
      bool_decide (localName member ∈ readOnly)
      || bool_decide (localName member ∈ groupReadOnly)
  | KindOneof => false
  end.

(** One iteration of the loop over the union groups: the state is the
    message-level object, the result the alternative of this group. *)
Definition groupAlternative (readOnly : list string)
    (messageMembers : list DescMember)
    (store : gmap string (list string)) (group : UnionBranch.t)
  : gmap string (list string) * Alternative :=
  let st :=
    fold_left mergeGroupEntry
      (map_to_list (UnionBranch.nestedConstraints group))
      (store, spreadCopy store) in
  (st.1,
   {| shapeMembers :=
        filter (λ member,
                  skipsMember readOnly (UnionBranch.readOnlyFields group) member
                  = false) messageMembers;
      shapeConstraints := readArray st.1 <$> st.2 |}).

Definition unionAlternatives (readOnly : list string)
    (messageMembers : list DescMember)
    (store : gmap string (list string)) (groups : list UnionBranch.t)
  : list Alternative :=
  (fold_left
     (λ acc group,
        let step := groupAlternative readOnly messageMembers acc.1 group in
        (step.1, acc.2 ++ [step.2]))
     groups (store, [])).2.

Section Shape.

Variable snakeToCamel : string → string.
Variable parse : string → ParseOutcome.
Variable typeErrorMessage : string.

(** The alternatives [generateMessageShape] prints for a message, in
    order; the printing itself is left out. *)
Definition generateMessageShape (message : DescMessage) : list Alternative :=
  let nestedConstraints :=
    getNestedReadOnlyFields snakeToCamel parse typeErrorMessage message in
  let readOnlyFields :=
    getReadOnlyFields snakeToCamel parse typeErrorMessage message in
  let unionGroups :=
    getUnionGroups snakeToCamel parse typeErrorMessage message in
  match unionGroups with
  | [] =>
      [{| shapeMembers :=
            filter (λ member, skipsMember readOnlyFields [] member = false)
                   (members message);
          shapeConstraints := nestedConstraints |}]
  | _ =>
      unionAlternatives readOnlyFields (members message) nestedConstraints
                        unionGroups
  end.

End Shape.

(** *** Plugin options ([parseOptions]) *)

(** What a [throw] carries: a text, or a plain [Error]. *)
Inductive Thrown : Type :=
| ThrownText (text : string)
| ThrownError.

Inductive Outcome (A : Type) : Type :=
| Returned (value : A)
| Threw (thrown : Thrown).

Arguments Returned {A} value.
Arguments Threw {A} thrown.

Record ValidTypes : Type := mkValidTypes {
  legacyRequired : bool;
  protovalidateRequired : bool
}.

Record Options : Type := mkOptions {
  jsonTypes : bool;
  validTypes : ValidTypes;
  celValidation : bool
}.

(** A [for] loop whose body may throw: the first throw ends it. *)
Definition forEach {A B : Type} (body : A → B → Outcome A) (items : list B)
    (start : A) : Outcome A :=
  fold_left
    (λ acc item,
       match acc with
       | Returned state => body state item
       | Threw thrown => Threw thrown
       end)
    items (Returned start).

(** The test and the assignment shared by [json_types] and
    [cel_validation]. *)
Definition parseFlag (value : string) : Outcome bool :=
  if bool_decide (value ∈ ["true"; "1"; "false"; "0"]) then
    Returned (bool_decide (value ∈ ["true"; "1"]))
  else Threw (ThrownText "please provide true or false").

(** The inner [switch] on one part of a [valid_types] value. *)
Definition parseValidTypesPart (validTypes : ValidTypes) (part : string)
  : Outcome ValidTypes :=
  if bool_decide (part = "protovalidate_required") then
    Returned (mkValidTypes (legacyRequired validTypes) true)
  else if bool_decide (part = "legacy_required") then
    Returned (mkValidTypes true (protovalidateRequired validTypes))
  else Threw ThrownError.

(** The outer [switch] on one option. *)
Definition parseOption (state : Options) (option : string * string)
  : Outcome Options :=
  let key := option.1 in
  let value := option.2 in
  if bool_decide (key = "json_types") then
    match parseFlag value with
    | Returned flag =>
        Returned (mkOptions flag (validTypes state) (celValidation state))
    | Threw thrown => Threw thrown
    end
  else if bool_decide (key = "valid_types") then
    match forEach parseValidTypesPart (Js.split "+" value) (validTypes state) with
    | Returned types =>
        Returned (mkOptions (jsonTypes state) types (celValidation state))
    | Threw thrown => Threw thrown
    end
  else if bool_decide (key = "cel_validation") then
    match parseFlag value with
    | Returned flag =>
        Returned (mkOptions (jsonTypes state) (validTypes state) flag)
    | Threw thrown => Threw thrown
    end
  else Threw ThrownError.

Definition parseOptions (options : list (string * string)) : Outcome Options :=
  forEach parseOption options
    (mkOptions false (mkValidTypes false false) false).

(** An option that [parseOptions] accepts. *)
Definition acceptedOption (option : string * string) : Prop :=
  (option.1 = "json_types" ∧ option.2 ∈ ["true"; "1"; "false"; "0"])
  ∨ (option.1 = "cel_validation" ∧ option.2 ∈ ["true"; "1"; "false"; "0"])
  ∨ (option.1 = "valid_types"
     ∧ Forall (λ part, part = "protovalidate_required" ∨ part = "legacy_required")
              (Js.split "+" option.2)).

(** The value of the last option with this key, as a flag; [false] when
    there is none. *)
Definition lastFlag (key : string) (options : list (string * string)) : bool :=
  match last (filter (λ option, option.1 = key) options) with
  | Some option => bool_decide (option.2 ∈ ["true"; "1"])
  | None => false
  end.

(** Some [valid_types] option names this part. *)
Definition namesPart (part : string) (options : list (string * string)) : bool :=
  bool_decide (Exists (λ option, option.1 = "valid_types"
                                 ∧ part ∈ Js.split "+" option.2) options).

(** ** Vocabulary for the further properties *)

(** An equality that pins a top-level field: [a] is a path of one segment
    on [this] and [b] a constant. *)
Definition isTopLevelPin (a b : Expr) : bool :=
  match truthyPath (extractFieldPath a), extractConstant b with
  | Some path, Some _ => negb (Js.includes "." path)
  | _, _ => false
  end.

(** Expressions that only pin top-level fields: such equalities, in either
    order, and conjunctions of such expressions. *)
Fixpoint pinsOnly (e : Expr) : bool :=
  match e with
  | CallExpr fn args =>
      if bool_decide (fn = "_&&_") then forallb pinsOnly args
      else if bool_decide (fn = "_==_") then
        match args with
        | [a; b] => isTopLevelPin a b || isTopLevelPin b a
        | _ => false
        end
      else false
  | _ => false
  end.


(** The path that [handleNegation] hands to [addReadOnlyField] for this
    operand, if any. *)
Definition negatedPath (target : Expr) : option string :=
  match target with
  | CallExpr fn [inner] =>
      if bool_decide (fn = "has") then truthyPath (extractFieldPath inner)
      else None
  | SelectExpr _ _ _ | IdentExpr _ => truthyPath (extractFieldPath target)
  | _ => None
  end.

(** The path that [processEqualityPair] records for this pair, if any. *)
Definition equatedPath (fieldExpr valueExpr : Expr) : option string :=
  match extractConstant valueExpr with
  | Some _ => truthyPath (extractFieldPath fieldExpr)
  | None => None
  end.

(** The paths that the visitor hands to a recording operation, in visiting
    order, through conjunctions and disjunctions. *)
Fixpoint assertedPaths (e : Expr) : list string :=
  match e with
  | CallExpr fn args =>
      if bool_decide (fn = "!_") then
        match args with
        | target :: _ => option_list (negatedPath target)
        | [] => []
        end
      else if bool_decide (fn = "_==_") then
        match args with
        | [lhs; rhs] =>
            option_list (equatedPath lhs rhs) ++ option_list (equatedPath rhs lhs)
        | _ => []
        end
      else if bool_decide (fn = "_&&_") || bool_decide (fn = "_||_") then
        flat_map assertedPaths args
      else []
  | _ => []
  end.

(** A path with a dot whose first segment, camel-cased, names a property
    of [Object.prototype]. *)
Definition inheritedParent (snakeToCamel : string → string) (path : string)
  : bool :=
  Js.includes "." path
  && match snakeToCamel <$> Js.split "."%char path with
     | parent :: _ :: _ => bool_decide (parent ∈ Js.objectPrototypeNames)
     | _ => false
     end.

(** [root.s1...sn]: selects nested to the left on an arbitrary root. *)
Definition selectFrom (root : Expr) (segs : list string) : Expr :=
  fold_left (λ e s, SelectExpr (Some e) s false) segs root.

(** No parent is recorded with an empty list of children. *)
Definition childrenNonEmpty (m : gmap string (list string)) : Prop :=
  ∀ parent children, m !! parent = Some children → children ≠ [].

(** A branch that constrains something. *)
Definition branchNonEmpty (b : UnionBranch.t) : Prop :=
  UnionBranch.readOnlyFields b ≠ []
  ∨ UnionBranch.literalFields b ≠ ∅
  ∨ UnionBranch.nestedConstraints b ≠ ∅.

(** The names of one scope (top-level or branch) all come out of
    [snakeToCamel]. *)
Definition namesCamelCased (snakeToCamel : string → string)
    (readOnly : list string) (literals : gmap string LiteralValue)
    (nested : gmap string (list string)) : Prop :=
  Forall (λ x, ∃ s, x = snakeToCamel s) readOnly
  ∧ (∀ k, is_Some (literals !! k) → ∃ s, k = snakeToCamel s)
  ∧ (∀ k children, nested !! k = Some children →
       (∃ s, k = snakeToCamel s)
       ∧ Forall (λ x, ∃ s, x = snakeToCamel s) children).

(** The results of analysing the expressions of a list of rules. *)
Definition ruleResults (snakeToCamel : string → string)
    (parse : string → ParseOutcome) (typeErrorMessage : string)
    (cel : list Rule) : list CELParseResult :=
  (λ constraint,
     parseCELExpression snakeToCamel parse typeErrorMessage
                        (expression constraint)) <$> cel.

(** The children that a list of results records under one parent, in
    order. *)
Definition childrenUnder (parent : string) (results : list CELParseResult)
  : list string :=
  concat ((λ r, default [] (nestedConstraints r !! parent)) <$> results).

(** The entry stored for a parent with these children: none when there
    are no children, otherwise the children without duplicates. *)
Definition uniqueChildren (children : list string) : option (list string) :=
  match children with
  | [] => None
  | _ :: _ => Some (Js.uniq children)
  end.

(** The children that a list of union groups records under one parent, in
    order. *)
Definition groupChildrenUnder (parent : string) (groups : list UnionBranch.t)
  : list string :=
  concat ((λ group, default [] (UnionBranch.nestedConstraints group !! parent))
            <$> groups).

(** ** Example messages *)

Module PluginExamples.

Definition leakText : string :=
  "this.p.a == '' && (this.p.b == '' || this.p.c == '')".
Definition leakTree : Expr :=
  andE [eqE (thisField ["p"; "a"]) (stringLit "");
        orE [eqE (thisField ["p"; "b"]) (stringLit "");
             eqE (thisField ["p"; "c"]) (stringLit "")]].

Definition omitText : string := "!has(this.a)".
Definition omitTree : Expr := notE (hasMacro (thisField ["a"])).

Definition childText : string := "this.p.c == ''".
Definition childTree : Expr := eqE (thisField ["p"; "c"]) (stringLit "").

Definition bothText : string := "!has(this.a) && this.p.c == ''".
Definition bothTree : Expr := andE [omitTree; childTree].

Definition pinText : string := "this.x == 'v'".
Definition pinTree : Expr := eqE (thisField ["x"]) (stringLit "v").

Definition brokenText : string := "this.a ==".

Definition parse : string → ParseOutcome :=
  tableParser [(leakText, leakTree); (omitText, omitTree);
               (childText, childTree); (bothText, bothTree);
               (pinText, pinTree)].

Definition fields : list DescMember :=
  [mkMember KindField "a"; mkMember KindField "p"; mkMember KindOneof "kind"].

Definition messageWith (texts : list string) : DescMessage :=
  mkMessage (LookupRules (mkRule <$> texts)) fields.

(** Two groups that record children under [p], after message-level
    constraints that already have [p]. *)
Definition groupB : UnionBranch.t := UnionBranch.mk [] ∅ {[ "p" := ["b"] ]}.
Definition groupC : UnionBranch.t := UnionBranch.mk [] ∅ {[ "p" := ["c"] ]}.

End PluginExamples.

(** * Properties *)

(** ** Facts about the built-ins *)

Section JsFacts.

Lemma append_empty_l s : "" +:+ s = s.
Proof. reflexivity. Qed.

Lemma append_cons c s t : String c s +:+ t = String c (s +:+ t).
Proof. reflexivity. Qed.

Lemma includes_dot_cons c t :
  Js.includes "." (String c t) = bool_decide (c = "."%char) || Js.includes "." t.
Proof.
  cbn [Js.includes Js.startsWith]. f_equal.
  destruct (Ascii.eqb_spec "." c) as [<-|Hne].
  - by rewrite bool_decide_eq_true_2; [destruct t|].
  - rewrite bool_decide_eq_false_2; [done|congruence].
Qed.

Lemma includes_dot_app a b : Js.includes "." (a +:+ "." +:+ b) = true.
Proof.
  induction a as [|c a IH].
  - rewrite append_empty_l, append_cons, includes_dot_cons.
    by rewrite bool_decide_eq_true_2.
  - rewrite append_cons, includes_dot_cons, IH. apply orb_true_r.
Qed.

Lemma split_not_nil sep s : Js.split sep s ≠ [].
Proof.
  destruct s as [|c t]; cbn [Js.split]; [done|].
  destruct (Ascii.eqb c sep); [done|]. by destruct (Js.split sep t).
Qed.

Lemma split_app sep a b :
  Js.split sep (a +:+ String sep b) = Js.split sep a ++ Js.split sep b.
Proof.
  induction a as [|c a IH]; [rewrite append_empty_l|rewrite append_cons];
    cbn [Js.split].
  - by rewrite Ascii.eqb_refl.
  - destruct (Ascii.eqb c sep); [by rewrite IH|].
    rewrite IH. pose proof (split_not_nil sep a) as Hne.
    by destruct (Js.split sep a).
Qed.

Lemma split_dot_free s : Js.includes "." s = false → Js.split "." s = [s].
Proof.
  induction s as [|c t IH]; [done|].
  rewrite includes_dot_cons. intros [Hc Ht]%orb_false_iff.
  cbn [Js.split]. apply bool_decide_eq_false in Hc.
  destruct (Ascii.eqb_spec c "."); [done|]. by rewrite IH.
Qed.

Lemma trimStart_blank s : blank s → Js.trimStart s = "".
Proof.
  unfold blank. induction s as [|c t IH]; [done|].
  cbn [list_ascii_of_string Js.trimStart]. intros [Hc Ht]%Forall_cons.
  rewrite Hc. by apply IH.
Qed.

Lemma trimEnd_empty_blank s : Js.trimEnd s = "" → blank s.
Proof.
  unfold blank. induction s as [|c t IH]; [constructor|].
  cbn [list_ascii_of_string Js.trimEnd].
  destruct (Js.trimEnd t) eqn:Ht; [|done].
  destruct (Js.isWhiteSpace c) eqn:Hc; [|done].
  intros _. constructor; [done|by apply IH].
Qed.

Lemma trimStart_empty_blank s : blank (Js.trimStart s) → blank s.
Proof.
  unfold blank. induction s as [|c t IH]; [done|].
  cbn [list_ascii_of_string Js.trimStart].
  destruct (Js.isWhiteSpace c) eqn:Hc; [|done].
  intros H. constructor; [done|by apply IH].
Qed.

Lemma trim_empty_iff s : Js.trim s = "" ↔ blank s.
Proof.
  unfold Js.trim. split.
  - intros H. by apply trimStart_empty_blank, trimEnd_empty_blank.
  - intros H. by rewrite trimStart_blank.
Qed.

Lemma omap_cons_match {A B} (f : A → option B) a (l : list A) :
  omap f (a :: l)
  = match f a with Some b => b :: omap f l | None => omap f l end.
Proof. reflexivity. Qed.

Lemma uniqFrom_elem_of seen l x :
  x ∈ Js.uniqFrom seen l ↔ x ∈ l ∧ x ∉ seen.
Proof.
  revert seen. induction l as [|y t IH]; intros seen; cbn [Js.uniqFrom].
  - set_solver.
  - case_bool_decide as Hy.
    + rewrite IH. set_solver.
    + rewrite elem_of_cons, IH. destruct (decide (x = y)); set_solver.
Qed.

Lemma uniqFrom_NoDup seen l : NoDup (Js.uniqFrom seen l).
Proof.
  revert seen. induction l as [|y t IH]; intros seen; cbn [Js.uniqFrom].
  - constructor.
  - case_bool_decide; [done|]. constructor; [|done].
    rewrite uniqFrom_elem_of. set_solver.
Qed.

Lemma uniq_elem_of l x : x ∈ Js.uniq l ↔ x ∈ l.
Proof. unfold Js.uniq. rewrite uniqFrom_elem_of. set_solver. Qed.

Lemma uniq_NoDup l : NoDup (Js.uniq l).
Proof. apply uniqFrom_NoDup. Qed.

End JsFacts.

(** ** Facts about expression trees *)

Section ExprFacts.

(** Induction on expressions that descends into call arguments. *)
Lemma Expr_call_ind (P : Expr → Prop) :
  (∀ e, (∀ fn args, e ≠ CallExpr fn args) → P e) →
  (∀ fn args, Forall P args → P (CallExpr fn args)) →
  ∀ e, P e.
Proof.
  intros Hleaf Hcall. fix IH 1. intros e.
  destruct e as [| | | |fn args| | |]; try (apply Hleaf; discriminate).
  apply Hcall. induction args as [|a args IHargs]; constructor.
  - apply IH.
  - apply IHargs.
Qed.

Lemma const_not_path e v : extractConstant e = Some v → extractFieldPath e = None.
Proof. by destruct e. Qed.

Lemma path_not_const e p : extractFieldPath e = Some p → extractConstant e = None.
Proof. by destruct e. Qed.

Lemma joinPath_step p f rest :
  joinPath p (f :: rest) = joinPath (p +:+ "." +:+ f) rest.
Proof. reflexivity. Qed.

Lemma append_dot_nonempty p f : p +:+ "." +:+ f ≠ "".
Proof. destruct p; [rewrite append_empty_l|]; discriminate. Qed.

Lemma extractFieldPath_selects rest :
  ∀ e p, extractFieldPath e = Some p → p ≠ "" →
    extractFieldPath (fold_left (λ e s, SelectExpr (Some e) s false) rest e)
    = Some (joinPath p rest) ∧ joinPath p rest ≠ "".
Proof.
  induction rest as [|f rest IH]; intros e p He Hp; [done|].
  cbn [fold_left]. rewrite joinPath_step. apply IH.
  - cbn [extractFieldPath]. rewrite He. by rewrite bool_decide_eq_false_2.
  - apply append_dot_nonempty.
Qed.

Lemma truthyPath_thisField p rest :
  p ≠ "" →
  truthyPath (extractFieldPath (thisField (p :: rest))) = Some (joinPath p rest).
Proof.
  intros Hp. unfold thisField. cbn [fold_left].
  destruct (extractFieldPath_selects rest (SelectExpr (Some this) p false) p)
    as [-> Hne]; [done..|].
  unfold truthyPath. by rewrite bool_decide_eq_false_2.
Qed.

Lemma includes_joinPath p rest :
  Js.includes "." p = true → Js.includes "." (joinPath p rest) = true.
Proof.
  revert p. induction rest as [|f rest IH]; intros p Hp; [done|].
  rewrite joinPath_step. apply IH, includes_dot_app.
Qed.

Lemma includes_joinPath_cons p c rest :
  Js.includes "." (joinPath p (c :: rest)) = true.
Proof. rewrite joinPath_step. apply includes_joinPath, includes_dot_app. Qed.

Lemma split_joinPath p rest :
  Js.split "." (joinPath p rest)
  = Js.split "." p ++ flat_map (Js.split ".") rest.
Proof.
  revert p. induction rest as [|f rest IH]; intros p.
  - cbn. by rewrite app_nil_r.
  - rewrite joinPath_step, IH. cbn [flat_map].
    change (p +:+ "." +:+ f) with (p +:+ String "." f).
    by rewrite split_app, <- app_assoc.
Qed.

End ExprFacts.
(** ** Facts about merging results *)

Section MergeFacts.

Implicit Types (m : gmap string (list string)) (r : CELParseResult).

Lemma children_union_empty_r m :
  union_with (λ old new, Some (old ++ new)) m ∅ = m.
Proof.
  apply map_eq; intros i. rewrite lookup_union_with, lookup_empty.
  by destruct (m !! i).
Qed.

Lemma children_union_empty_l m :
  union_with (λ old new, Some (old ++ new)) ∅ m = m.
Proof.
  apply map_eq; intros i. rewrite lookup_union_with, lookup_empty.
  by destruct (m !! i).
Qed.

Lemma children_union_assoc m1 m2 m3 :
  union_with (λ old new, Some (old ++ new))
    (union_with (λ old new, Some (old ++ new)) m1 m2) m3
  = union_with (λ old new, Some (old ++ new)) m1
      (union_with (λ old new, Some (old ++ new)) m2 m3).
Proof.
  apply map_eq; intros i. rewrite !lookup_union_with.
  destruct (m1 !! i), (m2 !! i), (m3 !! i); cbn; try done.
  by rewrite app_assoc.
Qed.

Lemma children_union_singleton m parent child :
  union_with (λ old new, Some (old ++ new)) m (<[parent := [child]]> ∅)
  = <[parent := default [] (m !! parent) ++ [child]]> m.
Proof.
  apply map_eq; intros i. rewrite lookup_union_with.
  destruct (decide (parent = i)) as [->|Hne].
  - rewrite !lookup_insert_eq. by destruct (m !! i).
  - rewrite !lookup_insert_ne, lookup_empty by done. by destruct (m !! i).
Qed.

Lemma mergeInto_empty_r r : mergeInto r createEmptyResult = r.
Proof.
  destruct r. unfold mergeInto; cbn.
  by rewrite !app_nil_r, (left_id_L ∅ (∪)), children_union_empty_r.
Qed.

Lemma mergeInto_empty_l r : mergeInto createEmptyResult r = r.
Proof.
  destruct r. unfold mergeInto; cbn.
  by rewrite (right_id_L ∅ (∪)), children_union_empty_l.
Qed.

Lemma mergeInto_assoc r1 r2 r3 :
  mergeInto (mergeInto r1 r2) r3 = mergeInto r1 (mergeInto r2 r3).
Proof.
  unfold mergeInto; cbn.
  by rewrite !app_assoc, (assoc_L (∪)), children_union_assoc.
Qed.

End MergeFacts.

(** ** Facts about completions and loops *)

Section CompletionFacts.

Context {S A : Type}.

Implicit Types (c : Completion S) (body : S → A → Completion S)
  (items : list A) (s : S).

Lemma andThen_Normal c : andThen c Normal = c.
Proof. by destruct c. Qed.

Lemma andThen_assoc c (f g : S → Completion S) :
  andThen (andThen c f) g = andThen c (λ s, andThen (f s) g).
Proof. by destruct c. Qed.

Lemma stateOf_andThen c (f : S → Completion S) :
  stateOf (andThen c f)
  = match c with Normal s => stateOf (f s) | Abrupt s => s end.
Proof. by destruct c. Qed.

Lemma forLoop_from_abrupt body items s :
  fold_left (λ acc item, andThen acc (λ st, body st item)) items (Abrupt s)
  = Abrupt s.
Proof. by induction items. Qed.

Lemma forLoop_cons body item items s :
  forLoop body (item :: items) s = andThen (body s item) (forLoop body items).
Proof.
  unfold forLoop. cbn [fold_left andThen].
  destruct (body s item); [done|apply forLoop_from_abrupt].
Qed.

Lemma forLoop_app body items1 items2 :
  ∀ s, forLoop body (items1 ++ items2) s
       = andThen (forLoop body items1 s) (forLoop body items2).
Proof.
  induction items1 as [|item items1 IH]; intros s; [done|].
  cbn [app]. rewrite !forLoop_cons, andThen_assoc.
  destruct (body s item); [apply IH|done].
Qed.

(** A property of the state that every iteration keeps, however it ends, is
    kept by the loop. *)
Lemma forLoop_invariant (P : S → Prop) body items :
  Forall (λ item, ∀ s, P s → P (stateOf (body s item))) items →
  ∀ s, P s → P (stateOf (forLoop body items s)).
Proof.
  induction 1 as [|item items Hitem _ IH]; intros s Hs; [done|].
  rewrite forLoop_cons, stateOf_andThen.
  specialize (Hitem s Hs). destruct (body s item); [by apply IH|done].
Qed.

End CompletionFacts.

(** ** Facts about reads and assignments on plain objects *)

Section ObjectFacts.

Context {A : Type}.

Implicit Types (m : gmap string A) (k : string) (v : A).

Lemma get_inherited m k :
  m !! k = None → k ∈ Js.objectPrototypeNames → Js.get m k = Js.Inherited.
Proof. intros Hm Hk. unfold Js.get. by rewrite Hm, bool_decide_eq_true_2. Qed.

Lemma get_not_inherited m k :
  k ∉ Js.objectPrototypeNames →
  Js.get m k = match m !! k with Some v => Js.Own v | None => Js.Undefined end.
Proof.
  intros Hk. unfold Js.get. destruct (m !! k); [done|].
  by rewrite bool_decide_eq_false_2.
Qed.

Lemma get_Inherited_iff m k :
  Js.get m k = Js.Inherited ↔ m !! k = None ∧ k ∈ Js.objectPrototypeNames.
Proof.
  unfold Js.get. destruct (m !! k); [by split; [|intros []]|].
  case_bool_decide; by split; [|intros []].
Qed.

Lemma assign_insert k v m : k ≠ "__proto__" → Js.assign k v m = <[k := v]> m.
Proof.
  intros Hk. unfold Js.assign. destruct (m !! k); [done|].
  by rewrite bool_decide_eq_false_2.
Qed.

Lemma assign_proto v m :
  m !! "__proto__" = None → Js.assign "__proto__" v m = m.
Proof. intros Hm. unfold Js.assign. by rewrite Hm. Qed.

Lemma assign_assign k v1 v2 m :
  Js.assign k v2 (Js.assign k v1 m) = Js.assign k v2 m.
Proof.
  unfold Js.assign. destruct (m !! k) as [old|] eqn:Hm.
  - by rewrite lookup_insert_eq, insert_insert_eq.
  - case_bool_decide; [by rewrite Hm|].
    by rewrite lookup_insert_eq, insert_insert_eq.
Qed.

Lemma lookup_assign_ne k k' v m : k ≠ k' → Js.assign k v m !! k' = m !! k'.
Proof.
  intros Hne. unfold Js.assign.
  destruct (m !! k); [by rewrite lookup_insert_ne|].
  case_bool_decide; [done|by rewrite lookup_insert_ne].
Qed.

Lemma lookup_assign_proto k v m :
  m !! "__proto__" = None → Js.assign k v m !! "__proto__" = None.
Proof.
  intros Hm. destruct (decide (k = "__proto__")) as [->|Hne].
  - by rewrite assign_proto.
  - by rewrite lookup_assign_ne.
Qed.

Lemma lookup_assign_is_Some k k' v m :
  is_Some (Js.assign k v m !! k') → k' = k ∨ is_Some (m !! k').
Proof.
  destruct (decide (k = k')) as [->|Hne]; [by left|].
  rewrite lookup_assign_ne by done. by right.
Qed.

End ObjectFacts.

(** ** Facts about the handlers *)

Section HandlerFacts.

Variable snakeToCamel : string → string.

Local Abbreviation visit := (visitExpr snakeToCamel).
Local Abbreviation fresh := createEmptyResult.

Implicit Types (r d : CELParseResult) (e : Expr) (args : list Expr).

Lemma set_errors_same r : set_errors (errors r ++ []) r = r.
Proof. destruct r. unfold set_errors; cbn. by rewrite app_nil_r. Qed.

Lemma hasBranchConstraints_true d :
  hasBranchConstraints d = true ↔ ¬ scopeEmpty d.
Proof.
  unfold hasBranchConstraints, scopeEmpty.
  rewrite !orb_true_iff, !negb_true_iff, !bool_decide_eq_false.
  split; [tauto|]. intros H.
  destruct (decide (readOnlyFields d = [])); [|tauto].
  destruct (decide (literalFields d = ∅)); [|tauto].
  destruct (decide (nestedConstraints d = ∅)); tauto.
Qed.

Lemma keptBranches_cons d ds :
  keptBranches (d :: ds)
  = (if hasBranchConstraints d then [branchOfScope d] else [])
    ++ keptBranches ds.
Proof.
  unfold keptBranches. rewrite filter_cons.
  destruct (hasBranchConstraints d) eqn:Hd.
  - apply hasBranchConstraints_true in Hd. by rewrite decide_True.
  - rewrite decide_False; [done|]. intros Hne.
    apply hasBranchConstraints_true in Hne. congruence.
Qed.

Lemma keptBranches_app ds1 ds2 :
  keptBranches (ds1 ++ ds2) = keptBranches ds1 ++ keptBranches ds2.
Proof. unfold keptBranches. by rewrite filter_app, fmap_app. Qed.

(** *** What [addReadOnlyField] does *)

Lemma addReadOnlyField_top f r :
  Js.includes "." f = false →
  addReadOnlyField snakeToCamel f r
  = Normal (set_readOnlyFields (readOnlyFields r ++ [snakeToCamel f]) r).
Proof. intros H. unfold addReadOnlyField. by rewrite H. Qed.

Lemma addReadOnlyField_parts parent child others f r :
  Js.includes "." f = true →
  snakeToCamel <$> Js.split "." f = parent :: child :: others →
  addReadOnlyField snakeToCamel f r
  = match Js.get (nestedConstraints r) parent with
    | Js.Inherited => Abrupt r
    | _ =>
        Normal (set_nestedConstraints
                  (<[parent := default [] (nestedConstraints r !! parent)
                               ++ [child]]> (nestedConstraints r)) r)
    end.
Proof.
  intros Hdot Hparts. unfold addReadOnlyField. rewrite Hdot, Hparts. cbn [negb].
  unfold Js.get. destruct (nestedConstraints r !! parent); [done|].
  by case_bool_decide.
Qed.

Lemma addReadOnlyField_nested p c rest r :
  Js.includes "." p = false → Js.includes "." c = false →
  addReadOnlyField snakeToCamel (joinPath p (c :: rest)) r
  = match Js.get (nestedConstraints r) (snakeToCamel p) with
    | Js.Inherited => Abrupt r
    | _ =>
        Normal (set_nestedConstraints
                  (<[snakeToCamel p :=
                       default [] (nestedConstraints r !! snakeToCamel p)
                       ++ [snakeToCamel c]]> (nestedConstraints r)) r)
    end.
Proof.
  intros Hp Hc.
  apply (addReadOnlyField_parts _ _ (snakeToCamel <$> flat_map (Js.split ".") rest)).
  - apply includes_joinPath_cons.
  - rewrite split_joinPath. cbn [flat_map].
    by rewrite (split_dot_free p), (split_dot_free c).
Qed.

(** The cases of [addReadOnlyField], for the proofs that follow: it appends
    a read-only field, or appends a child under a parent that is no name of
    [Object.prototype] or is an own key, or does nothing, or throws and
    leaves the result as it is. *)
Lemma addReadOnlyField_cases f r :
  (∃ x, addReadOnlyField snakeToCamel f r
        = Normal (set_readOnlyFields (readOnlyFields r ++ [snakeToCamel x]) r))
  ∨ (∃ p c,
       (snakeToCamel p ∉ Js.objectPrototypeNames
        ∨ is_Some (nestedConstraints r !! snakeToCamel p))
       ∧ addReadOnlyField snakeToCamel f r
         = Normal (set_nestedConstraints
                     (<[snakeToCamel p :=
                          default [] (nestedConstraints r !! snakeToCamel p)
                          ++ [snakeToCamel c]]> (nestedConstraints r)) r))
  ∨ addReadOnlyField snakeToCamel f r = Normal r
  ∨ (∃ p, snakeToCamel p ∈ Js.objectPrototypeNames
          ∧ nestedConstraints r !! snakeToCamel p = None
          ∧ addReadOnlyField snakeToCamel f r = Abrupt r).
Proof.
  destruct (Js.includes "." f) eqn:Hdot;
    [|left; exists f; by apply addReadOnlyField_top].
  right.
  destruct (Js.split "." f) as [|p [|c others]] eqn:Hsplit.
  - right. left. unfold addReadOnlyField. by rewrite Hdot, Hsplit.
  - right. left. unfold addReadOnlyField. by rewrite Hdot, Hsplit.
  - rewrite (addReadOnlyField_parts (snakeToCamel p) (snakeToCamel c)
               (snakeToCamel <$> others)) by by rewrite ?Hsplit.
    destruct (Js.get (nestedConstraints r) (snakeToCamel p)) as [old| |] eqn:Hget.
    + left. exists p, c. split; [|done]. right.
      unfold Js.get in Hget.
      destruct (nestedConstraints r !! snakeToCamel p); [done|].
      by case_bool_decide.
    + right. right. exists p. apply get_Inherited_iff in Hget as [? ?]. done.
    + left. exists p, c. split; [|done]. left.
      unfold Js.get in Hget.
      destruct (nestedConstraints r !! snakeToCamel p); [done|].
      by case_bool_decide.
Qed.

Lemma handleNegation_cases arg r :
  handleNegation snakeToCamel arg r = Normal r
  ∨ ∃ f, handleNegation snakeToCamel arg r = addReadOnlyField snakeToCamel f r.
Proof. unfold handleNegation. repeat case_match; eauto. Qed.

Lemma processEqualityPair_cases a b r :
  processEqualityPair snakeToCamel a b r = Normal r
  ∨ (∃ f v, processEqualityPair snakeToCamel a b r
            = Normal (set_literalFields
                        (Js.assign (snakeToCamel f) v (literalFields r)) r))
  ∨ ∃ f, Js.includes "." f = true
         ∧ processEqualityPair snakeToCamel a b r
           = addReadOnlyField snakeToCamel f r.
Proof.
  unfold processEqualityPair.
  destruct (extractConstant b) as [v|]; [|by left].
  destruct (truthyPath (extractFieldPath a)) as [f|]; [|by left].
  destruct (Js.includes "." f) eqn:Hdot; cbn [negb]; eauto.
Qed.

(** *** The visitor records no error *)

Lemma errors_addReadOnlyField f r :
  errors (stateOf (addReadOnlyField snakeToCamel f r)) = errors r.
Proof.
  by destruct (addReadOnlyField_cases f r)
    as [[x ->]|[(p & c & _ & ->)|[->|(p & _ & _ & ->)]]].
Qed.

Lemma errors_handleNegation arg r :
  errors (stateOf (handleNegation snakeToCamel arg r)) = errors r.
Proof.
  destruct (handleNegation_cases arg r) as [->|[f ->]]; [done|].
  apply errors_addReadOnlyField.
Qed.

Lemma errors_processEqualityPair a b r :
  errors (stateOf (processEqualityPair snakeToCamel a b r)) = errors r.
Proof.
  destruct (processEqualityPair_cases a b r) as [->|[(f & v & ->)|(f & _ & ->)]];
    try done.
  apply errors_addReadOnlyField.
Qed.

Lemma errors_handleEquality args r :
  errors (stateOf (handleEquality snakeToCamel args r)) = errors r.
Proof.
  destruct args as [|a [|b [|]]]; cbn [handleEquality]; try done.
  rewrite stateOf_andThen.
  pose proof (errors_processEqualityPair a b r) as Hab.
  destruct (processEqualityPair snakeToCamel a b r) as [r'|r']; [|done].
  cbn in Hab. by rewrite errors_processEqualityPair.
Qed.

Lemma handleOr_step_normal
    (v : Expr → CELParseResult → Completion CELParseResult) branches r a d :
  v a fresh = Normal d → errors d = [] →
  handleOr_step v (branches, r) a
  = Normal (branches ++ (if hasBranchConstraints d then [branchOfScope d] else []),
            r).
Proof.
  intros Hv Hd. unfold handleOr_step. rewrite Hv, Hd, set_errors_same. cbn [fst].
  destruct (hasBranchConstraints d); by rewrite ?app_nil_r.
Qed.

Lemma handleOr_step_abrupt
    (v : Expr → CELParseResult → Completion CELParseResult) st a d :
  v a fresh = Abrupt d → handleOr_step v st a = Abrupt st.
Proof. intros Hv. unfold handleOr_step. by rewrite Hv. Qed.

(** The loop of [handleOr], when the operands record no error. *)
Lemma handleOr_loop
    (v : Expr → CELParseResult → Completion CELParseResult) args :
  Forall (λ a, errors (stateOf (v a fresh)) = []) args →
  ∀ branches r,
    match operandScopes v args with
    | Some ds =>
        forLoop (handleOr_step v) args (branches, r)
        = Normal (branches ++ keptBranches ds, r)
    | None => ∃ bs, forLoop (handleOr_step v) args (branches, r) = Abrupt (bs, r)
    end.
Proof.
  induction 1 as [|a args Ha _ IH]; intros branches r.
  - cbn. by rewrite app_nil_r.
  - cbn [operandScopes]. rewrite forLoop_cons.
    destruct (v a fresh) as [d|d] eqn:Hv; cbn [stateOf] in Ha.
    + rewrite (handleOr_step_normal v branches r a d Hv Ha). cbn [andThen].
      specialize
        (IH (branches
             ++ (if hasBranchConstraints d then [branchOfScope d] else [])) r).
      destruct (operandScopes v args) as [ds|];
        cbn [fmap option_fmap option_map]; [|done].
      by rewrite IH, keptBranches_cons, app_assoc.
    + rewrite (handleOr_step_abrupt v _ a d Hv). by eexists.
Qed.

Lemma handleOr_unfold
    (v : Expr → CELParseResult → Completion CELParseResult) args r :
  Forall (λ a, errors (stateOf (v a fresh)) = []) args →
  handleOr v args r
  = match operandScopes v args with
    | Some ds => Normal (set_unionGroups (unionGroups r ++ keptBranches ds) r)
    | None => Abrupt r
    end.
Proof.
  intros Hargs. unfold handleOr.
  pose proof (handleOr_loop v args Hargs [] r) as Hloop.
  destruct (operandScopes v args) as [ds|].
  - by rewrite Hloop.
  - by destruct Hloop as [bs ->].
Qed.

Lemma visitExpr_errors e : ∀ r, errors (stateOf (visit e r)) = errors r.
Proof.
  induction e as [e Hleaf|fn args IH] using Expr_call_ind; intros r.
  - destruct e as [| | | |fn args| | |]; try done. by destruct (Hleaf fn args).
  - cbn [visitExpr]. repeat case_bool_decide.
    + apply errors_handleNegation.
    + apply errors_handleEquality.
    + unfold handleAnd.
      apply (forLoop_invariant (λ s, errors s = errors r)); [|done].
      eapply Forall_impl; [exact IH|]. cbn. intros a Ha s Hs. by rewrite Ha.
    + rewrite handleOr_unfold.
      * by destruct (operandScopes _ _).
      * eapply Forall_impl; [exact IH|]. cbn. intros a Ha. apply Ha.
    + done.
Qed.

(** *** What each operator does at the top of an expression *)

Lemma visit_and args r :
  visit (andE args) r = forLoop (λ res arg, visit arg res) args r.
Proof. reflexivity. Qed.

Lemma visit_and_cons a args r :
  visit (andE (a :: args)) r = andThen (visit a r) (visit (andE args)).
Proof. rewrite visit_and, forLoop_cons. reflexivity. Qed.

Lemma visit_and_app args1 args2 r :
  visit (andE (args1 ++ args2)) r
  = andThen (visit (andE args1) r) (visit (andE args2)).
Proof. rewrite !visit_and, forLoop_app. reflexivity. Qed.

(** A disjunction: when no operand throws in its fresh scope, the branches
    of the scopes that are not empty are appended to [unionGroups];
    otherwise the call throws and the result is as it was. *)
Lemma visit_or args r :
  visit (orE args) r
  = match operandScopes visit args with
    | Some ds => Normal (set_unionGroups (unionGroups r ++ keptBranches ds) r)
    | None => Abrupt r
    end.
Proof.
  change (visit (orE args) r) with (handleOr visit args r).
  apply handleOr_unfold, Forall_true. intros a. apply visitExpr_errors.
Qed.

Lemma visit_eq a b r :
  visit (eqE a b) r
  = andThen (processEqualityPair snakeToCamel a b r)
            (processEqualityPair snakeToCamel b a).
Proof. reflexivity. Qed.

Lemma visit_not a rest r :
  visit (CallExpr "!_" (a :: rest)) r = handleNegation snakeToCamel (Some a) r.
Proof. reflexivity. Qed.

Lemma operandScopes_Some args ds :
  operandScopes visit args = Some ds
  ↔ Forall2 (λ a d, visit a fresh = Normal d) args ds.
Proof.
  revert ds. induction args as [|a args IH]; intros ds; cbn [operandScopes].
  - split; [intros [= <-]; constructor|by intros ->%Forall2_nil_inv_l].
  - destruct (visit a fresh) as [d|d] eqn:Hv.
    + destruct (operandScopes visit args) as [ds'|]; cbn; split.
      * intros [= <-]. constructor; [done|by apply IH].
      * intros (d' & ds'' & Hd & Hds & ->)%Forall2_cons_inv_l.
        apply IH in Hds. congruence.
      * done.
      * intros (d' & ds'' & Hd & Hds & ->)%Forall2_cons_inv_l.
        by apply IH in Hds.
    + split; [done|].
      intros (d' & ds'' & Hd & _)%Forall2_cons_inv_l. congruence.
Qed.

Lemma operandScopes_None args :
  operandScopes visit args = None
  ↔ ∃ a d, a ∈ args ∧ visit a fresh = Abrupt d.
Proof.
  induction args as [|a args IH]; cbn [operandScopes].
  - split; [done|]. by intros (a & d & Ha%not_elem_of_nil & _).
  - destruct (visit a fresh) as [d|d] eqn:Hv.
    + rewrite fmap_None, IH. split.
      * intros (a' & d' & Ha' & Hd'). exists a', d'.
        split; [by apply list_elem_of_further|done].
      * intros (a' & d' & [->|Ha']%elem_of_cons & Hd'); [congruence|].
        by exists a', d'.
    + split; [|done]. intros _. exists a, d.
      split; [apply list_elem_of_here|done].
Qed.

End HandlerFacts.

(** ** Invariants of the visitor *)

Section InvariantFacts.

Variable snakeToCamel : string → string.

Local Abbreviation visit := (visitExpr snakeToCamel).
Local Abbreviation fresh := createEmptyResult.

Implicit Types (r d : CELParseResult) (e a b : Expr) (x : string).

Lemma unsupportedFields_addReadOnlyField f r :
  unsupportedFields (stateOf (addReadOnlyField snakeToCamel f r))
  = unsupportedFields r.
Proof.
  by destruct (addReadOnlyField_cases snakeToCamel f r)
    as [[x ->]|[(p & c & _ & ->)|[->|(p & _ & _ & ->)]]].
Qed.

Lemma unionGroups_addReadOnlyField f r :
  unionGroups (stateOf (addReadOnlyField snakeToCamel f r)) = unionGroups r.
Proof.
  by destruct (addReadOnlyField_cases snakeToCamel f r)
    as [[x ->]|[(p & c & _ & ->)|[->|(p & _ & _ & ->)]]].
Qed.

Lemma literalFields_addReadOnlyField f r :
  literalFields (stateOf (addReadOnlyField snakeToCamel f r)) = literalFields r.
Proof.
  by destruct (addReadOnlyField_cases snakeToCamel f r)
    as [[x ->]|[(p & c & _ & ->)|[->|(p & _ & _ & ->)]]].
Qed.

(** An invariant [I] of the top-level fields and a property [B] of branches
    are kept by the visitor, however it ends, as soon as the two recording
    operations keep [I] and a fresh scope that satisfies [I] and is not
    empty makes a branch satisfying [B]. *)
Lemma visitExpr_invariant
    (I : CELParseResult → Prop) (B : UnionBranch.t → Prop) :
  (∀ f r, I r → I (stateOf (addReadOnlyField snakeToCamel f r))) →
  (∀ f v r, I r →
     I (set_literalFields
          (Js.assign (snakeToCamel f) v (literalFields r)) r)) →
  (∀ r, I r → ¬ scopeEmpty r → B (branchOfScope r)) →
  (∀ r bs, I r → I (set_unionGroups bs r)) →
  I fresh →
  ∀ e r, I r → Forall B (unionGroups r) →
    I (stateOf (visit e r)) ∧ Forall B (unionGroups (stateOf (visit e r))).
Proof.
  intros Hadd Hlit Hbranch Hug Hfresh.
  set (P := λ r, I r ∧ Forall B (unionGroups r)).
  assert (∀ f r, P r → P (stateOf (addReadOnlyField snakeToCamel f r))) as Hadd'.
  { intros f r [Hr Hb]. split; [by apply Hadd|].
    by rewrite unionGroups_addReadOnlyField. }
  assert (∀ a b r, P r → P (stateOf (processEqualityPair snakeToCamel a b r)))
    as Hpair.
  { intros a b r Hr.
    destruct (processEqualityPair_cases snakeToCamel a b r)
      as [->|[(f & v & ->)|(f & _ & ->)]]; [done| |by apply Hadd'].
    destruct Hr as [Hr Hb]. split; [by apply Hlit|done]. }
  enough (∀ e r, P r → P (stateOf (visit e r))) as Hall
    by (intros e r Hr Hb; by apply Hall).
  induction e as [e Hleaf|fn args IH] using Expr_call_ind; intros r Hr.
  - destruct e as [| | | |fn args| | |]; try done. by destruct (Hleaf fn args).
  - cbn [visitExpr]. repeat case_bool_decide; try done.
    + destruct (handleNegation_cases snakeToCamel (head args) r) as [->|[f ->]];
        [done|by apply Hadd'].
    + destruct args as [|a [|b [|]]]; cbn [handleEquality]; try done.
      rewrite stateOf_andThen. pose proof (Hpair a b r Hr) as Hab.
      destruct (processEqualityPair snakeToCamel a b r) as [r'|r']; [|done].
      by apply Hpair.
    + unfold handleAnd. by apply (forLoop_invariant P).
    + subst fn. change (handleOr visit args r) with (visit (orE args) r).
      rewrite visit_or.
      destruct (operandScopes visit args) as [ds|] eqn:Hscopes; [|done].
      apply operandScopes_Some in Hscopes. destruct Hr as [Hr Hb].
      split; [by apply Hug|]. cbn. apply Forall_app. split; [done|].
      unfold keptBranches. apply Forall_fmap, Forall_forall.
      intros d [Hne Hd]%list_elem_of_filter. apply Hbranch; [|done].
      apply list_elem_of_lookup in Hd as [i Hi].
      destruct (Forall2_lookup_r _ _ _ _ _ Hscopes Hi) as (a & Ha & Hvisit).
      destruct (Forall_lookup_1 _ _ _ _ IH Ha fresh) as [Hd _];
        [by split; [|constructor]|].
      by rewrite Hvisit in Hd.
Qed.

(** *** The own keys stay clear of [Object.prototype] *)

Lemma plainKeys_fresh : plainKeys fresh.
Proof.
  split; [done|]. apply Forall_forall. intros key _. apply lookup_empty.
Qed.

Lemma plainKeys_addReadOnlyField f r :
  plainKeys r → plainKeys (stateOf (addReadOnlyField snakeToCamel f r)).
Proof.
  intros [Hlit Hnested].
  destruct (addReadOnlyField_cases snakeToCamel f r)
    as [[x ->]|[(p & c & Hp & ->)|[->|(p & _ & _ & ->)]]]; try done.
  split; [done|]. rewrite Forall_forall in Hnested. apply Forall_forall.
  cbn. intros key Hkey.
  destruct (decide (snakeToCamel p = key)) as [<-|Hne].
  - destruct Hp as [Hp|Hp]; [done|].
    rewrite (Hnested _ Hkey) in Hp. by apply is_Some_None in Hp.
  - rewrite lookup_insert_ne by done. by apply Hnested.
Qed.

Lemma plainKeys_assign k (v : LiteralValue) r :
  plainKeys r → plainKeys (set_literalFields (Js.assign k v (literalFields r)) r).
Proof. intros [Hlit Hnested]. split; [by apply lookup_assign_proto|done]. Qed.

Lemma plainKeys_processEqualityPair a b r :
  plainKeys r → plainKeys (stateOf (processEqualityPair snakeToCamel a b r)).
Proof.
  intros Hr.
  destruct (processEqualityPair_cases snakeToCamel a b r)
    as [->|[(f & v & ->)|(f & _ & ->)]]; [done| |].
  - by apply plainKeys_assign.
  - by apply plainKeys_addReadOnlyField.
Qed.

Lemma plainKeys_handleNegation arg r :
  plainKeys r → plainKeys (stateOf (handleNegation snakeToCamel arg r)).
Proof.
  intros Hr.
  destruct (handleNegation_cases snakeToCamel arg r) as [->|[f ->]]; [done|].
  by apply plainKeys_addReadOnlyField.
Qed.

Lemma visitExpr_plainKeys e r :
  plainKeys r → plainKeys (stateOf (visit e r)).
Proof.
  intros Hr.
  destruct (visitExpr_invariant plainKeys (λ _ : UnionBranch.t, True))
    with (e := e) (r := r) as [H _];
    [apply plainKeys_addReadOnlyField
    |intros f v r'; apply plainKeys_assign
    |done|done|apply plainKeys_fresh|done|by apply Forall_true|done].
Qed.

(** The same for the scopes of the branches. *)
Lemma visitExpr_plainKeys_branches e r :
  plainKeys r →
  Forall plainBranch (unionGroups r) →
  Forall plainBranch (unionGroups (stateOf (visit e r))).
Proof.
  intros Hr Hb.
  destruct (visitExpr_invariant plainKeys plainBranch)
    with (e := e) (r := r) as [_ H];
    [apply plainKeys_addReadOnlyField
    |intros f v r'; apply plainKeys_assign
    |by intros r' Hr' _|done|apply plainKeys_fresh|done|done|done].
Qed.

End InvariantFacts.

(** ** Visiting is merging *)

Section VisitMergeFacts.

Variable snakeToCamel : string → string.

Local Abbreviation visit := (visitExpr snakeToCamel).
Local Abbreviation fresh := createEmptyResult.

Implicit Types (r d : CELParseResult) (e a b : Expr) (args : list Expr)
  (c : Completion CELParseResult).

Lemma mergeCompletion_assoc r d c :
  mergeCompletion (mergeInto r d) c = mergeCompletion r (mergeCompletion d c).
Proof. destruct c; cbn; by rewrite mergeInto_assoc. Qed.

Lemma stateOf_mergeCompletion r c :
  stateOf (mergeCompletion r c) = mergeInto r (stateOf c).
Proof. by destruct c. Qed.

(** Sequencing two steps that merge, the first of which keeps the own keys
    clear of [Object.prototype]. *)
Lemma andThen_merge (f g : CELParseResult → Completion CELParseResult) r :
  (∀ s, plainKeys s → plainKeys (stateOf (f s))) →
  (∀ s, plainKeys s → f s = mergeCompletion s (f fresh)) →
  (∀ s, plainKeys s → g s = mergeCompletion s (g fresh)) →
  plainKeys r →
  andThen (f r) g = mergeCompletion r (andThen (f fresh) g).
Proof.
  intros Hkeep Hf Hg Hr. rewrite (Hf r Hr).
  pose proof (Hkeep r Hr) as Hfr. rewrite (Hf r Hr) in Hfr.
  pose proof (Hkeep fresh (plainKeys_fresh)) as Hff.
  destruct (f fresh) as [d|d]; cbn in *; [|done].
  by rewrite (Hg _ Hfr), (Hg d Hff), mergeCompletion_assoc.
Qed.

Lemma forLoop_merge (body : CELParseResult → Expr → Completion CELParseResult)
    args :
  Forall (λ a, (∀ s, plainKeys s → plainKeys (stateOf (body s a)))
               ∧ ∀ s, plainKeys s → body s a = mergeCompletion s (body fresh a))
         args →
  ∀ r, plainKeys r →
    forLoop body args r = mergeCompletion r (forLoop body args fresh).
Proof.
  induction 1 as [|a args [Hkeep Ha] Hargs IH]; intros r Hr.
  - cbn. by rewrite mergeInto_empty_r.
  - rewrite !forLoop_cons.
    by apply (andThen_merge (λ s, body s a) (forLoop body args)).
Qed.

Lemma addReadOnlyField_merge f r :
  plainKeys r →
  addReadOnlyField snakeToCamel f r
  = mergeCompletion r (addReadOnlyField snakeToCamel f fresh).
Proof.
  intros [_ Hnested]. rewrite Forall_forall in Hnested. unfold addReadOnlyField.
  destruct (negb (Js.includes "." f)).
  - cbn. f_equal. destruct r. unfold mergeInto, set_readOnlyFields; cbn.
    by rewrite !app_nil_r, (left_id_L ∅ (∪)), children_union_empty_r.
  - destruct (snakeToCamel <$> Js.split "." f) as [|parent [|child ?]];
      try (cbn; by rewrite mergeInto_empty_r).
    destruct (decide (parent ∈ Js.objectPrototypeNames)) as [Hin|Hout].
    + rewrite !get_inherited by (done || by apply Hnested).
      cbn. by rewrite mergeInto_empty_r.
    + rewrite !get_not_inherited by done.
      change (nestedConstraints fresh) with (∅ : gmap string (list string)).
      rewrite lookup_empty. cbn [mergeCompletion].
      assert (∀ m' : gmap string (list string),
                mergeInto r (set_nestedConstraints m' fresh)
                = set_nestedConstraints
                    (union_with (λ old new, Some (old ++ new))
                       (nestedConstraints r) m') r) as Hmerge.
      { intros m'. destruct r. unfold mergeInto, set_nestedConstraints; cbn.
        by rewrite !app_nil_r, (left_id_L ∅ (∪)). }
      rewrite Hmerge, (children_union_singleton _ parent child).
      by destruct (nestedConstraints r !! parent).
Qed.

Lemma set_literalFields_merge k (v : LiteralValue) r :
  plainKeys r →
  set_literalFields (Js.assign k v (literalFields r)) r
  = mergeInto r (set_literalFields (Js.assign k v ∅) fresh).
Proof.
  intros [Hlit _]. destruct (decide (k = "__proto__")) as [->|Hne].
  - rewrite !assign_proto by (done || apply lookup_empty).
    change (set_literalFields ∅ fresh) with fresh.
    rewrite (mergeInto_empty_r r). by destruct r.
  - rewrite !assign_insert by done.
    destruct r. unfold mergeInto, set_literalFields; cbn.
    rewrite !app_nil_r, children_union_empty_r, insert_empty.
    by rewrite <- insert_union_singleton_l.
Qed.

Lemma handleNegation_merge arg r :
  plainKeys r →
  handleNegation snakeToCamel arg r
  = mergeCompletion r (handleNegation snakeToCamel arg fresh).
Proof.
  intros Hr. unfold handleNegation.
  repeat case_match;
    first [ by apply addReadOnlyField_merge
          | cbn; by rewrite mergeInto_empty_r ].
Qed.

Lemma processEqualityPair_merge a b r :
  plainKeys r →
  processEqualityPair snakeToCamel a b r
  = mergeCompletion r (processEqualityPair snakeToCamel a b fresh).
Proof.
  intros Hr. unfold processEqualityPair.
  repeat case_match;
    first [ by apply addReadOnlyField_merge
          | cbn; f_equal; by apply set_literalFields_merge
          | cbn; by rewrite mergeInto_empty_r ].
Qed.

Lemma handleEquality_merge args r :
  plainKeys r →
  handleEquality snakeToCamel args r
  = mergeCompletion r (handleEquality snakeToCamel args fresh).
Proof.
  intros Hr.
  destruct args as [|a [|b [|]]]; cbn [handleEquality];
    try (cbn; by rewrite mergeInto_empty_r).
  apply (andThen_merge (processEqualityPair snakeToCamel a b)
           (processEqualityPair snakeToCamel b a)); try done.
  - intros s. apply plainKeys_processEqualityPair.
  - intros s. apply processEqualityPair_merge.
  - intros s. apply processEqualityPair_merge.
Qed.

Lemma visit_or_merge args r :
  visit (orE args) r = mergeCompletion r (visit (orE args) fresh).
Proof.
  rewrite !visit_or. destruct (operandScopes visit args) as [ds|]; cbn.
  - f_equal. destruct r. unfold mergeInto, set_unionGroups; cbn.
    by rewrite !app_nil_r, (left_id_L ∅ (∪)), children_union_empty_r.
  - by rewrite mergeInto_empty_r.
Qed.

(** Visiting into a result that holds facts is visiting into a fresh one
    and merging, whether the visit returns or throws. *)
Lemma visitExpr_merge e :
  ∀ r, plainKeys r → visit e r = mergeCompletion r (visit e fresh).
Proof.
  induction e as [e Hleaf|fn args IH] using Expr_call_ind; intros r Hr.
  - destruct e as [| | | |fn args| | |];
      try (cbn; by rewrite mergeInto_empty_r).
    by destruct (Hleaf fn args).
  - cbn [visitExpr]. repeat case_bool_decide.
    + by apply handleNegation_merge.
    + by apply handleEquality_merge.
    + unfold handleAnd. apply forLoop_merge; [|done].
      eapply Forall_impl; [exact IH|]. cbn. intros a Ha. split; [|done].
      intros s. apply visitExpr_plainKeys.
    + subst fn. apply visit_or_merge.
    + cbn. by rewrite mergeInto_empty_r.
Qed.

(** What a normal visit leaves, as a merge. *)
Lemma visitExpr_merge_normal e r d :
  plainKeys r → visit e fresh = Normal d → visit e r = Normal (mergeInto r d).
Proof. intros Hr Hd. by rewrite visitExpr_merge, Hd. Qed.

Lemma visitExpr_normal_fresh e r r' :
  plainKeys r → visit e r = Normal r' →
  ∃ d, visit e fresh = Normal d ∧ r' = mergeInto r d.
Proof.
  intros Hr Hv. rewrite visitExpr_merge in Hv by done.
  destruct (visit e fresh) as [d|d]; [|done].
  injection Hv as <-. by exists d.
Qed.

(** A conjunction that returns: the scopes of its operands, merged one
    after the other. *)
Lemma visit_and_normal args :
  ∀ r r', plainKeys r → visit (andE args) r = Normal r' →
    ∃ ds, Forall2 (λ a d, visit a fresh = Normal d) args ds
          ∧ r' = fold_left mergeInto ds r.
Proof.
  induction args as [|a args IH]; intros r r' Hr Hv.
  - injection Hv as <-. exists []. by split; [constructor|].
  - rewrite visit_and_cons in Hv.
    destruct (visit a r) as [ra|ra] eqn:Ha; [|done]. cbn [andThen] in Hv.
    assert (plainKeys ra) as Hra.
    { pose proof (visitExpr_plainKeys snakeToCamel a r Hr) as H.
      by rewrite Ha in H. }
    destruct (visitExpr_normal_fresh a r ra Hr Ha) as (d & Hd & ->).
    destruct (IH _ _ Hra Hv) as (ds & Hds & ->).
    exists (d :: ds). by split; [constructor|].
Qed.

Lemma visit_and_scopes args ds :
  Forall2 (λ a d, visit a fresh = Normal d) args ds →
  ∀ r, plainKeys r → visit (andE args) r = Normal (fold_left mergeInto ds r).
Proof.
  induction 1 as [|a d args ds Ha _ IH]; intros r Hr; [done|].
  rewrite visit_and_cons, (visitExpr_merge_normal a r d Hr Ha). cbn [andThen].
  apply IH.
  pose proof (visitExpr_plainKeys snakeToCamel a r Hr) as H.
  by rewrite (visitExpr_merge_normal a r d Hr Ha) in H.
Qed.

End VisitMergeFacts.

(** ** What the operators do on paths and constants *)

Section OperatorFacts.

Variable snakeToCamel : string → string.

Local Abbreviation visit := (visitExpr snakeToCamel).
Local Abbreviation fresh := createEmptyResult.

Implicit Types (r d : CELParseResult) (e a b : Expr) (args : list Expr).

Lemma extractFieldPath_hasMacro e :
  extractFieldPath (hasMacro e) = extractFieldPath e.
Proof. by destruct e as [| | |[operand|] field flag| | | |]. Qed.

Lemma handleNegation_hasMacro e r :
  handleNegation snakeToCamel (Some (hasMacro e)) r
  = handleNegation snakeToCamel (Some e) r.
Proof. by destruct e as [| | |[operand|] field flag| | | |]. Qed.

Lemma processEqualityPair_not_const a b r :
  extractConstant b = None → processEqualityPair snakeToCamel a b r = Normal r.
Proof. intros H. unfold processEqualityPair. by rewrite H. Qed.

Lemma processEqualityPair_not_path a b r :
  truthyPath (extractFieldPath a) = None →
  processEqualityPair snakeToCamel a b r = Normal r.
Proof. intros H. unfold processEqualityPair. rewrite H. by case_match. Qed.

(** A constant is not a field path, so the pair with a constant in the
    field position records nothing. *)
Lemma processEqualityPair_const_as_field a b v r :
  extractConstant a = Some v → processEqualityPair snakeToCamel a b r = Normal r.
Proof.
  intros H. apply processEqualityPair_not_path.
  by rewrite (const_not_path a v).
Qed.

Lemma processEqualityPair_path_as_value a b p r :
  truthyPath (extractFieldPath b) = Some p →
  processEqualityPair snakeToCamel a b r = Normal r.
Proof.
  intros H. apply processEqualityPair_not_const.
  destruct (extractFieldPath b) as [q|] eqn:Hb; [|done].
  by apply path_not_const in Hb.
Qed.

Lemma processEqualityPair_top a b f v r :
  truthyPath (extractFieldPath a) = Some f → Js.includes "." f = false →
  extractConstant b = Some v →
  processEqualityPair snakeToCamel a b r
  = Normal (set_literalFields
              (Js.assign (snakeToCamel f) v (literalFields r)) r).
Proof. intros Ha Hdot Hb. unfold processEqualityPair. by rewrite Hb, Ha, Hdot. Qed.

Lemma processEqualityPair_nested a b f v r :
  truthyPath (extractFieldPath a) = Some f → Js.includes "." f = true →
  extractConstant b = Some v →
  processEqualityPair snakeToCamel a b r = addReadOnlyField snakeToCamel f r.
Proof. intros Ha Hdot Hb. unfold processEqualityPair. by rewrite Hb, Ha, Hdot. Qed.

(** The equality of a path with a constant, in either order, is the one
    pair of that path and that constant. *)
Lemma visit_eq_path_const a b f v r :
  truthyPath (extractFieldPath a) = Some f → extractConstant b = Some v →
  visit (eqE a b) r = processEqualityPair snakeToCamel a b r
  ∧ visit (eqE b a) r = processEqualityPair snakeToCamel a b r.
Proof.
  intros Ha Hb. rewrite !visit_eq.
  rewrite (processEqualityPair_const_as_field b a v r Hb). cbn [andThen].
  split; [|done].
  rewrite <- (andThen_Normal (processEqualityPair snakeToCamel a b r)) at 2.
  destruct (processEqualityPair snakeToCamel a b r) as [r'|r']; [|done].
  cbn [andThen]. by apply processEqualityPair_const_as_field with v.
Qed.

Lemma visit_eq_top f k v r :
  f ≠ "" → Js.includes "." f = false → extractConstant k = Some v →
  visit (eqE (thisField [f]) k) r
  = Normal (set_literalFields
              (Js.assign (snakeToCamel f) v (literalFields r)) r).
Proof.
  intros Hf Hdot Hk.
  pose proof (truthyPath_thisField f [] Hf) as Hpath.
  destruct (visit_eq_path_const _ k _ v r Hpath Hk) as [-> _].
  by apply processEqualityPair_top.
Qed.

Lemma visit_eq_nested p c rest k v r :
  p ≠ "" → Js.includes "." p = false → Js.includes "." c = false →
  extractConstant k = Some v →
  visit (eqE (thisField (p :: c :: rest)) k) r
  = match Js.get (nestedConstraints r) (snakeToCamel p) with
    | Js.Inherited => Abrupt r
    | _ =>
        Normal (set_nestedConstraints
                  (<[snakeToCamel p :=
                       default [] (nestedConstraints r !! snakeToCamel p)
                       ++ [snakeToCamel c]]> (nestedConstraints r)) r)
    end.
Proof.
  intros Hp Hpdot Hcdot Hk.
  pose proof (truthyPath_thisField p (c :: rest) Hp) as Hpath.
  destruct (visit_eq_path_const _ k _ v r Hpath Hk) as [-> _].
  rewrite (processEqualityPair_nested _ _ _ v r Hpath) by
    (done || apply includes_joinPath_cons).
  by apply addReadOnlyField_nested.
Qed.

Lemma handleNegation_path e p r :
  truthyPath (extractFieldPath e) = Some p →
  handleNegation snakeToCamel (Some e) r = addReadOnlyField snakeToCamel p r.
Proof.
  intros H. destruct e; try done.
  unfold handleNegation. by rewrite H.
Qed.

Lemma handleNegation_has e p r :
  truthyPath (extractFieldPath e) = Some p →
  handleNegation snakeToCamel (Some (hasE e)) r
  = addReadOnlyField snakeToCamel p r.
Proof. intros H. cbn. by rewrite H. Qed.

Lemma visit_not_top f r :
  f ≠ "" → Js.includes "." f = false →
  visit (notE (thisField [f])) r
  = Normal (set_readOnlyFields (readOnlyFields r ++ [snakeToCamel f]) r).
Proof.
  intros Hf Hdot. unfold notE. rewrite visit_not.
  rewrite (handleNegation_path _ f) by by rewrite truthyPath_thisField.
  by apply addReadOnlyField_top.
Qed.

Lemma visit_not_hasMacro e r :
  visit (notE (hasMacro e)) r = visit (notE e) r.
Proof. unfold notE. rewrite !visit_not. apply handleNegation_hasMacro. Qed.

Lemma visit_not_has_top f r :
  f ≠ "" → Js.includes "." f = false →
  visit (notE (hasE (thisField [f]))) r
  = Normal (set_readOnlyFields (readOnlyFields r ++ [snakeToCamel f]) r).
Proof.
  intros Hf Hdot. unfold notE. rewrite visit_not.
  rewrite (handleNegation_has _ f) by by rewrite truthyPath_thisField.
  by apply addReadOnlyField_top.
Qed.

End OperatorFacts.

(** ** Facts about the entry point *)

Section EntryFacts.

Variable snakeToCamel : string → string.
Variable parse : string → ParseOutcome.
Variable typeErrorMessage : string.

Local Abbreviation visit := (visitExpr snakeToCamel).
Local Abbreviation fresh := createEmptyResult.
Local Abbreviation analyze :=
  (parseCELExpression snakeToCamel parse typeErrorMessage).

Implicit Types (r d : CELParseResult) (e : Expr) (text : string).

Lemma parseCELExpression_normal text e d :
  Js.trim text ≠ "" → parse text = Parsed (Some e) →
  visit e fresh = Normal d →
  analyze text = deduplicateResult d.
Proof.
  intros Htrim Hparse Hvisit. unfold parseCELExpression.
  by rewrite bool_decide_eq_false_2, Hparse, Hvisit.
Qed.

Lemma parseCELExpression_abrupt text e d :
  Js.trim text ≠ "" → parse text = Parsed (Some e) →
  visit e fresh = Abrupt d →
  analyze text
  = set_errors ["Failed to parse CEL expression " +:+ Js.dquote +:+ text
                +:+ Js.dquote +:+ ": " +:+ typeErrorMessage] d.
Proof.
  intros Htrim Hparse Hvisit. unfold parseCELExpression.
  rewrite bool_decide_eq_false_2, Hparse, Hvisit by done.
  pose proof (visitExpr_errors snakeToCamel e fresh) as Herr.
  rewrite Hvisit in Herr. cbn in Herr. by rewrite Herr.
Qed.

(** The four ways the entry point can end. *)
Lemma parseCELExpression_cases text :
  analyze text = fresh
  ∨ (∃ message, analyze text = set_errors [message] fresh)
  ∨ (∃ e d, visit e fresh = Normal d ∧ analyze text = deduplicateResult d)
  ∨ (∃ e d message,
       visit e fresh = Abrupt d ∧ analyze text = set_errors [message] d).
Proof.
  unfold parseCELExpression. case_bool_decide as Hblank; [by left|].
  destruct (parse text) as [message|[e|]] eqn:Hparse; right.
  - left. by eexists.
  - right. destruct (visit e fresh) as [d|d] eqn:Hvisit.
    + left. by exists e, d.
    + right. exists e, d. eexists. split; [done|].
      pose proof (visitExpr_errors snakeToCamel e fresh) as Herr.
      rewrite Hvisit in Herr. cbn in Herr. by rewrite Herr.
  - left. by eexists.
Qed.

End EntryFacts.

(** ** Facts about one conjunctive scope *)

Section ScopeFacts.

Variable snakeToCamel : string → string.

Local Abbreviation visit := (visitExpr snakeToCamel).
Local Abbreviation fresh := createEmptyResult.

Implicit Types (r d : CELParseResult) (e a b : Expr) (x f : string).

Lemma conjuncts_not_and e :
  ∀ a, a ∈ conjuncts e → ∀ args, a ≠ andE args.
Proof.
  induction e as [e Hleaf|fn args IH] using Expr_call_ind; intros a Ha.
  - assert (conjuncts e = [e]) as Heq.
    { destruct e as [| | | |fn args| | |]; try done. by destruct (Hleaf fn args). }
    rewrite Heq in Ha. apply list_elem_of_singleton in Ha as ->.
    intros args. apply Hleaf.
  - cbn [conjuncts] in Ha. case_bool_decide as Hfn.
    + apply list_elem_of_In, in_flat_map in Ha as (b & Hb & Hab).
      rewrite Forall_forall in IH. apply (IH b).
      * by apply list_elem_of_In.
      * by apply list_elem_of_In.
    + apply list_elem_of_singleton in Ha as ->.
      intros args' [=]. congruence.
Qed.

(** Visiting an expression is visiting its conjuncts one after the other. *)
Lemma visitExpr_conjuncts e : ∀ r, visit e r = visit (andE (conjuncts e)) r.
Proof.
  induction e as [e Hleaf|fn args IH] using Expr_call_ind; intros r.
  - assert (conjuncts e = [e]) as ->.
    { destruct e as [| | | |fn args| | |]; try done. by destruct (Hleaf fn args). }
    rewrite visit_and_cons. change (visit (andE [])) with (@Normal CELParseResult).
    by rewrite andThen_Normal.
  - cbn [conjuncts]. case_bool_decide as Hfn.
    + subst fn. change (CallExpr "_&&_" args) with (andE args). revert r.
      induction IH as [|a args Ha _ IHargs]; intros r; [done|].
      cbn [flat_map]. rewrite visit_and_cons, visit_and_app, Ha.
      destruct (visit (andE (conjuncts a)) r); [apply IHargs|done].
    + rewrite visit_and_cons.
      change (visit (andE [])) with (@Normal CELParseResult).
      by rewrite andThen_Normal.
Qed.

Lemma fold_mergeInto_readOnlyFields (ds : list CELParseResult) x :
  ∀ r, x ∈ readOnlyFields (fold_left mergeInto ds r)
       ↔ x ∈ readOnlyFields r ∨ ∃ d, d ∈ ds ∧ x ∈ readOnlyFields d.
Proof.
  induction ds as [|d ds IH]; intros r; cbn [fold_left].
  - split; [by left|]. intros [H|(d & Hd & _)]; [done|by inversion Hd].
  - rewrite IH. cbn [mergeInto readOnlyFields]. rewrite elem_of_app. split.
    + intros [[H|H]|(d' & Hd' & H)]; [by left| |].
      * right. exists d. split; [apply list_elem_of_here|done].
      * right. exists d'. split; [by apply list_elem_of_further|done].
    + intros [H|(d' & Hd' & H)]; [by left; left|].
      apply elem_of_cons in Hd' as [->|Hd']; [by left; right|].
      right. by exists d'.
Qed.

Lemma fold_mergeInto_literalFields (ds : list CELParseResult) x :
  ∀ r, is_Some (literalFields (fold_left mergeInto ds r) !! x)
       ↔ is_Some (literalFields r !! x)
         ∨ ∃ d, d ∈ ds ∧ is_Some (literalFields d !! x).
Proof.
  induction ds as [|d ds IH]; intros r; cbn [fold_left].
  - split; [by left|]. intros [H|(d & Hd & _)]; [done|by inversion Hd].
  - rewrite IH. cbn [mergeInto literalFields].
    rewrite lookup_union_is_Some. split.
    + intros [[H|H]|(d' & Hd' & H)]; [|by left|].
      * right. exists d. split; [apply list_elem_of_here|done].
      * right. exists d'. split; [by apply list_elem_of_further|done].
    + intros [H|(d' & Hd' & H)]; [by left; right|].
      apply elem_of_cons in Hd' as [->|Hd']; [by left; left|].
      right. by exists d'.
Qed.

(** A truthy path without a dot is that of a select on [this]. *)
Lemma path_top_level e f :
  truthyPath (extractFieldPath e) = Some f → Js.includes "." f = false →
  topLevelField f e.
Proof.
  intros Hpath Hdot.
  destruct e as [| | |[operand|] field flag| | | |]; try done.
  cbn [extractFieldPath] in Hpath.
  destruct (extractFieldPath operand) as [p|] eqn:Hoperand.
  - case_bool_decide; [done|]. unfold truthyPath in Hpath.
    case_bool_decide; [done|]. injection Hpath as <-.
    by rewrite includes_dot_app in Hdot.
  - destruct operand as [| |name| | | | |]; try done.
    cbn [isThisIdentifier] in Hpath. case_bool_decide as Hname; [|done].
    subst name. unfold truthyPath in Hpath. case_bool_decide as Hf; [done|].
    injection Hpath as ->. split; [done|]. split; [done|]. by exists flag.
Qed.

Lemma truthyPath_topLevelField e f :
  topLevelField f e → truthyPath (extractFieldPath e) = Some f.
Proof.
  intros (Hf & _ & flag & ->). unfold this.
  cbn [extractFieldPath isThisIdentifier truthyPath].
  rewrite (bool_decide_eq_true_2 ("this" = "this")) by done.
  unfold truthyPath. by rewrite bool_decide_eq_false_2.
Qed.

Lemma topLevelField_not_const e f : topLevelField f e → extractConstant e = None.
Proof. by intros (_ & _ & flag & ->). Qed.

Lemma readOnlyFields_addReadOnlyField_nested f r :
  Js.includes "." f = true →
  readOnlyFields (stateOf (addReadOnlyField snakeToCamel f r)) = readOnlyFields r.
Proof.
  intros Hdot. unfold addReadOnlyField. rewrite Hdot. cbn [negb].
  by repeat case_match.
Qed.

Lemma readOnlyFields_processEqualityPair a b r :
  readOnlyFields (stateOf (processEqualityPair snakeToCamel a b r))
  = readOnlyFields r.
Proof.
  destruct (processEqualityPair_cases snakeToCamel a b r)
    as [->|[(f & v & ->)|(f & Hdot & ->)]]; try done.
  by apply readOnlyFields_addReadOnlyField_nested.
Qed.

Lemma readOnlyFields_handleEquality (args : list Expr) r :
  readOnlyFields (stateOf (handleEquality snakeToCamel args r)) = readOnlyFields r.
Proof.
  destruct args as [|a [|b [|]]]; cbn [handleEquality]; try done.
  rewrite stateOf_andThen.
  pose proof (readOnlyFields_processEqualityPair a b r) as Hab.
  destruct (processEqualityPair snakeToCamel a b r) as [r'|r']; [|done].
  cbn in Hab. by rewrite readOnlyFields_processEqualityPair.
Qed.

Lemma literalFields_handleNegation arg r :
  literalFields (stateOf (handleNegation snakeToCamel arg r)) = literalFields r.
Proof.
  destruct (handleNegation_cases snakeToCamel arg r) as [->|[f ->]]; [done|].
  apply literalFields_addReadOnlyField.
Qed.

(** A node other than a conjunction fills at most one of the two. *)
Lemma single_assertion_exclusive a :
  (∀ args, a ≠ andE args) →
  readOnlyFields (stateOf (visit a fresh)) = []
  ∨ literalFields (stateOf (visit a fresh)) = ∅.
Proof.
  intros Hna. destruct a as [| | | |fn args| | |]; try by left.
  cbn [visitExpr]. repeat case_bool_decide.
  - right. apply literalFields_handleNegation.
  - left. apply readOnlyFields_handleEquality.
  - subst fn. by destruct (Hna args).
  - left. subst fn. change (handleOr visit args fresh) with (visit (orE args) fresh).
    rewrite visit_or. by destruct (operandScopes visit args).
  - by left.
Qed.

Lemma handleNegation_Some_cases target r :
  handleNegation snakeToCamel (Some target) r = Normal r
  ∨ ∃ inner p,
      truthyPath (extractFieldPath inner) = Some p
      ∧ (target = inner ∨ target = hasE inner)
      ∧ handleNegation snakeToCamel (Some target) r
        = addReadOnlyField snakeToCamel p r.
Proof.
  destruct target as [| |name|operand field flag|fn [|inner [|]]| | |];
    try by left.
  - destruct (truthyPath (extractFieldPath (SelectExpr operand field flag)))
      as [p|] eqn:Hp.
    + right. eexists _, p. split; [exact Hp|]. split; [by left|].
      by apply handleNegation_path.
    + left. unfold handleNegation. by rewrite Hp.
  - unfold handleNegation. case_bool_decide as Hfn; [|by left]. subst fn.
    destruct (truthyPath (extractFieldPath inner)) as [p|] eqn:Hp; [|by left].
    right. exists inner, p. split; [done|]. split; [by right|done].
Qed.

(** Which node, visited into a fresh scope, makes [x] read-only. *)
Lemma readOnly_from_negation a d x :
  (∀ args, a ≠ andE args) → visit a fresh = Normal d →
  x ∈ readOnlyFields d ↔ ∃ f, negatesField f a ∧ snakeToCamel f = x.
Proof.
  intros Hna Hvisit. split.
  - intros Hx. destruct a as [| | | |fn args| | |];
      try (injection Hvisit as <-; by apply not_elem_of_nil in Hx).
    cbn [visitExpr] in Hvisit. repeat case_bool_decide.
    + subst fn. destruct args as [|target rest];
        [injection Hvisit as <-; by apply not_elem_of_nil in Hx|].
      cbn [head] in Hvisit.
      assert (∀ inner p,
                truthyPath (extractFieldPath inner) = Some p →
                addReadOnlyField snakeToCamel p fresh = Normal d →
                topLevelField p inner ∧ snakeToCamel p = x) as Hadd.
      { intros inner p Hp Hd. destruct (Js.includes "." p) eqn:Hdot.
        - pose proof (readOnlyFields_addReadOnlyField_nested p fresh Hdot) as H.
          rewrite Hd in H. cbn in H. rewrite H in Hx.
          by apply not_elem_of_nil in Hx.
        - rewrite addReadOnlyField_top in Hd by done. injection Hd as <-.
          cbn in Hx. apply list_elem_of_singleton in Hx as ->.
          split; [by apply path_top_level|done]. }
      destruct (handleNegation_Some_cases target fresh)
        as [Hnone|(inner & p & Hp & Hshape & Hsome)]; rewrite ?Hnone in Hvisit;
        [injection Hvisit as <-; by apply not_elem_of_nil in Hx|].
      rewrite Hsome in Hvisit. destruct (Hadd _ p Hp Hvisit) as [Htop <-].
      exists p. split; [|done]. eexists _, rest. split; [done|].
      destruct Hshape as [->| ->]; [by left|right; by exists inner].
    + pose proof (readOnlyFields_handleEquality args fresh) as Hro.
      rewrite Hvisit in Hro. cbn in Hro. rewrite Hro in Hx.
      by apply not_elem_of_nil in Hx.
    + subst fn. by destruct (Hna args).
    + subst fn. change (handleOr visit args fresh) with (visit (orE args) fresh)
        in Hvisit.
      rewrite visit_or in Hvisit.
      destruct (operandScopes visit args); [|done]. injection Hvisit as <-.
      by apply not_elem_of_nil in Hx.
    + injection Hvisit as <-. by apply not_elem_of_nil in Hx.
  - intros (f & (target & rest & -> & Htarget) & <-).
    rewrite visit_not in Hvisit.
    assert (addReadOnlyField snakeToCamel f fresh = Normal d) as Hadd.
    { destruct Htarget as [Htop|(inner & -> & Htop)].
      - by rewrite <- (handleNegation_path _ target f)
          by by apply truthyPath_topLevelField.
      - by rewrite <- (handleNegation_has _ inner f)
          by by apply truthyPath_topLevelField. }
    assert (Js.includes "." f = false) as Hdot.
    { by destruct Htarget as [(_ & ? & _)|(inner & _ & _ & ? & _)]. }
    rewrite addReadOnlyField_top in Hadd by done. injection Hadd as <-.
    cbn. apply list_elem_of_here.
Qed.

Lemma lookup_assign_new {A} k (v : A) (m : gmap string A) x :
  is_Some (Js.assign k v m !! x) ↔
  is_Some (m !! x) ∨ (x = k ∧ k ≠ "__proto__").
Proof.
  unfold Js.assign. destruct (decide (x = k)) as [->|Hne].
  - destruct (m !! k) as [old|] eqn:Hm.
    + rewrite lookup_insert_eq. split; [by left; eexists|by eexists].
    + case_bool_decide as Hk.
      * rewrite Hm. split; [by intros ?%is_Some_None|].
        intros [?%is_Some_None|[_ ?]]; done.
      * rewrite lookup_insert_eq. split; [by right|by eexists].
  - assert (is_Some (m !! x) ∨ x = k ∧ k ≠ "__proto__" ↔ is_Some (m !! x))
      as -> by tauto.
    destruct (m !! k); [by rewrite lookup_insert_ne|].
    case_bool_decide; [done|by rewrite lookup_insert_ne].
Qed.

(** Which node, visited into a fresh scope, pins [x] to a literal. *)
Lemma literal_from_equality a d x :
  (∀ args, a ≠ andE args) → visit a fresh = Normal d →
  is_Some (literalFields d !! x)
  ↔ ∃ f, pinsField f a ∧ snakeToCamel f = x ∧ x ≠ "__proto__".
Proof.
  intros Hna Hvisit.
  assert (∀ lhs rhs f v,
            truthyPath (extractFieldPath lhs) = Some f →
            extractConstant rhs = Some v →
            processEqualityPair snakeToCamel lhs rhs fresh = Normal d →
            is_Some (literalFields d !! x)
            ↔ topLevelField f lhs ∧ snakeToCamel f = x ∧ x ≠ "__proto__")
    as Hpair.
  { intros lhs rhs f v Hf Hv Hd. destruct (Js.includes "." f) eqn:Hdot.
    - rewrite (processEqualityPair_nested _ _ _ f v) in Hd by done.
      pose proof (literalFields_addReadOnlyField snakeToCamel f fresh) as H.
      rewrite Hd in H. cbn in H. rewrite H, lookup_empty.
      split; [by intros ?%is_Some_None|].
      intros [(_ & Hno & _) _]. congruence.
    - rewrite (processEqualityPair_top _ _ _ f v) in Hd by done.
      injection Hd as <-. cbn. rewrite lookup_assign_new, lookup_empty.
      split.
      + intros [?%is_Some_None|[-> ?]]; [done|].
        split; [by apply path_top_level|done].
      + intros (_ & <- & ?). by right. }
  split.
  - intros Hx. destruct a as [| | | |fn args| | |];
      try (injection Hvisit as <-; cbn in Hx; rewrite lookup_empty in Hx;
           by apply is_Some_None in Hx).
    cbn [visitExpr] in Hvisit.
    case_bool_decide as Hnot.
    { pose proof (literalFields_handleNegation (head args) fresh) as H.
      rewrite Hvisit in H. cbn in H. rewrite H, lookup_empty in Hx.
      by apply is_Some_None in Hx. }
    case_bool_decide as Heq.
    { subst fn. destruct args as [|lhs [|rhs [|]]];
        try (injection Hvisit as <-; cbn in Hx; rewrite lookup_empty in Hx;
             by apply is_Some_None in Hx).
      change (handleEquality snakeToCamel [lhs; rhs] fresh)
        with (visit (eqE lhs rhs) fresh) in Hvisit.
      destruct (truthyPath (extractFieldPath lhs)) as [f|] eqn:Hlhs.
      - destruct (extractConstant rhs) as [v|] eqn:Hrhs.
        + destruct (visit_eq_path_const snakeToCamel lhs rhs f v fresh Hlhs Hrhs)
            as [Hsame _].
          rewrite Hsame in Hvisit.
          apply (Hpair lhs rhs f v Hlhs Hrhs Hvisit) in Hx as (Htop & <- & Hne).
          exists f. split; [|done]. exists lhs, rhs. split; [done|].
          left. split; [done|by eexists].
        + rewrite visit_eq, (processEqualityPair_not_const _ lhs rhs) in Hvisit
            by done.
          cbn [andThen] in Hvisit.
          rewrite (processEqualityPair_path_as_value _ rhs lhs f) in Hvisit
            by done.
          injection Hvisit as <-. cbn in Hx. rewrite lookup_empty in Hx.
          by apply is_Some_None in Hx.
      - rewrite visit_eq, (processEqualityPair_not_path _ lhs rhs) in Hvisit
          by done.
        cbn [andThen] in Hvisit.
        destruct (truthyPath (extractFieldPath rhs)) as [f|] eqn:Hrhs.
        + destruct (extractConstant lhs) as [v|] eqn:Hconst.
          * apply (Hpair rhs lhs f v Hrhs Hconst Hvisit) in Hx
              as (Htop & <- & Hne).
            exists f. split; [|done]. exists lhs, rhs. split; [done|].
            right. split; [done|by eexists].
          * rewrite (processEqualityPair_not_const _ rhs lhs) in Hvisit by done.
            injection Hvisit as <-. cbn in Hx. rewrite lookup_empty in Hx.
            by apply is_Some_None in Hx.
        + rewrite (processEqualityPair_not_path _ rhs lhs) in Hvisit by done.
          injection Hvisit as <-. cbn in Hx. rewrite lookup_empty in Hx.
          by apply is_Some_None in Hx. }
    case_bool_decide as Hand; [subst fn; by destruct (Hna args)|].
    assert (literalFields d = ∅) as Hempty.
    { case_bool_decide as Hor; [|by injection Hvisit as <-].
      subst fn.
      change (handleOr visit args fresh) with (visit (orE args) fresh) in Hvisit.
      rewrite visit_or in Hvisit.
      destruct (operandScopes visit args); [|done]. by injection Hvisit as <-. }
    rewrite Hempty, lookup_empty in Hx. by apply is_Some_None in Hx.
  - intros (f & (lhs & rhs & -> & Hsides) & Hf & Hne).
    destruct Hsides as [[Htop [v Hv]]|[Htop [v Hv]]].
    + pose proof (truthyPath_topLevelField _ _ Htop) as Hpath.
      destruct (visit_eq_path_const snakeToCamel lhs rhs f v fresh Hpath Hv)
        as [Hsame _].
      rewrite Hsame in Hvisit. by apply (Hpair lhs rhs f v Hpath Hv Hvisit).
    + pose proof (truthyPath_topLevelField _ _ Htop) as Hpath.
      destruct (visit_eq_path_const snakeToCamel rhs lhs f v fresh Hpath Hv)
        as [_ Hsame].
      rewrite Hsame in Hvisit. by apply (Hpair rhs lhs f v Hpath Hv Hvisit).
Qed.

End ScopeFacts.

(** ** When the visitor throws *)

Section ThrowFacts.

Variable snakeToCamel : string → string.

Local Abbreviation visit := (visitExpr snakeToCamel).
Local Abbreviation fresh := createEmptyResult.
Local Abbreviation inherited := (inheritedParent snakeToCamel).

Implicit Types (r d : CELParseResult) (e a b : Expr) (args : list Expr).

Lemma isAbrupt_andThen {S} (c : Completion S) (f : S → Completion S) :
  isAbrupt (andThen c f)
  = match c with Normal s => isAbrupt (f s) | Abrupt _ => true end.
Proof. by destruct c. Qed.

Lemma isAbrupt_true {S} (c : Completion S) :
  isAbrupt c = true ↔ ∃ s, c = Abrupt s.
Proof. destruct c as [s|s]; split; try done; [by intros [? ?]|by exists s]. Qed.

Lemma isAbrupt_false {S} (c : Completion S) :
  isAbrupt c = false ↔ ∃ s, c = Normal s.
Proof. destruct c as [s|s]; split; try done; [by exists s|by intros [? ?]]. Qed.

Lemma existsb_flat_map {A B} (f : B → bool) (g : A → list B) (l : list A) :
  existsb f (flat_map g l) = existsb (λ x, existsb f (g x)) l.
Proof.
  induction l as [|x l IH]; [done|]. cbn [flat_map existsb].
  by rewrite existsb_app, IH.
Qed.

Lemma addReadOnlyField_throws f r :
  plainKeys r →
  isAbrupt (addReadOnlyField snakeToCamel f r) = inherited f.
Proof.
  intros [_ Hnested]. rewrite Forall_forall in Hnested.
  unfold addReadOnlyField, inheritedParent.
  destruct (Js.includes "." f); [|done]. cbn [negb andb].
  destruct (snakeToCamel <$> Js.split "." f) as [|parent [|child others]];
    try done.
  case_bool_decide as Hparent.
  - by rewrite get_inherited by (done || by apply Hnested).
  - rewrite get_not_inherited by done.
    by destruct (nestedConstraints r !! parent).
Qed.

Lemma handleNegation_throws target r :
  plainKeys r →
  isAbrupt (handleNegation snakeToCamel (Some target) r)
  = existsb inherited (option_list (negatedPath target)).
Proof.
  intros Hr. unfold handleNegation, negatedPath.
  destruct target as [| |name|operand field flag|fn [|inner [|]]| | |];
    try done.
  - destruct (truthyPath _) as [p|]; [|done]. cbn.
    by rewrite addReadOnlyField_throws, orb_false_r.
  - case_bool_decide; [|done].
    destruct (truthyPath _) as [p|]; [|done]. cbn.
    by rewrite addReadOnlyField_throws, orb_false_r.
Qed.

Lemma processEqualityPair_throws a b r :
  plainKeys r →
  isAbrupt (processEqualityPair snakeToCamel a b r)
  = existsb inherited (option_list (equatedPath a b)).
Proof.
  intros Hr. unfold processEqualityPair, equatedPath.
  destruct (extractConstant b) as [v|]; [|done].
  destruct (truthyPath (extractFieldPath a)) as [p|]; [|done]. cbn.
  rewrite orb_false_r. destruct (Js.includes "." p) eqn:Hdot; cbn [negb].
  - by apply addReadOnlyField_throws.
  - unfold inheritedParent. by rewrite Hdot.
Qed.

Lemma forLoop_throws (body : CELParseResult → Expr → Completion CELParseResult)
    (t : Expr → bool) args :
  Forall (λ a, ∀ s, plainKeys s →
                    plainKeys (stateOf (body s a)) ∧ isAbrupt (body s a) = t a)
         args →
  ∀ r, plainKeys r → isAbrupt (forLoop body args r) = existsb t args.
Proof.
  induction 1 as [|a args Ha _ IH]; intros r Hr; [done|].
  rewrite forLoop_cons, isAbrupt_andThen. cbn [existsb].
  destruct (Ha r Hr) as [Hplain <-].
  destruct (body r a) as [s|s]; [by apply IH|done].
Qed.

Lemma operandScopes_throws args :
  negb (bool_decide (is_Some (operandScopes visit args)))
  = existsb (λ a, isAbrupt (visit a fresh)) args.
Proof.
  induction args as [|a args IH]; cbn [operandScopes existsb].
  - by rewrite bool_decide_eq_true_2.
  - destruct (visit a fresh) as [d|d]; cbn [isAbrupt orb].
    + rewrite <- IH. f_equal. apply bool_decide_ext.
      by rewrite fmap_is_Some.
    + rewrite bool_decide_eq_false_2; [done|]. by intros ?%is_Some_None.
Qed.

(** From a result whose own keys are clear of [Object.prototype], the
    visitor throws exactly when it reaches a path with a parent that names
    a property of [Object.prototype]. *)
Lemma visitExpr_throws e :
  ∀ r, plainKeys r → isAbrupt (visit e r) = existsb inherited (assertedPaths e).
Proof.
  induction e as [e Hleaf|fn args IH] using Expr_call_ind; intros r Hr.
  - destruct e as [| | | |fn args| | |]; try done. by destruct (Hleaf fn args).
  - cbn [visitExpr assertedPaths]. case_bool_decide as Hnot.
    { destruct args as [|target rest]; [done|]. by apply handleNegation_throws. }
    case_bool_decide as Heq.
    { destruct args as [|lhs [|rhs [|]]]; try done. cbn [handleEquality].
      rewrite isAbrupt_andThen, existsb_app.
      pose proof (processEqualityPair_throws lhs rhs r Hr) as Hfirst.
      pose proof (plainKeys_processEqualityPair snakeToCamel lhs rhs r Hr)
        as Hplain.
      destruct (processEqualityPair snakeToCamel lhs rhs r) as [s|s];
        cbn [isAbrupt stateOf] in *.
      - by rewrite <- Hfirst, processEqualityPair_throws.
      - by rewrite <- Hfirst. }
    case_bool_decide as Hand.
    { cbn [orb]. rewrite existsb_flat_map. unfold handleAnd.
      apply forLoop_throws; [|done].
      eapply Forall_impl; [exact IH|]. cbn. intros a Ha s Hs.
      split; [by apply visitExpr_plainKeys|by apply Ha]. }
    case_bool_decide as Hor; [|done].
    cbn [orb]. subst fn.
    change (handleOr visit args r) with (visit (orE args) r).
    rewrite visit_or, existsb_flat_map.
    assert (existsb (λ a, existsb inherited (assertedPaths a)) args
            = existsb (λ a, isAbrupt (visit a fresh)) args) as ->.
    { clear Hnot Heq Hand. induction IH as [|a args Ha _ IHargs]; [done|].
      cbn [existsb]. by rewrite IHargs, (Ha fresh) by apply plainKeys_fresh. }
    rewrite <- operandScopes_throws.
    destruct (operandScopes visit args) as [ds|]; cbn [isAbrupt].
    + by rewrite bool_decide_eq_true_2.
    + rewrite bool_decide_eq_false_2; [done|]. by intros ?%is_Some_None.
Qed.

End ThrowFacts.

(** ** Facts about disjunctions *)

Section DisjunctionFacts.

Variable snakeToCamel : string → string.

Local Abbreviation visit := (visitExpr snakeToCamel).
Local Abbreviation fresh := createEmptyResult.

Implicit Types (r d : CELParseResult) (e a b : Expr) (args : list Expr).

Lemma visit_or_scopes args ds r :
  Forall2 (λ a d, visit a fresh = Normal d) args ds →
  visit (orE args) r
  = Normal (set_unionGroups (unionGroups r ++ keptBranches ds) r).
Proof.
  intros Hds. apply operandScopes_Some in Hds. by rewrite visit_or, Hds.
Qed.

Lemma visit_or_normal args r r' :
  visit (orE args) r = Normal r' →
  ∃ ds, Forall2 (λ a d, visit a fresh = Normal d) args ds
        ∧ r' = set_unionGroups (unionGroups r ++ keptBranches ds) r.
Proof.
  rewrite visit_or. destruct (operandScopes visit args) as [ds|] eqn:Hds; [|done].
  intros [= <-]. exists ds. split; [by apply operandScopes_Some|done].
Qed.

Lemma visit_or_abrupt args r r' :
  visit (orE args) r = Abrupt r' →
  r' = r ∧ ∃ a d, a ∈ args ∧ visit a fresh = Abrupt d.
Proof.
  rewrite visit_or. destruct (operandScopes visit args) as [ds|] eqn:Hds; [done|].
  intros [= <-]. split; [done|]. by apply operandScopes_None.
Qed.

Lemma visit_or_throws args a d r :
  a ∈ args → visit a fresh = Abrupt d → visit (orE args) r = Abrupt r.
Proof.
  intros Ha Hd. rewrite visit_or.
  assert (operandScopes visit args = None) as ->; [|done].
  apply operandScopes_None. by exists a, d.
Qed.

(** What a disjunction leaves in the fresh scope of an enclosing one. *)
Lemma inner_disjunction_scope args d :
  visit (orE args) fresh = Normal d → scopeEmpty d ∧ keptBranches [d] = [].
Proof.
  intros (ds & _ & ->)%visit_or_normal.
  assert (scopeEmpty (set_unionGroups (unionGroups fresh ++ keptBranches ds) fresh))
    as Hempty by done.
  split; [done|]. unfold keptBranches. rewrite filter_cons, decide_False; [done|].
  by intros H.
Qed.

End DisjunctionFacts.

(** * The claims of the specification *)

Section Claims.

Variable snakeToCamel : string → string.
Variable parse : string → ParseOutcome.
Variable typeErrorMessage : string.

Local Abbreviation visit := (visitExpr snakeToCamel).
Local Abbreviation fresh := createEmptyResult.
Local Abbreviation analyze :=
  (parseCELExpression snakeToCamel parse typeErrorMessage).

Implicit Types (r d : CELParseResult) (e a b : Expr) (x text : string).

(** C1, as amended. Within one result scope a node other than a
    conjunction fills at most one of [readOnlyFields] and [literalFields].
    When the visit of the scope returns, a name occurs in both exactly when
    two different conjuncts of the scope supply it: one is a presence
    negation of a top-level field and the other an equality of a top-level
    field with a constant, and both fields have that name after
    camel-casing, a name other than [__proto__] (the assignment of a
    literal to it creates no key). The analyzer does not keep the two
    disjoint under conjunction. *)
Theorem C1_shared_name_needs_two_conjuncts e d x :
  visit e fresh = Normal d →
  (∀ a, a ∈ conjuncts e →
     readOnlyFields (stateOf (visit a fresh)) = []
     ∨ literalFields (stateOf (visit a fresh)) = ∅)
  ∧ (x ∈ readOnlyFields d ∧ is_Some (literalFields d !! x)
     ↔ ∃ a b f g, a ∈ conjuncts e ∧ b ∈ conjuncts e ∧ a ≠ b
         ∧ negatesField f a ∧ pinsField g b
         ∧ snakeToCamel f = x ∧ snakeToCamel g = x ∧ x ≠ "__proto__").
Proof.
  intros Hvisit. split.
  { intros a Ha. apply single_assertion_exclusive.
    by apply (conjuncts_not_and e). }
  rewrite visitExpr_conjuncts in Hvisit.
  destruct (visit_and_normal snakeToCamel (conjuncts e) fresh d
              (plainKeys_fresh) Hvisit) as (ds & Hds & ->).
  rewrite fold_mergeInto_readOnlyFields, fold_mergeInto_literalFields.
  assert (∀ a, a ∈ conjuncts e →
            ∃ da, da ∈ ds ∧ visit a fresh = Normal da) as Hscope.
  { intros a [i Hi]%list_elem_of_lookup.
    destruct (Forall2_lookup_l _ _ _ _ _ Hds Hi) as (da & Hda & Hva).
    exists da. split; [by eapply list_elem_of_lookup_2|done]. }
  assert (∀ da, da ∈ ds →
            ∃ a, a ∈ conjuncts e ∧ visit a fresh = Normal da) as Hnode.
  { intros da [i Hi]%list_elem_of_lookup.
    destruct (Forall2_lookup_r _ _ _ _ _ Hds Hi) as (a & Ha & Hva).
    exists a. split; [by eapply list_elem_of_lookup_2|done]. }
  split.
  - intros [[Hro|(da & Hda & Hro)] [Hlit|(db & Hdb & Hlit)]];
      try by apply not_elem_of_nil in Hro.
    { cbn in Hlit. rewrite lookup_empty in Hlit. by apply is_Some_None in Hlit. }
    destruct (Hnode da Hda) as (a & Ha & Hva).
    destruct (Hnode db Hdb) as (b & Hb & Hvb).
    apply (readOnly_from_negation snakeToCamel a da x) in Hro as (f & Hneg & Hf);
      [|by apply (conjuncts_not_and e)|done].
    apply (literal_from_equality snakeToCamel b db x) in Hlit
      as (g & Hpin & Hg & Hne); [|by apply (conjuncts_not_and e)|done].
    exists a, b, f, g. repeat split; try done.
    destruct Hneg as (target & rest & -> & _).
    destruct Hpin as (lhs & rhs & -> & _). done.
  - intros (a & b & f & g & Ha & Hb & _ & Hneg & Hpin & Hf & Hg & Hne).
    destruct (Hscope a Ha) as (da & Hda & Hva).
    destruct (Hscope b Hb) as (db & Hdb & Hvb).
    split; right.
    + exists da. split; [done|].
      apply (readOnly_from_negation snakeToCamel a da x);
        [by apply (conjuncts_not_and e)|done|by exists f].
    + exists db. split; [done|].
      apply (literal_from_equality snakeToCamel b db x);
        [by apply (conjuncts_not_and e)|done|by exists g].
Qed.

(** C2. A disjunction that is an operand of another disjunction and
    returns leaves the fresh scope it is visited into without read-only
    fields, literals or nested constraints: the union groups it produces
    stay in that scope, it yields no branch, and the enclosing disjunction
    gives the same as without that operand. When the enclosing disjunction
    returns, what it appends are the branches of its other operands. When
    the inner disjunction throws, so does the enclosing one, and nothing is
    appended. *)
Theorem C2_inner_disjunction_yields_no_branch
    (pre inner post : list Expr) r :
  (∀ d, visit (orE inner) fresh = Normal d →
     (readOnlyFields d = [] ∧ literalFields d = ∅ ∧ nestedConstraints d = ∅)
     ∧ (∃ ds, Forall2 (λ a s, visit a fresh = Normal s) inner ds
              ∧ unionGroups d = keptBranches ds)
     ∧ keptBranches [d] = []
     ∧ visit (orE (pre ++ orE inner :: post)) r = visit (orE (pre ++ post)) r)
  ∧ (∀ r', visit (orE (pre ++ orE inner :: post)) r = Normal r' →
       ∃ ds, Forall2 (λ a s, visit a fresh = Normal s) (pre ++ post) ds
             ∧ r' = set_unionGroups (unionGroups r ++ keptBranches ds) r)
  ∧ (∀ d, visit (orE inner) fresh = Abrupt d →
       visit (orE (pre ++ orE inner :: post)) r = Abrupt r).
Proof.
  assert (∀ d, visit (orE inner) fresh = Normal d →
            visit (orE (pre ++ orE inner :: post)) r
            = visit (orE (pre ++ post)) r) as Hsame.
  { intros d Hd. destruct (inner_disjunction_scope snakeToCamel inner d Hd)
      as [_ Hkept].
    destruct (visit (orE (pre ++ post)) r) as [r'|r'] eqn:Houter.
    - apply visit_or_normal in Houter as (ds & Hds & ->).
      apply Forall2_app_inv_l in Hds as (ds1 & ds2 & Hpre & Hpost & ->).
      rewrite (visit_or_scopes snakeToCamel _ (ds1 ++ d :: ds2)).
      + change (d :: ds2) with ([d] ++ ds2).
        by rewrite !keptBranches_app, Hkept.
      + apply Forall2_app; [done|]. by constructor.
    - apply visit_or_abrupt in Houter as (-> & a & da & Ha & Hda).
      apply (visit_or_throws snakeToCamel _ a da); [|done].
      rewrite elem_of_app in Ha. rewrite elem_of_app, elem_of_cons. tauto. }
  split; [|split].
  - intros d Hd. destruct (inner_disjunction_scope snakeToCamel inner d Hd)
      as [Hempty Hkept].
    split; [done|]. split; [|by split; [|apply (Hsame d)]].
    apply visit_or_normal in Hd as (ds & Hds & ->). exists ds. by split.
  - intros r' Houter.
    pose proof Houter as (ds & Hds & _)%visit_or_normal.
    apply Forall2_app_inv_l in Hds as (ds1 & ds2' & Hpre & Hpost & ->).
    apply Forall2_cons_inv_l in Hpost as (d & ds2 & Hd & Hpost & ->).
    rewrite (Hsame d Hd) in Houter. by apply visit_or_normal.
  - intros d Hd. apply (visit_or_throws snakeToCamel _ (orE inner) d); [|done].
    rewrite elem_of_app, elem_of_cons. tauto.
Qed.

(** C3. A disjunction adds to [unionGroups] only. When every operand
    returns from its visit into a fresh scope, it appends one branch for
    each of those scopes that is not empty, in operand order, and drops the
    empty ones; a disjunction that returns is of that kind. When an operand
    throws, the disjunction throws and leaves the result as it was. For
    [this.a == '' || this.b == 0] the branches are the two with literals
    [{a: ""}] and [{b: 0}], and the top-level fields stay empty. *)
Theorem C3_disjunction_only_adds_branches text (args : list Expr) r :
  Js.trim text ≠ "" →
  parse text = Parsed (Some (orE [eqE (thisField ["a"]) (stringLit "");
                                  eqE (thisField ["b"]) (intLit 0)])) →
  snakeToCamel "a" = "a" → snakeToCamel "b" = "b" →
  analyze text
  = {| readOnlyFields := [];
       literalFields := ∅;
       unsupportedFields := [];
       errors := [];
       nestedConstraints := ∅;
       unionGroups :=
         [UnionBranch.mk [] {[ "a" := LString "" ]} ∅;
          UnionBranch.mk [] {[ "b" := LNumber (S754_zero false) ]} ∅] |}
  ∧ (∀ ds, Forall2 (λ a d, visit a fresh = Normal d) args ds →
       visit (orE args) r
       = Normal (set_unionGroups
                   (unionGroups r
                    ++ (branchOfScope <$> filter (λ d, ¬ scopeEmpty d) ds)) r))
  ∧ (∀ r', visit (orE args) r = Normal r' →
       ∃ ds, Forall2 (λ a d, visit a fresh = Normal d) args ds)
  ∧ (∀ r', visit (orE args) r = Abrupt r' →
       r' = r ∧ ∃ a d, a ∈ args ∧ visit a fresh = Abrupt d).
Proof.
  intros Htrim Hparse Ha Hb. split; [|split; [|split]].
  - assert (visit (orE [eqE (thisField ["a"]) (stringLit "");
                        eqE (thisField ["b"]) (intLit 0)]) fresh
            = Normal (set_unionGroups
                        [UnionBranch.mk [] {[ "a" := LString "" ]} ∅;
                         UnionBranch.mk [] {[ "b" := LNumber (S754_zero false) ]} ∅]
                        fresh)) as Hvisit.
    { rewrite (visit_or_scopes snakeToCamel _
                 [set_literalFields {[ "a" := LString "" ]} fresh;
                  set_literalFields {[ "b" := LNumber (S754_zero false) ]} fresh]).
      - by vm_compute.
      - constructor; [|constructor; [|constructor]].
        + rewrite (visit_eq_top _ "a" (stringLit "") (LString "")) by done.
          rewrite Ha. by vm_compute.
        + rewrite (visit_eq_top _ "b" (intLit 0) (LNumber (S754_zero false)))
            by done.
          rewrite Hb. by vm_compute. }
    rewrite (parseCELExpression_normal _ _ _ _ _ _ Htrim Hparse Hvisit).
    by vm_compute.
  - intros ds Hds. by apply visit_or_scopes.
  - intros r' (ds & Hds & _)%visit_or_normal. by exists ds.
  - apply visit_or_abrupt.
Qed.

(** C4, as amended. When the text is not blank and the parser throws or
    returns no expression node, the result is the empty result with exactly
    one message in [errors]. (On a blank text the parser is not called and
    no message is recorded.) *)
Theorem C4_parse_failure_on_nonblank_text text :
  Js.trim text ≠ "" →
  (parse text = Parsed None →
     analyze text
     = set_errors ["No expression found in CEL: " +:+ text] fresh)
  ∧ (∀ message, parse text = Throws message →
       analyze text
       = set_errors ["Failed to parse CEL expression " +:+ Js.dquote +:+ text
                     +:+ Js.dquote +:+ ": " +:+ message] fresh)
  ∧ (parse text = Parsed None ∨ (∃ message, parse text = Throws message) →
       readOnlyFields (analyze text) = []
       ∧ literalFields (analyze text) = ∅
       ∧ nestedConstraints (analyze text) = ∅
       ∧ unionGroups (analyze text) = []
       ∧ unsupportedFields (analyze text) = []
       ∧ length (errors (analyze text)) = 1).
Proof.
  intros Htrim. unfold parseCELExpression.
  rewrite bool_decide_eq_false_2 by done.
  split; [by intros ->|]. split; [by intros message ->|].
  by intros [->|[message ->]].
Qed.

(** C5. Two equalities that pin the same top-level field in one
    conjunction: the later literal replaces the earlier one and nothing
    else in the result changes, so no error is recorded. What is left is
    the result of assigning the later literal alone; for every name but
    [__proto__] that is the map with the name bound to it. For
    [this.field == '' && this.field == 0] the result has the literal
    [{field: 0}] and no errors. *)
Theorem C5_later_literal_overwrites text f (k1 k2 : Expr) v1 v2 r :
  f ≠ "" → Js.includes "." f = false →
  extractConstant k1 = Some v1 → extractConstant k2 = Some v2 →
  Js.trim text ≠ "" →
  parse text = Parsed (Some (andE [eqE (thisField ["field"]) (stringLit "");
                                   eqE (thisField ["field"]) (intLit 0)])) →
  snakeToCamel "field" = "field" →
  visit (andE [eqE (thisField [f]) k1; eqE (thisField [f]) k2]) r
  = Normal (set_literalFields
              (Js.assign (snakeToCamel f) v2 (literalFields r)) r)
  ∧ (snakeToCamel f ≠ "__proto__" →
     visit (andE [eqE (thisField [f]) k1; eqE (thisField [f]) k2]) r
     = Normal (set_literalFields (<[snakeToCamel f := v2]> (literalFields r)) r))
  ∧ analyze text
    = {| readOnlyFields := [];
         literalFields := {[ "field" := LNumber (S754_zero false) ]};
         unsupportedFields := [];
         errors := [];
         nestedConstraints := ∅;
         unionGroups := [] |}.
Proof.
  intros Hf Hdot Hk1 Hk2 Htrim Hparse Hcamel.
  assert (∀ f' k1' k2' v1' v2' r',
            f' ≠ "" → Js.includes "." f' = false →
            extractConstant k1' = Some v1' → extractConstant k2' = Some v2' →
            visit (andE [eqE (thisField [f']) k1'; eqE (thisField [f']) k2']) r'
            = Normal (set_literalFields
                        (Js.assign (snakeToCamel f') v2' (literalFields r')) r'))
    as Hgeneral.
  { intros f' k1' k2' v1' v2' r' Hf' Hdot' Hk1' Hk2'.
    rewrite visit_and_cons, (visit_eq_top _ f' k1' v1') by done. cbn [andThen].
    rewrite visit_and_cons, (visit_eq_top _ f' k2' v2') by done. cbn [andThen].
    change (visit (andE []) ?s) with (Normal s).
    destruct r'; unfold set_literalFields; cbn. by rewrite assign_assign. }
  split; [by apply (Hgeneral f k1 k2 v1 v2)|]. split.
  - intros Hne. rewrite (Hgeneral f k1 k2 v1 v2) by done.
    by rewrite assign_insert.
  - assert ("field" ≠ "") as Hfield by done.
    rewrite (parseCELExpression_normal _ _ _ _ _ _ Htrim Hparse
               (Hgeneral "field" (stringLit "") (intLit 0) (LString "")
                  (LNumber (S754_zero false)) fresh Hfield eq_refl eq_refl
                  eq_refl)).
    rewrite Hcamel. by vm_compute.
Qed.

(** C7. The equality handler does not depend on the order of its two
    operands. When one operand is a field path and the other a constant,
    both orders record the assertion of that pair; when neither order has
    a field path facing a constant, the node changes nothing. *)
Theorem C7_equality_operands_commute a b r :
  visit (eqE a b) r = visit (eqE b a) r
  ∧ (∀ f v, truthyPath (extractFieldPath a) = Some f →
            extractConstant b = Some v →
            visit (eqE a b) r = processEqualityPair snakeToCamel a b r
            ∧ visit (eqE b a) r = processEqualityPair snakeToCamel a b r)
  ∧ (truthyPath (extractFieldPath a) = None ∨ extractConstant b = None →
     truthyPath (extractFieldPath b) = None ∨ extractConstant a = None →
     visit (eqE a b) r = Normal r).
Proof.
  split; [|split].
  - destruct (truthyPath (extractFieldPath a)) as [f|] eqn:Ha;
      destruct (extractConstant b) as [v|] eqn:Hb.
    + destruct (visit_eq_path_const snakeToCamel a b f v r Ha Hb) as [-> ->].
      done.
    + rewrite !visit_eq.
      rewrite !(processEqualityPair_not_const _ a b) by done. cbn [andThen].
      rewrite <- (andThen_Normal (processEqualityPair snakeToCamel b a r)) at 1.
      destruct (processEqualityPair snakeToCamel b a r) as [r'|r']; [|done].
      cbn [andThen]. by rewrite processEqualityPair_not_const.
    + rewrite !visit_eq.
      rewrite !(processEqualityPair_not_path _ a b) by done. cbn [andThen].
      rewrite <- (andThen_Normal (processEqualityPair snakeToCamel b a r)) at 1.
      destruct (processEqualityPair snakeToCamel b a r) as [r'|r']; [|done].
      cbn [andThen]. by rewrite processEqualityPair_not_path.
    + rewrite !visit_eq.
      rewrite !(processEqualityPair_not_path _ a b) by done. cbn [andThen].
      rewrite <- (andThen_Normal (processEqualityPair snakeToCamel b a r)) at 1.
      destruct (processEqualityPair snakeToCamel b a r) as [r'|r']; [|done].
      cbn [andThen]. by rewrite processEqualityPair_not_path.
  - intros f v Ha Hb. by apply visit_eq_path_const with f v.
  - rewrite visit_eq.
    intros [Ha|Hb] [Hb'|Ha'];
      rewrite ?(processEqualityPair_not_path _ a b) by done;
      rewrite ?(processEqualityPair_not_const _ a b) by done;
      cbn [andThen];
      rewrite ?(processEqualityPair_not_path _ b a) by done;
      rewrite ?(processEqualityPair_not_const _ b a) by done;
      done.
Qed.

(** C9. On the empty text and on a text of white space only, the entry
    point returns the empty result, with no error, whatever the parser
    would do with that text. *)
Theorem C9_blank_text_gives_empty_result text :
  blank text →
  analyze text
  = {| readOnlyFields := [];
       literalFields := ∅;
       unsupportedFields := [];
       errors := [];
       nestedConstraints := ∅;
       unionGroups := [] |}.
Proof.
  intros Hblank. unfold parseCELExpression.
  by rewrite bool_decide_eq_true_2; [|apply trim_empty_iff].
Qed.

(** C10. Deduplication leaves [unionGroups] as it is, while the top-level
    [readOnlyFields] and every top-level child list come out free of
    duplicates; the entry point returns the union groups as the visitor
    left them. A disjunction whose first operand repeats one presence
    negation in a conjunction returns, as its first branch, one that lists
    the field twice. *)
Theorem C10_branch_lists_keep_duplicates
    text text' e f flag (others : list Expr) ds r :
  Js.trim text ≠ "" → f ≠ "" → Js.includes "." f = false →
  parse text
  = Parsed (Some (orE (andE [notE (SelectExpr (Some this) f flag);
                             notE (SelectExpr (Some this) f flag)]
                       :: others))) →
  Forall2 (λ a d, visit a fresh = Normal d) others ds →
  Js.trim text' ≠ "" → parse text' = Parsed (Some e) →
  (unionGroups (deduplicateResult r) = unionGroups r
   ∧ NoDup (readOnlyFields (deduplicateResult r))
   ∧ ∀ parent children,
       nestedConstraints (deduplicateResult r) !! parent = Some children →
       NoDup children)
  ∧ unionGroups (analyze text') = unionGroups (stateOf (visit e fresh))
  ∧ unionGroups (analyze text)
    = UnionBranch.mk [snakeToCamel f; snakeToCamel f] ∅ ∅ :: keptBranches ds.
Proof.
  intros Htrim Hf Hdot Hparse Hothers Htrim' Hparse'.
  split; [repeat split|split].
  - apply uniq_NoDup.
  - intros parent children. cbn. rewrite lookup_fmap.
    destruct (nestedConstraints r !! parent); intros [= <-].
    apply uniq_NoDup.
  - unfold parseCELExpression.
    rewrite bool_decide_eq_false_2, Hparse' by done.
    by destruct (visit e fresh).
  - assert (∀ r', visit (notE (SelectExpr (Some this) f flag)) r'
                  = Normal (set_readOnlyFields
                              (readOnlyFields r' ++ [snakeToCamel f]) r'))
      as Hnot.
    { intros r'. unfold notE. rewrite visit_not.
      rewrite (handleNegation_path _ _ f).
      - by apply addReadOnlyField_top.
      - apply truthyPath_topLevelField. split; [done|]. split; [done|].
        by exists flag. }
    assert (visit (andE [notE (SelectExpr (Some this) f flag);
                         notE (SelectExpr (Some this) f flag)]) fresh
            = Normal (set_readOnlyFields [snakeToCamel f; snakeToCamel f] fresh))
      as Hand.
    { rewrite visit_and_cons, Hnot. cbn [andThen].
      rewrite visit_and_cons, Hnot. by cbn [andThen]. }
    assert (Forall2 (λ a d, visit a fresh = Normal d)
              (andE [notE (SelectExpr (Some this) f flag);
                     notE (SelectExpr (Some this) f flag)] :: others)
              (set_readOnlyFields [snakeToCamel f; snakeToCamel f] fresh :: ds))
      as Hscopes by by constructor.
    rewrite (parseCELExpression_normal _ _ _ _ _ _ Htrim Hparse
               (visit_or_scopes snakeToCamel _ _ fresh Hscopes)).
    cbn [deduplicateResult set_unionGroups unionGroups createEmptyResult app].
    rewrite keptBranches_cons.
    assert (hasBranchConstraints
              (set_readOnlyFields [snakeToCamel f; snakeToCamel f] fresh) = true)
      as -> by (apply hasBranchConstraints_true; by intros [? _]).
    done.
Qed.

End Claims.

(** * Concrete runs *)

Section Runs.

Import Examples.

(** C1, counterexample. [!has(this.f) && this.f == ''] puts [f] both in
    [readOnlyFields] and among the keys of [literalFields]. *)
Lemma C1_counterexample_negated_and_pinned :
  readOnlyFields (run sharedText) = ["f"]
  ∧ literalFields (run sharedText) !! "f" = Some (LString "").
Proof. split; by vm_compute. Qed.

Lemma C1_shared_name_needs_two_conjuncts_witness :
  visitExpr Util.snakeToCamel sharedTree createEmptyResult
  = Normal (set_literalFields {[ "f" := LString "" ]}
              (set_readOnlyFields ["f"] createEmptyResult))
  ∧ ("f" ∈ ["f"] ∧ is_Some (({[ "f" := LString "" ]} : gmap string LiteralValue) !! "f")
     ↔ ∃ a b f g, a ∈ conjuncts sharedTree ∧ b ∈ conjuncts sharedTree ∧ a ≠ b
         ∧ negatesField f a ∧ pinsField g b
         ∧ Util.snakeToCamel f = "f" ∧ Util.snakeToCamel g = "f"
         ∧ "f" ≠ "__proto__").
Proof.
  assert (visitExpr Util.snakeToCamel sharedTree createEmptyResult
          = Normal (set_literalFields {[ "f" := LString "" ]}
                      (set_readOnlyFields ["f"] createEmptyResult))) as Hvisit
    by (vm_compute; reflexivity).
  split; [exact Hvisit|].
  exact (proj2 (C1_shared_name_needs_two_conjuncts
                  Util.snakeToCamel sharedTree _ "f" Hvisit)).
Defined.

Lemma C3_disjunction_only_adds_branches_witness :
  run disjunctionText
  = {| readOnlyFields := [];
       literalFields := ∅;
       unsupportedFields := [];
       errors := [];
       nestedConstraints := ∅;
       unionGroups :=
         [UnionBranch.mk [] {[ "a" := LString "" ]} ∅;
          UnionBranch.mk [] {[ "b" := LNumber (S754_zero false) ]} ∅] |}.
Proof.
  refine (proj1 (C3_disjunction_only_adds_branches
                   Util.snakeToCamel parse typeErrorMessage disjunctionText []
                   createEmptyResult _ _ _ _)).
  - by vm_compute.
  - reflexivity.
  - reflexivity.
  - reflexivity.
Defined.

(** C4, counterexample. On a text of three spaces the parser fails, and
    the result carries no message at all. *)
Lemma C4_counterexample_blank_text :
  parse "   " = Throws "syntax error" ∧ errors (run "   ") = [].
Proof. split; by vm_compute. Qed.

Lemma C4_parse_failure_on_nonblank_text_witness :
  parse "this.a ==" = Throws "syntax error"
  ∧ length (errors (run "this.a ==")) = 1.
Proof.
  split; [reflexivity|].
  refine (proj2 (proj2 (proj2 (proj2 (proj2 (proj2 (proj2
    (C4_parse_failure_on_nonblank_text
       Util.snakeToCamel parse typeErrorMessage "this.a ==" _)) _)))))).
  - by vm_compute.
  - right. by exists "syntax error".
Defined.

Lemma C5_later_literal_overwrites_witness :
  run conflictText
  = {| readOnlyFields := [];
       literalFields := {[ "field" := LNumber (S754_zero false) ]};
       unsupportedFields := [];
       errors := [];
       nestedConstraints := ∅;
       unionGroups := [] |}.
Proof.
  refine (proj2 (proj2 (C5_later_literal_overwrites
                   Util.snakeToCamel parse typeErrorMessage conflictText "field"
                   (stringLit "") (intLit 0) (LString "")
                   (LNumber (S754_zero false)) createEmptyResult
                   _ _ _ _ _ _ _))).
  - discriminate.
  - reflexivity.
  - reflexivity.
  - reflexivity.
  - by vm_compute.
  - reflexivity.
  - reflexivity.
Defined.

(** C6, at the failing input. For [this.constructor.child == ''] nothing
    is recorded under [constructor]: the call throws, and the result holds
    the message of the [catch] clause only. For
    [this.parent.child.grandchild == ''] the child is recorded. *)
Lemma C6_failing_input_inherited_parent :
  visitExpr Util.snakeToCamel inheritedTree createEmptyResult
  = Abrupt createEmptyResult
  ∧ run inheritedText
    = set_errors
        ["Failed to parse CEL expression " +:+ Js.dquote +:+ inheritedText
         +:+ Js.dquote +:+ ": " +:+ typeErrorMessage]
        createEmptyResult
  ∧ nestedConstraints (run inheritedText) = ∅
  ∧ run deepText
    = set_nestedConstraints {[ "parent" := ["child"] ]} createEmptyResult.
Proof. repeat split; by vm_compute. Qed.

Lemma C7_equality_operands_commute_witness :
  visitExpr Util.snakeToCamel
    (eqE (stringLit "x") (thisField ["field"])) createEmptyResult
  = visitExpr Util.snakeToCamel
      (eqE (thisField ["field"]) (stringLit "x")) createEmptyResult
  ∧ visitExpr Util.snakeToCamel
      (eqE (IdentExpr "field") (stringLit "x")) createEmptyResult
    = Normal createEmptyResult.
Proof.
  split.
  - exact (proj1 (C7_equality_operands_commute Util.snakeToCamel
                    (stringLit "x") (thisField ["field"]) createEmptyResult)).
  - refine (proj2 (proj2 (C7_equality_operands_commute Util.snakeToCamel
                            (IdentExpr "field") (stringLit "x")
                            createEmptyResult)) _ _).
    + by left.
    + by left.
Defined.

(** C8, at the failing input. [!has(this.constructor.child)] and
    [!this.constructor.child] both throw in the visitor, and the messages
    that the [catch] clause records quote the two texts: the results
    differ. For [!has(this.field)] and [!this.field] they are the same. *)
Lemma C8_failing_input_inherited_parent :
  run inheritedPresenceText ≠ run inheritedBareText
  ∧ errors (run inheritedPresenceText)
    = ["Failed to parse CEL expression " +:+ Js.dquote
       +:+ inheritedPresenceText +:+ Js.dquote +:+ ": " +:+ typeErrorMessage]
  ∧ errors (run inheritedBareText)
    = ["Failed to parse CEL expression " +:+ Js.dquote
       +:+ inheritedBareText +:+ Js.dquote +:+ ": " +:+ typeErrorMessage]
  ∧ run presenceText = run bareText
  ∧ run presenceText = set_readOnlyFields ["field"] createEmptyResult.
Proof.
  split; [|repeat split; by vm_compute].
  intros Heq. apply (f_equal errors) in Heq. vm_compute in Heq. discriminate Heq.
Qed.

Lemma C9_blank_text_gives_empty_result_witness :
  blank "   " ∧ run "   " = createEmptyResult.
Proof.
  assert (blank "   ") as Hblank by (repeat constructor).
  split; [exact Hblank|].
  exact (C9_blank_text_gives_empty_result Util.snakeToCamel parse
           typeErrorMessage "   " Hblank).
Defined.

Lemma C10_branch_lists_keep_duplicates_witness :
  unionGroups (run repeatedText)
  = [UnionBranch.mk ["a"; "a"] ∅ ∅;
     UnionBranch.mk [] {[ "b" := LNumber (S754_zero false) ]} ∅].
Proof.
  refine (proj2 (proj2 (C10_branch_lists_keep_duplicates
                   Util.snakeToCamel parse typeErrorMessage repeatedText
                   repeatedText repeatedTree "a" true
                   [eqE (thisField ["b"]) (intLit 0)]
                   [set_literalFields {[ "b" := LNumber (S754_zero false) ]}
                      createEmptyResult]
                   createEmptyResult _ _ _ _ _ _ _))).
  - by vm_compute.
  - discriminate.
  - reflexivity.
  - reflexivity.
  - repeat constructor.
  - by vm_compute.
  - reflexivity.
Defined.

End Runs.

(** A disjunction inside a disjunction: the two inner branches are produced
    in the inner scope and go no further; only the third operand yields a
    branch. *)
Example nested_disjunction_run :
  unionGroups (stateOf (visitExpr Util.snakeToCamel
                          (orE [eqE (thisField ["a"]) (stringLit "");
                                eqE (thisField ["b"]) (intLit 0)])
                          createEmptyResult))
  = [UnionBranch.mk [] {[ "a" := LString "" ]} ∅;
     UnionBranch.mk [] {[ "b" := LNumber (S754_zero false) ]} ∅]
  ∧ visitExpr Util.snakeToCamel Examples.nestedOrTree createEmptyResult
    = Normal (set_unionGroups [UnionBranch.mk ["c"] ∅ ∅] createEmptyResult).
Proof. split; by vm_compute. Qed.

(** A conjunction that throws at its last conjunct: what was recorded
    before stays, and it is not deduplicated. *)
Example partial_run :
  Examples.run Examples.partialText
  = set_errors
      ["Failed to parse CEL expression " +:+ Js.dquote +:+ Examples.partialText
       +:+ Js.dquote +:+ ": " +:+ Examples.typeErrorMessage]
      (set_readOnlyFields ["a"; "a"] createEmptyResult).
Proof. by vm_compute. Qed.

(** ** Agreement with the repository's tests

    The expectations of cel-parser.test.ts, on the trees the parser builds
    for the texts of the tests. *)

Section RepositoryTests.

Import Examples.

Local Abbreviation top := (λ f, thisField [f]).

Example test_mixed_and_or :
  runTree (andE [eqE (top "field1") (stringLit "");
                 orE [eqE (top "field2") (intLit 0);
                      eqE (top "field3") (ConstExpr (BoolValue false))]])
  = {| readOnlyFields := [];
       literalFields := {[ "field1" := LString "" ]};
       unsupportedFields := [];
       errors := [];
       nestedConstraints := ∅;
       unionGroups :=
         [UnionBranch.mk [] {[ "field2" := LNumber (S754_zero false) ]} ∅;
          UnionBranch.mk [] {[ "field3" := LBoolean false ]} ∅] |}.
Proof. by vm_compute. Qed.

Example test_two_disjunctions_under_and :
  unionGroups
    (runTree (andE [orE [eqE (top "a") (stringLit ""); eqE (top "b") (stringLit "")];
                    orE [eqE (top "c") (stringLit ""); eqE (top "d") (stringLit "")]]))
  = [UnionBranch.mk [] {[ "a" := LString "" ]} ∅;
     UnionBranch.mk [] {[ "b" := LString "" ]} ∅;
     UnionBranch.mk [] {[ "c" := LString "" ]} ∅;
     UnionBranch.mk [] {[ "d" := LString "" ]} ∅].
Proof. by vm_compute. Qed.

Example test_negation_and_literal :
  runTree (andE [notE (hasMacro (top "field1"));
                 eqE (top "field2") (stringLit "")])
  = {| readOnlyFields := ["field1"];
       literalFields := {[ "field2" := LString "" ]};
       unsupportedFields := [];
       errors := [];
       nestedConstraints := ∅;
       unionGroups := [] |}.
Proof. by vm_compute. Qed.

Example test_nested_fields_in_disjunction :
  unionGroups
    (runTree (orE [eqE (thisField ["parent"; "child1"]) (stringLit "");
                   eqE (thisField ["parent"; "child2"]) (intLit 0)]))
  = [UnionBranch.mk [] ∅ {[ "parent" := ["child1"] ]};
     UnionBranch.mk [] ∅ {[ "parent" := ["child2"] ]}].
Proof. by vm_compute. Qed.

Example test_duplicate_nested_constraint :
  nestedConstraints
    (runTree (andE [eqE (thisField ["parent"; "child"]) (stringLit "");
                    eqE (thisField ["parent"; "child"]) (intLit 0)]))
  = {[ "parent" := ["child"] ]}.
Proof. by vm_compute. Qed.

Example test_nested_snake_case :
  nestedConstraints
    (runTree (eqE (thisField ["parent_field"; "child_field"]) (stringLit "")))
  = {[ "parentField" := ["childField"] ]}.
Proof. by vm_compute. Qed.

Example test_reversed_comparison :
  literalFields (runTree (eqE (stringLit "literal") (top "field")))
  = {[ "field" := LString "literal" ]}.
Proof. by vm_compute. Qed.

Example test_float_zero :
  literalFields
    (runTree (eqE (top "field") (ConstExpr (DoubleValue (S754_zero false)))))
  = {[ "field" := LNumber (S754_zero false) ]}.
Proof. by vm_compute. Qed.

Example test_unsigned_zero :
  literalFields (runTree (eqE (top "field") (ConstExpr (Uint64Value 0))))
  = {[ "field" := LNumber (S754_zero false) ]}.
Proof. by vm_compute. Qed.

Example test_not_rooted_at_this :
  runTree (eqE (IdentExpr "field") (stringLit "")) = createEmptyResult.
Proof. by vm_compute. Qed.

Example test_unsupported_operator :
  runTree (CallExpr "_>_" [top "field"; intLit 5]) = createEmptyResult.
Proof. by vm_compute. Qed.

Example test_parse_error :
  run "invalid expression +++"
  = set_errors
      ["Failed to parse CEL expression " +:+ Js.dquote
       +:+ "invalid expression +++" +:+ Js.dquote +:+ ": syntax error"]
      createEmptyResult.
Proof. by vm_compute. Qed.

Example test_has_negation :
  runTree (notE (hasMacro (top "field")))
  = set_readOnlyFields ["field"] createEmptyResult.
Proof. by vm_compute. Qed.

Example test_nested_has_negation :
  runTree (notE (hasMacro (thisField ["parent"; "child"])))
  = set_nestedConstraints {[ "parent" := ["child"] ]} createEmptyResult.
Proof. by vm_compute. Qed.

End RepositoryTests.

(** * Further properties of the analyzer *)

Section AnalyzerInvariants.

Variable snakeToCamel : string → string.
Variable parse : string → ParseOutcome.
Variable typeErrorMessage : string.

Local Abbreviation visit := (visitExpr snakeToCamel).
Local Abbreviation fresh := createEmptyResult.
Local Abbreviation analyze :=
  (parseCELExpression snakeToCamel parse typeErrorMessage).

Implicit Types (r d : CELParseResult) (e a b : Expr) (x text : string).

Lemma uniqFrom_fixed seen (l : list string) :
  NoDup l → (∀ x, x ∈ l → x ∉ seen) → Js.uniqFrom seen l = l.
Proof.
  revert seen. induction l as [|y t IH]; intros seen Hnd Hseen; [done|].
  apply NoDup_cons in Hnd as [Hy Hnd]. cbn [Js.uniqFrom].
  rewrite bool_decide_eq_false_2 by (apply Hseen, list_elem_of_here).
  f_equal. apply IH; [done|]. intros x Hx.
  rewrite not_elem_of_cons. split.
  - intros ->. done.
  - by apply Hseen, list_elem_of_further.
Qed.

Lemma uniq_idemp (l : list string) : Js.uniq (Js.uniq l) = Js.uniq l.
Proof.
  unfold Js.uniq at 1. apply uniqFrom_fixed; [apply uniq_NoDup|].
  intros x _. apply not_elem_of_nil.
Qed.

Lemma uniq_nil_iff (l : list string) : Js.uniq l = [] ↔ l = [].
Proof.
  split; [|by intros ->]. destruct l as [|y t]; [done|].
  unfold Js.uniq. cbn [Js.uniqFrom].
  by rewrite bool_decide_eq_false_2 by apply not_elem_of_nil.
Qed.

Lemma deduplicateResult_idemp r :
  deduplicateResult (deduplicateResult r) = deduplicateResult r.
Proof.
  unfold deduplicateResult; cbn. rewrite !uniq_idemp. f_equal.
  rewrite <- map_fmap_compose. apply map_fmap_ext. intros k l _.
  apply uniq_idemp.
Qed.

Lemma extractFieldPath_selectFrom_other segs :
  ∀ root, extractFieldPath root = None → isThisIdentifier root = false →
    extractFieldPath (selectFrom root segs) = None
    ∧ isThisIdentifier (selectFrom root segs) = false.
Proof.
  induction segs as [|s segs IH]; intros root Hpath Hthis; [done|].
  apply (IH (SelectExpr (Some root) s false)); [|done].
  cbn [extractFieldPath]. by rewrite Hpath, Hthis.
Qed.

(** An invariant of the visitor that the deduplication and the [catch]
    clause keep holds of what the entry point returns. *)
Lemma parseCELExpression_invariant
    (I : CELParseResult → Prop) (B : UnionBranch.t → Prop) text :
  (∀ f r, I r → I (stateOf (addReadOnlyField snakeToCamel f r))) →
  (∀ f v r, I r →
     I (set_literalFields
          (Js.assign (snakeToCamel f) v (literalFields r)) r)) →
  (∀ r, I r → ¬ scopeEmpty r → B (branchOfScope r)) →
  (∀ r bs, I r → I (set_unionGroups bs r)) →
  (∀ r es, I r → I (set_errors es r)) →
  (∀ r, I r → I (deduplicateResult r)) →
  I fresh →
  I (analyze text) ∧ Forall B (unionGroups (analyze text)).
Proof.
  intros Hadd Hlit Hbranch Hug Herr Hdedup Hfresh.
  assert (∀ e, I (stateOf (visit e fresh))
               ∧ Forall B (unionGroups (stateOf (visit e fresh)))) as Hvisit.
  { intros e. apply visitExpr_invariant; done || constructor. }
  destruct (parseCELExpression_cases snakeToCamel parse typeErrorMessage text)
    as [->|[[message ->]|[(e & d & Hd & ->)|(e & d & message & Hd & ->)]]].
  - split; [done|constructor].
  - split; [by apply Herr|constructor].
  - specialize (Hvisit e). rewrite Hd in Hvisit. destruct Hvisit as [HI HB].
    split; [by apply Hdedup|done].
  - specialize (Hvisit e). rewrite Hd in Hvisit. destruct Hvisit as [HI HB].
    split; [by apply Herr|done].
Qed.

End AnalyzerInvariants.

Section AnalyzerExtras.

Variable snakeToCamel : string → string.
Variable parse : string → ParseOutcome.
Variable typeErrorMessage : string.

Local Abbreviation visit := (visitExpr snakeToCamel).
Local Abbreviation fresh := createEmptyResult.
Local Abbreviation analyze :=
  (parseCELExpression snakeToCamel parse typeErrorMessage).

Implicit Types (r d : CELParseResult) (e a b : Expr) (x text : string).

(** X1. Visiting an expression into a result that already holds facts gives
    the same as visiting it into a fresh result and merging, whether the
    visit returns or throws: lists are appended, later literals overwrite,
    children are appended per parent. In particular a conjunction can be
    analysed part by part, up to the first part that throws. The result
    visited into is one that the analyzer built: its own keys are clear of
    [Object.prototype]. *)
Theorem X1_visiting_is_merging e (args1 args2 : list Expr) r :
  plainKeys r →
  visit e r = mergeCompletion r (visit e fresh)
  ∧ visit (andE (args1 ++ args2)) r
    = andThen (visit (andE args1) r)
              (λ r1, mergeCompletion r1 (visit (andE args2) fresh)).
Proof.
  intros Hr. split; [by apply visitExpr_merge|].
  rewrite visit_and_app.
  pose proof (visitExpr_plainKeys snakeToCamel (andE args1) r Hr) as Hplain.
  destruct (visit (andE args1) r) as [r1|r1]; [|done].
  by apply visitExpr_merge.
Qed.

Lemma visitExpr_throws_iff e r :
  plainKeys r →
  (∃ d, visit e r = Abrupt d)
  ↔ ∃ p, p ∈ assertedPaths e ∧ inheritedParent snakeToCamel p = true.
Proof.
  intros Hr. rewrite <- isAbrupt_true, (visitExpr_throws snakeToCamel e r Hr).
  rewrite existsb_exists. split.
  - intros (p & Hp%list_elem_of_In & Hthrows). by exists p.
  - intros (p & Hp%list_elem_of_In & Hthrows). by exists p.
Qed.

(** X24. From a result that the analyzer built, the visitor throws exactly
    when it reaches, through conjunctions and disjunctions, a negation or
    an equality on a path of two or more segments whose first segment,
    camel-cased, names a property of [Object.prototype]. *)
Theorem X24_visitor_throws_on_inherited_parents e r :
  plainKeys r →
  (∃ d, visit e r = Abrupt d)
  ↔ ∃ p, p ∈ assertedPaths e ∧ inheritedParent snakeToCamel p = true.
Proof. apply visitExpr_throws_iff. Qed.

Lemma visitExpr_unsupportedFields e r :
  unsupportedFields r = [] → unsupportedFields (stateOf (visit e r)) = [].
Proof.
  intros Hr.
  destruct (visitExpr_invariant snakeToCamel
              (λ s, unsupportedFields s = []) (λ _ : UnionBranch.t, True))
    with (e := e) (r := r) as [H _];
    [intros f s Hs; by rewrite unsupportedFields_addReadOnlyField
    |done|done|done|done|done|by apply Forall_true|done].
Qed.

(** X2. The entry point reports an error exactly when the text is not blank
    and the parser throws, or returns no expression, or returns an
    expression on which the visitor throws; then there is one message.
    [unsupportedFields] is always empty. *)
Theorem X2_errors_come_from_parser_or_inherited_parent text :
  (errors (analyze text) ≠ []
   ↔ Js.trim text ≠ ""
     ∧ (parse text = Parsed None
        ∨ (∃ message, parse text = Throws message)
        ∨ ∃ e p, parse text = Parsed (Some e) ∧ p ∈ assertedPaths e
                 ∧ inheritedParent snakeToCamel p = true))
  ∧ length (errors (analyze text)) ≤ 1
  ∧ unsupportedFields (analyze text) = [].
Proof.
  unfold parseCELExpression. case_bool_decide as Hblank.
  { cbn. split; [|split; [lia|done]]. split; [done|by intros [? _]]. }
  destruct (parse text) as [message|[e|]] eqn:Hparse; cbn.
  - split; [|split; [lia|done]].
    split; [|done]. intros _. split; [done|]. right. left. by eexists.
  - pose proof (visitExpr_errors snakeToCamel e fresh) as Herr.
    pose proof (visitExpr_unsupportedFields e fresh eq_refl) as Hunsupported.
    pose proof (visitExpr_throws_iff e fresh (plainKeys_fresh)) as Hthrows.
    destruct (visit e fresh) as [d|d]; cbn in Herr, Hunsupported; cbn.
    + rewrite Herr, Hunsupported. cbn. split; [|split; [lia|done]].
      split; [done|]. intros (_ & [?|[[? ?]|(e' & p & [= <-] & Hp)]]); try done.
      destruct Hthrows as [_ Hthrows]. by destruct Hthrows as [? ?]; [exists p|].
    + rewrite Herr, Hunsupported. cbn. split; [|split; [lia|done]].
      split; [|done]. intros _. split; [done|]. right. right.
      destruct Hthrows as [Hthrows _].
      destruct Hthrows as (p & Hp & Hin); [by eexists|]. by exists e, p.
  - split; [|split; [lia|done]].
    split; [|done]. intros _. split; [done|]. by left.
Qed.

(** X3. A conjunction that is an operand of a conjunction is analysed as
    if its operands stood in its place: grouping of [&&] does not matter. *)
Theorem X3_nested_conjunction_is_spliced (pre inner post : list Expr) r :
  visit (andE (pre ++ andE inner :: post)) r
  = visit (andE (pre ++ inner ++ post)) r.
Proof.
  rewrite !visit_and_app. destruct (visit (andE pre) r) as [r'|r']; [|done].
  cbn [andThen]. by rewrite visit_and_cons, visit_and_app.
Qed.

Lemma childrenNonEmpty_addReadOnlyField f r :
  childrenNonEmpty (nestedConstraints r) →
  childrenNonEmpty
    (nestedConstraints (stateOf (addReadOnlyField snakeToCamel f r))).
Proof.
  intros Hr.
  destruct (addReadOnlyField_cases snakeToCamel f r)
    as [[x ->]|[(p & c & _ & ->)|[->|(p & _ & _ & ->)]]]; try done.
  cbn. intros parent children.
  destruct (decide (snakeToCamel p = parent)) as [->|Hne].
  - rewrite lookup_insert_eq. intros [= <-]. by destruct (default _ _).
  - rewrite lookup_insert_ne by done. apply Hr.
Qed.

Lemma childrenNonEmpty_deduplicateResult r :
  childrenNonEmpty (nestedConstraints r) →
  childrenNonEmpty (nestedConstraints (deduplicateResult r)).
Proof.
  intros Hr parent children. cbn. rewrite lookup_fmap.
  destruct (nestedConstraints r !! parent) as [l|] eqn:Hl; intros [= <-].
  rewrite uniq_nil_iff. by apply (Hr parent).
Qed.

Lemma visit_childrenNonEmpty e :
  childrenNonEmpty (nestedConstraints (stateOf (visit e fresh)))
  ∧ Forall (λ br, childrenNonEmpty (UnionBranch.nestedConstraints br))
           (unionGroups (stateOf (visit e fresh))).
Proof.
  apply (visitExpr_invariant snakeToCamel
           (λ r, childrenNonEmpty (nestedConstraints r))
           (λ br, childrenNonEmpty (UnionBranch.nestedConstraints br)));
    try done.
  apply childrenNonEmpty_addReadOnlyField.
Qed.

Lemma analyze_childrenNonEmpty text :
  childrenNonEmpty (nestedConstraints (analyze text))
  ∧ Forall (λ br, childrenNonEmpty (UnionBranch.nestedConstraints br))
           (unionGroups (analyze text)).
Proof.
  apply (parseCELExpression_invariant snakeToCamel parse typeErrorMessage
           (λ r, childrenNonEmpty (nestedConstraints r))
           (λ br, childrenNonEmpty (UnionBranch.nestedConstraints br)));
    try done.
  - apply childrenNonEmpty_addReadOnlyField.
  - apply childrenNonEmpty_deduplicateResult.
Qed.

(** X4. No parent is ever recorded with an empty list of children: not in
    the scope an expression is visited into, not in a branch, and not in
    what the entry point returns, whether or not the visitor throws. *)
Theorem X4_no_parent_without_children e text :
  (childrenNonEmpty (nestedConstraints (stateOf (visit e fresh)))
   ∧ Forall (λ br, childrenNonEmpty (UnionBranch.nestedConstraints br))
            (unionGroups (stateOf (visit e fresh))))
  ∧ childrenNonEmpty (nestedConstraints (analyze text))
  ∧ Forall (λ br, childrenNonEmpty (UnionBranch.nestedConstraints br))
           (unionGroups (analyze text)).
Proof. split; [apply visit_childrenNonEmpty|apply analyze_childrenNonEmpty]. Qed.

Lemma branchOfScope_nonEmpty r : ¬ scopeEmpty r → branchNonEmpty (branchOfScope r).
Proof.
  unfold scopeEmpty, branchNonEmpty. cbn. intros H.
  destruct (decide (readOnlyFields r = [])); [|tauto].
  destruct (decide (literalFields r = ∅)); [|tauto].
  destruct (decide (nestedConstraints r = ∅)); tauto.
Qed.

Lemma visit_branchNonEmpty e :
  Forall branchNonEmpty (unionGroups (stateOf (visit e fresh))).
Proof.
  destruct (visitExpr_invariant snakeToCamel (λ _, True) branchNonEmpty)
    with (e := e) (r := fresh) as [_ H];
    [done|done|intros r _; apply branchOfScope_nonEmpty|done|done|done
    |constructor|done].
Qed.

Lemma analyze_branchNonEmpty text :
  Forall branchNonEmpty (unionGroups (analyze text)).
Proof.
  destruct (parseCELExpression_invariant snakeToCamel parse typeErrorMessage
              (λ _, True) branchNonEmpty text) as [_ H];
    [done|done|intros r _; apply branchOfScope_nonEmpty|done|done|done|done
    |done].
Qed.

(** X5. Every branch constrains something: in [unionGroups], as the visitor
    builds it from a fresh result and as the entry point returns it, no
    branch has all three of its fields empty. *)
Theorem X5_every_branch_constrains_something e text (br : UnionBranch.t) :
  (br ∈ unionGroups (stateOf (visit e fresh)) → branchNonEmpty br)
  ∧ (br ∈ unionGroups (analyze text) → branchNonEmpty br).
Proof.
  pose proof (visit_branchNonEmpty e) as Hvisit.
  pose proof (analyze_branchNonEmpty text) as Hanalyze.
  rewrite Forall_forall in Hvisit, Hanalyze.
  split; [apply Hvisit|apply Hanalyze].
Qed.

(** X6. Deduplication is idempotent and keeps exactly the names that were
    there. What the entry point returns is already deduplicated whenever
    the visitor does not throw, so in particular whenever no error message
    is recorded; after a throw the result is returned as the visitor left
    it. *)
Theorem X6_returned_result_is_normalised r text :
  deduplicateResult (deduplicateResult r) = deduplicateResult r
  ∧ (∀ x, x ∈ readOnlyFields (deduplicateResult r) ↔ x ∈ readOnlyFields r)
  ∧ (∀ parent x,
       x ∈ default [] (nestedConstraints (deduplicateResult r) !! parent)
       ↔ x ∈ default [] (nestedConstraints r !! parent))
  ∧ ((∀ e, parse text = Parsed (Some e) → isAbrupt (visit e fresh) = false) →
     deduplicateResult (analyze text) = analyze text)
  ∧ (errors (analyze text) = [] →
     deduplicateResult (analyze text) = analyze text)
  ∧ (∀ e d, Js.trim text ≠ "" → parse text = Parsed (Some e) →
       visit e fresh = Abrupt d →
       readOnlyFields (analyze text) = readOnlyFields d
       ∧ nestedConstraints (analyze text) = nestedConstraints d).
Proof.
  split; [apply deduplicateResult_idemp|].
  split; [intros x; cbn; apply uniq_elem_of|].
  split.
  { intros parent x. cbn. rewrite lookup_fmap.
    destruct (nestedConstraints r !! parent); cbn; [apply uniq_elem_of|done]. }
  split; [|split].
  - intros Hreturns. unfold parseCELExpression.
    case_bool_decide as Hblank; [done|].
    destruct (parse text) as [message|[e|]] eqn:Hparse; try done.
    specialize (Hreturns e eq_refl).
    destruct (visit e fresh) as [d|d]; [apply deduplicateResult_idemp|done].
  - intros Herrors.
    destruct (parseCELExpression_cases snakeToCamel parse typeErrorMessage text)
      as [->|[[message Heq]|[(e & d & Hd & ->)|(e & d & message & Hd & Heq)]]];
      try done.
    + by rewrite Heq in Herrors.
    + apply deduplicateResult_idemp.
    + by rewrite Heq in Herrors.
  - intros e d Htrim Hparse Hd.
    by rewrite (parseCELExpression_abrupt _ _ _ _ _ d Htrim Hparse Hd).
Qed.

(** X7. Only paths rooted at [this] count. An equality with a constant, a
    negation and a negated presence check, as a call of [has] or in the
    expanded form, change nothing when their path starts at another
    identifier, or is a bare identifier (even [this] itself). *)
Theorem X7_paths_not_rooted_at_this_are_ignored
    name (segs : list string) (k : Expr) v r :
  name ≠ "this" ∨ segs = [] →
  extractConstant k = Some v →
  visit (eqE (selectFrom (IdentExpr name) segs) k) r = Normal r
  ∧ visit (eqE k (selectFrom (IdentExpr name) segs)) r = Normal r
  ∧ visit (notE (selectFrom (IdentExpr name) segs)) r = Normal r
  ∧ visit (notE (hasE (selectFrom (IdentExpr name) segs))) r = Normal r
  ∧ visit (notE (hasMacro (selectFrom (IdentExpr name) segs))) r = Normal r.
Proof.
  intros Hroot Hk.
  assert (extractFieldPath (selectFrom (IdentExpr name) segs) = None) as Hnone.
  { destruct Hroot as [Hname| ->]; [|done].
    apply extractFieldPath_selectFrom_other; [done|].
    cbn. by rewrite bool_decide_eq_false_2. }
  assert (∀ target, extractFieldPath target = None →
            (∀ fn args, target ≠ CallExpr fn args) →
            handleNegation snakeToCamel (Some target) r = Normal r) as Hneg.
  { intros target Htarget Hcall.
    destruct target as [| | | |fn args| | |]; try done.
    - unfold handleNegation. by rewrite Htarget.
    - by destruct (Hcall fn args). }
  assert (∀ fn args, selectFrom (IdentExpr name) segs ≠ CallExpr fn args)
    as Hnocall.
  { intros fn args. destruct segs as [|s segs] using rev_ind; [done|].
    unfold selectFrom. by rewrite fold_left_app. }
  split; [|split; [|split; [|split]]].
  - rewrite visit_eq.
    rewrite (processEqualityPair_not_path _ _ k) by by rewrite Hnone.
    cbn [andThen]. by rewrite (processEqualityPair_const_as_field _ k _ v).
  - rewrite visit_eq.
    rewrite (processEqualityPair_const_as_field _ k _ v) by done.
    cbn [andThen].
    by rewrite (processEqualityPair_not_path _ _ k) by by rewrite Hnone.
  - unfold notE. rewrite visit_not. by apply Hneg.
  - unfold notE, hasE. rewrite visit_not. cbn. by rewrite Hnone.
  - rewrite visit_not_hasMacro. unfold notE. rewrite visit_not. by apply Hneg.
Qed.

Lemma addReadOnlyField_nested_recorded p c rest r :
  Js.includes "." p = false → Js.includes "." c = false →
  snakeToCamel p ∉ Js.objectPrototypeNames
  ∨ is_Some (nestedConstraints r !! snakeToCamel p) →
  addReadOnlyField snakeToCamel (joinPath p (c :: rest)) r
  = Normal (set_nestedConstraints
              (<[snakeToCamel p :=
                   default [] (nestedConstraints r !! snakeToCamel p)
                   ++ [snakeToCamel c]]> (nestedConstraints r)) r).
Proof.
  intros Hp Hc Hparent. rewrite addReadOnlyField_nested by done.
  destruct (Js.get (nestedConstraints r) (snakeToCamel p)) eqn:Hget; try done.
  apply get_Inherited_iff in Hget as [Hnone Hin].
  destruct Hparent as [?|Hsome]; [done|].
  rewrite Hnone in Hsome. by apply is_Some_None in Hsome.
Qed.

Lemma addReadOnlyField_nested_throws p c rest r :
  Js.includes "." p = false → Js.includes "." c = false →
  snakeToCamel p ∈ Js.objectPrototypeNames →
  nestedConstraints r !! snakeToCamel p = None →
  addReadOnlyField snakeToCamel (joinPath p (c :: rest)) r = Abrupt r.
Proof.
  intros Hp Hc Hin Hnone. rewrite addReadOnlyField_nested by done.
  by rewrite get_inherited.
Qed.

(** X8. A negation of a path of two or more segments, with or without the
    presence check, records the second segment among the children of the
    first; later segments are dropped and [readOnlyFields] is untouched.
    That is so when the first segment, camel-cased, is no name of
    [Object.prototype] (or the result owns it already); otherwise the call
    throws and the result is as it was. *)
Theorem X8_negated_nested_path_records_child p c (rest : list string) r :
  p ≠ "" → Js.includes "." p = false → Js.includes "." c = false →
  (snakeToCamel p ∉ Js.objectPrototypeNames
   ∨ is_Some (nestedConstraints r !! snakeToCamel p) →
   visit (notE (hasMacro (thisField (p :: c :: rest)))) r
   = Normal (set_nestedConstraints
               (<[snakeToCamel p :=
                    default [] (nestedConstraints r !! snakeToCamel p)
                    ++ [snakeToCamel c]]> (nestedConstraints r)) r))
  ∧ (snakeToCamel p ∈ Js.objectPrototypeNames →
     nestedConstraints r !! snakeToCamel p = None →
     visit (notE (hasMacro (thisField (p :: c :: rest)))) r = Abrupt r)
  ∧ visit (notE (thisField (p :: c :: rest))) r
    = visit (notE (hasMacro (thisField (p :: c :: rest)))) r
  ∧ visit (notE (hasE (thisField (p :: c :: rest)))) r
    = visit (notE (hasMacro (thisField (p :: c :: rest)))) r.
Proof.
  intros Hp Hpdot Hcdot. rewrite visit_not_hasMacro. unfold notE.
  rewrite !visit_not.
  pose proof (truthyPath_thisField p (c :: rest) Hp) as Hpath.
  rewrite (handleNegation_has _ _ _ _ Hpath).
  rewrite (handleNegation_path _ _ _ _ Hpath).
  split; [|split; [|done]].
  - by apply addReadOnlyField_nested_recorded.
  - by apply addReadOnlyField_nested_throws.
Qed.

(** X21. An equality of a constant with a path of two or more segments, in
    either order, records the second segment among the children of the
    first; the literal is stored nowhere and later segments are dropped.
    That is so when the first segment, camel-cased, is no name of
    [Object.prototype] (or the result owns it already); otherwise the call
    throws and the result is as it was. *)
Theorem X21_nested_equality_records_child
    p c (rest : list string) (k : Expr) v r :
  p ≠ "" → Js.includes "." p = false → Js.includes "." c = false →
  extractConstant k = Some v →
  (snakeToCamel p ∉ Js.objectPrototypeNames
   ∨ is_Some (nestedConstraints r !! snakeToCamel p) →
   visit (eqE (thisField (p :: c :: rest)) k) r
   = Normal (set_nestedConstraints
               (<[snakeToCamel p :=
                    default [] (nestedConstraints r !! snakeToCamel p)
                    ++ [snakeToCamel c]]> (nestedConstraints r)) r))
  ∧ (snakeToCamel p ∈ Js.objectPrototypeNames →
     nestedConstraints r !! snakeToCamel p = None →
     visit (eqE (thisField (p :: c :: rest)) k) r = Abrupt r)
  ∧ visit (eqE k (thisField (p :: c :: rest))) r
    = visit (eqE (thisField (p :: c :: rest)) k) r.
Proof.
  intros Hp Hpdot Hcdot Hk.
  pose proof (truthyPath_thisField p (c :: rest) Hp) as Hpath.
  destruct (visit_eq_path_const snakeToCamel _ k _ v r Hpath Hk) as [-> ->].
  rewrite (processEqualityPair_nested _ _ _ _ v r Hpath) by
    (done || apply includes_joinPath_cons).
  split; [|split; [|done]].
  - by apply addReadOnlyField_nested_recorded.
  - by apply addReadOnlyField_nested_throws.
Qed.

(** X22. The negation of a presence check, as the parser expands it or as
    a call of [has], and the negation of the bare path do the same to the
    result they are visited into: what [addReadOnlyField] does on the path.
    Through the entry point the two texts give the same result up to the
    error messages, and the same result when the path has no parent that
    names a property of [Object.prototype]. A negation of anything else
    changes nothing. *)
Theorem X22_negated_presence_forms_agree
    e p (target : Expr) (rest : list Expr) text1 text2 r :
  truthyPath (extractFieldPath e) = Some p →
  Js.trim text1 ≠ "" → Js.trim text2 ≠ "" →
  parse text1 = Parsed (Some (notE (hasMacro e))) →
  parse text2 = Parsed (Some (notE e)) →
  (∀ inner, target = hasE inner → truthyPath (extractFieldPath inner) = None) →
  truthyPath (extractFieldPath target) = None →
  visit (notE (hasMacro e)) r = visit (notE e) r
  ∧ visit (notE (hasE e)) r = visit (notE e) r
  ∧ visit (notE e) r = addReadOnlyField snakeToCamel p r
  ∧ set_errors [] (analyze text1) = set_errors [] (analyze text2)
  ∧ (inheritedParent snakeToCamel p = false → analyze text1 = analyze text2)
  ∧ visit (CallExpr "!_" (target :: rest)) r = Normal r.
Proof.
  intros He Ht1 Ht2 Hp1 Hp2 Hhas Hpath.
  assert (∀ r', visit (notE e) r' = addReadOnlyField snakeToCamel p r') as Hbare.
  { intros r'. unfold notE. rewrite visit_not. by apply handleNegation_path. }
  split; [apply visit_not_hasMacro|]. split.
  { unfold notE. rewrite !visit_not.
    by rewrite (handleNegation_has _ e p), (handleNegation_path _ e p). }
  split; [apply Hbare|].
  pose proof (visit_not_hasMacro snakeToCamel e fresh) as Hsame.
  split; [|split].
  - destruct (visit (notE e) fresh) as [d|d] eqn:Hd.
    + rewrite (parseCELExpression_normal _ _ _ _ _ d Ht1 Hp1) by congruence.
      by rewrite (parseCELExpression_normal _ _ _ _ _ d Ht2 Hp2).
    + rewrite (parseCELExpression_abrupt _ _ _ _ _ d Ht1 Hp1) by congruence.
      by rewrite (parseCELExpression_abrupt _ _ _ _ _ d Ht2 Hp2).
  - intros Hplain.
    pose proof (addReadOnlyField_throws snakeToCamel p fresh (plainKeys_fresh))
      as Hthrows.
    rewrite Hplain, <- Hbare in Hthrows.
    apply isAbrupt_false in Hthrows as [d Hd].
    rewrite (parseCELExpression_normal _ _ _ _ _ d Ht1 Hp1) by congruence.
    by rewrite (parseCELExpression_normal _ _ _ _ _ d Ht2 Hp2).
  - rewrite visit_not.
    destruct target as [| | | |fn args| | |]; try done.
    + unfold handleNegation. by rewrite Hpath.
    + destruct args as [|inner [|]]; try done.
      cbn [handleNegation]. case_bool_decide as Hfn; [|done].
      subst fn. by rewrite (Hhas inner).
Qed.

Lemma Forall2_visit_plainKeys (args : list Expr) ds :
  Forall2 (λ a d, visit a fresh = Normal d) args ds → Forall plainKeys ds.
Proof.
  induction 1 as [|a d args ds Ha _ IH]; constructor; [|done].
  pose proof (visitExpr_plainKeys snakeToCamel a fresh (plainKeys_fresh)) as H.
  by rewrite Ha in H.
Qed.

Lemma unionGroups_fold_mergeInto (ds : list CELParseResult) :
  ∀ r, unionGroups (fold_left mergeInto ds r)
       = unionGroups r ++ concat (unionGroups <$> ds).
Proof.
  induction ds as [|d ds IH]; intros r; cbn [fold_left fmap list_fmap concat].
  - by rewrite app_nil_r.
  - rewrite IH. cbn. by rewrite app_assoc.
Qed.

(** X9. A conjunction whose operands return passes on their union groups
    one after the other, so a conjunction of disjunctions none of whose
    operands throws is analysed exactly like the one disjunction of all
    their operands: alternatives are listed, not combined. *)
Theorem X9_conjoined_disjunctions_are_one_list
    (args : list Expr) ds (groups : list (list Expr)) r :
  plainKeys r →
  Forall2 (λ a d, visit a fresh = Normal d) args ds →
  Forall (λ a, isAbrupt (visit a fresh) = false) (concat groups) →
  (∃ r', visit (andE args) r = Normal r'
         ∧ unionGroups r' = unionGroups r ++ concat (unionGroups <$> ds))
  ∧ visit (andE (orE <$> groups)) r = visit (orE (concat groups)) r.
Proof.
  intros Hr Hds Hgroups. split.
  - eexists. split; [by apply visit_and_scopes|].
    apply unionGroups_fold_mergeInto.
  - clear Hr Hds. revert r.
    induction groups as [|g groups IH]; intros r.
    + cbn [fmap list_fmap concat]. rewrite visit_or. cbn.
      rewrite app_nil_r. by destruct r.
    + cbn [fmap list_fmap concat] in *. apply Forall_app in Hgroups as [Hg Hrest].
      assert (∀ l : list Expr,
                Forall (λ a, isAbrupt (visit a fresh) = false) l →
                ∃ ds', Forall2 (λ a d, visit a fresh = Normal d) l ds')
        as Hscopes.
      { intros l. induction 1 as [|a l Ha%isAbrupt_false _ [ds' IHl]].
        - by exists [].
        - destruct Ha as [d Hd]. exists (d :: ds'). by constructor. }
      destruct (Hscopes g Hg) as [dsg Hdsg].
      destruct (Hscopes (concat groups) Hrest) as [dsr Hdsr].
      rewrite visit_and_cons, (visit_or_scopes snakeToCamel g dsg) by done.
      cbn [andThen]. rewrite IH by done.
      rewrite (visit_or_scopes snakeToCamel (concat groups) dsr) by done.
      rewrite (visit_or_scopes snakeToCamel (g ++ concat groups) (dsg ++ dsr))
        by by apply Forall2_app.
      rewrite keptBranches_app.
      destruct r; unfold set_unionGroups; cbn. by rewrite app_assoc.
Qed.

Lemma namesCamelCased_addReadOnlyField f r :
  namesCamelCased snakeToCamel (readOnlyFields r) (literalFields r)
    (nestedConstraints r) →
  namesCamelCased snakeToCamel
    (readOnlyFields (stateOf (addReadOnlyField snakeToCamel f r)))
    (literalFields (stateOf (addReadOnlyField snakeToCamel f r)))
    (nestedConstraints (stateOf (addReadOnlyField snakeToCamel f r))).
Proof.
  intros (Hro & Hlit & Hnested).
  destruct (addReadOnlyField_cases snakeToCamel f r)
    as [[x ->]|[(p & c & _ & ->)|[->|(p & _ & _ & ->)]]]; try done.
  - split; [|done]. cbn. apply Forall_app. split; [done|].
    repeat constructor. by eexists.
  - split; [done|]. split; [done|]. cbn. intros k children.
    destruct (decide (snakeToCamel p = k)) as [<-|Hne].
    + rewrite lookup_insert_eq. intros [= <-]. split; [by eexists|].
      apply Forall_app. split; [|repeat constructor; by eexists].
      destruct (nestedConstraints r !! snakeToCamel p) as [old|] eqn:Hold;
        [|constructor].
      by apply (Hnested (snakeToCamel p) old).
    + rewrite lookup_insert_ne by done. apply Hnested.
Qed.

Lemma namesCamelCased_assign f (v : LiteralValue) r :
  namesCamelCased snakeToCamel (readOnlyFields r) (literalFields r)
    (nestedConstraints r) →
  namesCamelCased snakeToCamel (readOnlyFields r)
    (Js.assign (snakeToCamel f) v (literalFields r)) (nestedConstraints r).
Proof.
  intros (Hro & Hlit & Hnested). split; [done|]. split; [|done].
  intros k [->|Hk]%lookup_assign_is_Some; [by eexists|by apply Hlit].
Qed.

Lemma namesCamelCased_deduplicateResult r :
  namesCamelCased snakeToCamel (readOnlyFields r) (literalFields r)
    (nestedConstraints r) →
  namesCamelCased snakeToCamel (readOnlyFields (deduplicateResult r))
    (literalFields (deduplicateResult r))
    (nestedConstraints (deduplicateResult r)).
Proof.
  intros (Hro & Hlit & Hnested). split; [|split; [done|]].
  - cbn. apply Forall_forall. intros x Hx.
    apply (proj1 (uniq_elem_of _ _)) in Hx.
    rewrite Forall_forall in Hro. by apply Hro.
  - cbn. intros k children. rewrite lookup_fmap.
    destruct (nestedConstraints r !! k) as [l|] eqn:Hl; intros [= <-].
    destruct (Hnested k l Hl) as [Hk Hl']. split; [done|].
    apply Forall_forall. intros x Hx.
    apply (proj1 (uniq_elem_of _ _)) in Hx.
    rewrite Forall_forall in Hl'. by apply Hl'.
Qed.

Lemma namesCamelCased_fresh :
  namesCamelCased snakeToCamel (readOnlyFields fresh) (literalFields fresh)
    (nestedConstraints fresh).
Proof.
  split; [constructor|]. split.
  - intros k Hk. cbn in Hk. rewrite lookup_empty in Hk.
    by apply is_Some_None in Hk.
  - intros k children Hk. cbn in Hk. by rewrite lookup_empty in Hk.
Qed.

Lemma visit_namesCamelCased e :
  namesCamelCased snakeToCamel (readOnlyFields (stateOf (visit e fresh)))
    (literalFields (stateOf (visit e fresh)))
    (nestedConstraints (stateOf (visit e fresh)))
  ∧ Forall (λ br, namesCamelCased snakeToCamel
                    (UnionBranch.readOnlyFields br)
                    (UnionBranch.literalFields br)
                    (UnionBranch.nestedConstraints br))
           (unionGroups (stateOf (visit e fresh))).
Proof.
  apply (visitExpr_invariant snakeToCamel
           (λ r, namesCamelCased snakeToCamel (readOnlyFields r)
                   (literalFields r) (nestedConstraints r))
           (λ br, namesCamelCased snakeToCamel
                    (UnionBranch.readOnlyFields br)
                    (UnionBranch.literalFields br)
                    (UnionBranch.nestedConstraints br)));
    [apply namesCamelCased_addReadOnlyField
    |intros f v r Hr; exact (namesCamelCased_assign f v r Hr)
    |by intros r Hr _|by intros r bs Hr
    |apply namesCamelCased_fresh|apply namesCamelCased_fresh|constructor].
Qed.

Lemma analyze_namesCamelCased text :
  namesCamelCased snakeToCamel (readOnlyFields (analyze text))
    (literalFields (analyze text)) (nestedConstraints (analyze text))
  ∧ Forall (λ br, namesCamelCased snakeToCamel
                    (UnionBranch.readOnlyFields br)
                    (UnionBranch.literalFields br)
                    (UnionBranch.nestedConstraints br))
           (unionGroups (analyze text)).
Proof.
  apply (parseCELExpression_invariant snakeToCamel parse typeErrorMessage
           (λ r, namesCamelCased snakeToCamel (readOnlyFields r)
                   (literalFields r) (nestedConstraints r))
           (λ br, namesCamelCased snakeToCamel
                    (UnionBranch.readOnlyFields br)
                    (UnionBranch.literalFields br)
                    (UnionBranch.nestedConstraints br)));
    [apply namesCamelCased_addReadOnlyField
    |intros f v r Hr; exact (namesCamelCased_assign f v r Hr)
    |by intros r Hr _|by intros r bs Hr|by intros r es Hr
    |apply namesCamelCased_deduplicateResult
    |apply namesCamelCased_fresh].
Qed.

Lemma analyze_readOnlyFields_camelCased text x :
  x ∈ readOnlyFields (analyze text) → ∃ s, x = snakeToCamel s.
Proof.
  destruct (analyze_namesCamelCased text) as [(Hro & _) _].
  rewrite Forall_forall in Hro. apply Hro.
Qed.

(** X10. Every name the analyzer stores is a value of [snakeToCamel]: the
    read-only fields, the keys of the literals, the parents and their
    children, at the top level and in every branch, before and after
    deduplication, whether or not the visitor throws. *)
Theorem X10_stored_names_are_camel_cased e text :
  (namesCamelCased snakeToCamel (readOnlyFields (stateOf (visit e fresh)))
     (literalFields (stateOf (visit e fresh)))
     (nestedConstraints (stateOf (visit e fresh)))
   ∧ Forall (λ br, namesCamelCased snakeToCamel
                     (UnionBranch.readOnlyFields br)
                     (UnionBranch.literalFields br)
                     (UnionBranch.nestedConstraints br))
            (unionGroups (stateOf (visit e fresh))))
  ∧ namesCamelCased snakeToCamel (readOnlyFields (analyze text))
      (literalFields (analyze text)) (nestedConstraints (analyze text))
  ∧ Forall (λ br, namesCamelCased snakeToCamel
                    (UnionBranch.readOnlyFields br)
                    (UnionBranch.literalFields br)
                    (UnionBranch.nestedConstraints br))
           (unionGroups (analyze text)).
Proof. split; [apply visit_namesCamelCased|apply analyze_namesCamelCased]. Qed.

Lemma plainKeys_deduplicateResult r :
  plainKeys r → plainKeys (deduplicateResult r).
Proof.
  intros [Hlit Hnested]. split; [done|]. rewrite Forall_forall in Hnested.
  apply Forall_forall. intros key Hkey. cbn.
  by rewrite lookup_fmap, (Hnested key Hkey).
Qed.

(** X23. The analyzer never creates an own key under a name of
    [Object.prototype] among the parents of [nestedConstraints], nor an own
    [__proto__] among the literals: not at the top level and not in a
    branch, in the scope an expression is visited into and in what the
    entry point returns. *)
Theorem X23_own_keys_avoid_the_prototype e text (br : UnionBranch.t) :
  plainKeys (stateOf (visit e fresh))
  ∧ (br ∈ unionGroups (stateOf (visit e fresh)) → plainBranch br)
  ∧ plainKeys (analyze text)
  ∧ (br ∈ unionGroups (analyze text) → plainBranch br).
Proof.
  split; [apply visitExpr_plainKeys, plainKeys_fresh|]. split.
  { pose proof (visitExpr_plainKeys_branches snakeToCamel e fresh
                  plainKeys_fresh (Forall_nil_2 _)) as Hbranches.
    rewrite Forall_forall in Hbranches. apply Hbranches. }
  destruct (parseCELExpression_invariant snakeToCamel parse typeErrorMessage
              plainKeys plainBranch text) as [Hplain Hbranches];
    [apply plainKeys_addReadOnlyField
    |intros f v r; apply plainKeys_assign
    |by intros r Hr _|done|done
    |apply plainKeys_deduplicateResult|apply plainKeys_fresh|].
  split; [done|]. rewrite Forall_forall in Hbranches. apply Hbranches.
Qed.

End AnalyzerExtras.

(** * Properties of the plugin's getters *)

Section UniqFacts.

Implicit Types (l seen : list string).

Lemma uniqFrom_ext seen1 seen2 l :
  (∀ x, x ∈ seen1 ↔ x ∈ seen2) → Js.uniqFrom seen1 l = Js.uniqFrom seen2 l.
Proof.
  revert seen1 seen2. induction l as [|y t IH]; intros seen1 seen2 Hext; [done|].
  cbn [Js.uniqFrom]. rewrite (bool_decide_ext _ _ (Hext y)).
  case_bool_decide; [by apply IH|]. f_equal. apply IH.
  intros x. rewrite !elem_of_cons, Hext. done.
Qed.

Lemma uniqFrom_app seen l1 l2 :
  Js.uniqFrom seen (l1 ++ l2)
  = Js.uniqFrom seen l1 ++ Js.uniqFrom (l1 ++ seen) l2.
Proof.
  revert seen. induction l1 as [|y t IH]; intros seen; [done|].
  cbn [app Js.uniqFrom]. case_bool_decide as Hy.
  - rewrite IH. f_equal. apply uniqFrom_ext. intros x.
    rewrite elem_of_cons, !elem_of_app. split; [by right|].
    intros [->|H]; [by right|done].
  - rewrite IH. cbn [app]. do 2 f_equal. apply uniqFrom_ext. intros x.
    rewrite !elem_of_cons, !elem_of_app, elem_of_cons. tauto.
Qed.

Lemma uniqFrom_uniqFrom seen seen' l :
  (∀ x, x ∈ seen' → x ∈ seen) →
  Js.uniqFrom seen (Js.uniqFrom seen' l) = Js.uniqFrom seen l.
Proof.
  revert seen seen'. induction l as [|y t IH]; intros seen seen' Hsub; [done|].
  cbn [Js.uniqFrom]. case_bool_decide as Hy'.
  - rewrite bool_decide_eq_true_2 by by apply Hsub. by apply IH.
  - cbn [Js.uniqFrom]. case_bool_decide as Hy.
    + apply IH. intros x [->|Hx]%elem_of_cons; [done|by apply Hsub].
    + f_equal. apply IH. intros x. rewrite !elem_of_cons.
      intros [->|Hx]; [by left|right; by apply Hsub].
Qed.

Lemma uniq_app_uniq l1 l2 :
  Js.uniq (Js.uniq l1 ++ Js.uniq l2) = Js.uniq (l1 ++ l2).
Proof.
  unfold Js.uniq at 1 4. rewrite !uniqFrom_app. f_equal.
  - apply uniq_idemp.
  - rewrite (uniqFrom_ext (Js.uniq l1 ++ []) (l1 ++ [])).
    + apply uniqFrom_uniqFrom. intros x Hx. by apply not_elem_of_nil in Hx.
    + intros x. by rewrite !elem_of_app, uniq_elem_of.
Qed.

Lemma uniq_app_uniq_l l1 l2 :
  Js.uniq (Js.uniq l1 ++ l2) = Js.uniq (l1 ++ l2).
Proof.
  unfold Js.uniq at 1 3. rewrite !uniqFrom_app. f_equal.
  - apply uniq_idemp.
  - apply uniqFrom_ext. intros x. by rewrite !elem_of_app, uniq_elem_of.
Qed.

Lemma uniq_concat_uniq (ls : list (list string)) :
  Js.uniq (concat (Js.uniq <$> ls)) = Js.uniq (concat ls).
Proof.
  induction ls as [|l ls IH]; [done|]. cbn [fmap list_fmap concat].
  rewrite <- (uniq_app_uniq l (concat ls)), <- IH.
  rewrite uniq_app_uniq. by rewrite uniq_app_uniq_l.
Qed.

End UniqFacts.

Section GetterFacts.

Variable snakeToCamel : string → string.
Variable parse : string → ParseOutcome.
Variable typeErrorMessage : string.

Local Abbreviation analyze :=
  (parseCELExpression snakeToCamel parse typeErrorMessage).
Local Abbreviation fresh := createEmptyResult.
Local Abbreviation results := (ruleResults snakeToCamel parse typeErrorMessage).

Implicit Types (message : DescMessage) (cel : list Rule).

Lemma analyze_empty_text : analyze "" = fresh.
Proof. reflexivity. Qed.

Lemma collectReadOnlyFields_concat cel :
  collectReadOnlyFields snakeToCamel parse typeErrorMessage cel
  = concat (readOnlyFields <$> results cel).
Proof.
  unfold collectReadOnlyFields.
  enough (∀ acc,
            fold_left
              (λ all c, if bool_decide (expression c = "") then all
                        else all ++ readOnlyFields (analyze (expression c)))
              cel acc
            = acc ++ concat (readOnlyFields <$> results cel)) as H
    by apply (H []).
  induction cel as [|c cel IH]; intros acc; cbn [fold_left].
  - cbn. by rewrite app_nil_r.
  - rewrite IH. unfold ruleResults. cbn [fmap list_fmap concat].
    case_bool_decide as Hc; [|by rewrite app_assoc].
    by rewrite Hc, analyze_empty_text.
Qed.

Lemma getReadOnlyFields_rules message cel :
  getOption message = LookupRules cel →
  getReadOnlyFields snakeToCamel parse typeErrorMessage message
  = (λ field, if Js.includes "." field then field else snakeToCamel field)
      <$> Js.uniq (concat (readOnlyFields <$> results cel)).
Proof.
  intros Hopt. unfold getReadOnlyFields. rewrite Hopt.
  destruct cel as [|c cel]; [done|]. by rewrite collectReadOnlyFields_concat.
Qed.

Lemma getUnionGroups_rules message cel :
  getOption message = LookupRules cel →
  getUnionGroups snakeToCamel parse typeErrorMessage message
  = concat (unionGroups <$> results cel).
Proof.
  intros Hopt. unfold getUnionGroups. rewrite Hopt.
  enough (∀ acc,
            fold_left
              (λ all c, if bool_decide (expression c = "") then all
                        else all ++ unionGroups (analyze (expression c)))
              cel acc
            = acc ++ concat (unionGroups <$> results cel)) as H.
  { destruct cel as [|c cel]; [done|]. apply (H []). }
  clear Hopt. induction cel as [|c cel IH]; intros acc; cbn [fold_left].
  - cbn. by rewrite app_nil_r.
  - rewrite IH. unfold ruleResults. cbn [fmap list_fmap concat].
    case_bool_decide as Hc; [|by rewrite app_assoc].
    by rewrite Hc, analyze_empty_text.
Qed.

(** The loop over the entries of one result adds that result's children to
    those already collected, parent by parent. *)
Lemma mergeNestedEntries_entries (entries : list (string * list string)) :
  ∀ all, NoDup entries.*1 →
    mergeNestedEntries all entries
    = union_with (λ old new, Some (old ++ new)) all (list_to_map entries).
Proof.
  unfold mergeNestedEntries.
  induction entries as [|[key fields] entries IH]; intros all Hnd;
    cbn [fold_left list_to_map foldr fst snd].
  - by rewrite children_union_empty_r.
  - cbn in Hnd. apply NoDup_cons in Hnd as [Hkey Hnd].
    rewrite IH by done. apply map_eq; intros i.
    rewrite !lookup_union_with.
    assert ((list_to_map entries : gmap string (list string)) !! key = None)
      as Hfresh by by apply not_elem_of_list_to_map_1.
    destruct (decide (key = i)) as [<-|Hne].
    + rewrite !lookup_insert_eq, Hfresh. by destruct (all !! key).
    + by rewrite !lookup_insert_ne.
Qed.

Lemma mergeNestedEntries_map (all m : gmap string (list string)) :
  mergeNestedEntries all (map_to_list m)
  = union_with (λ old new, Some (old ++ new)) all m.
Proof.
  rewrite mergeNestedEntries_entries by apply NoDup_fst_map_to_list.
  by rewrite list_to_map_to_list.
Qed.

(** The children collected under one parent after the loop over the rules. *)
Lemma collected_children cel parent :
  ∀ all, childrenNonEmpty all →
    fold_left
      (λ all c, if bool_decide (expression c = "") then all
                else mergeNestedEntries all
                       (map_to_list (nestedConstraints (analyze (expression c)))))
      cel all !! parent
    = match default [] (all !! parent) ++ childrenUnder parent (results cel) with
      | [] => None
      | children => Some children
      end.
Proof.
  induction cel as [|c cel IH]; intros all Hall; cbn [fold_left].
  - unfold childrenUnder. cbn. rewrite app_nil_r.
    destruct (all !! parent) as [l|] eqn:Hl; [|done].
    cbn. destruct l; [by destruct (Hall parent [] Hl)|done].
  - assert ((if bool_decide (expression c = "") then all
             else mergeNestedEntries all
                    (map_to_list (nestedConstraints (analyze (expression c)))))
            = union_with (λ old new, Some (old ++ new)) all
                (nestedConstraints (analyze (expression c)))) as ->.
    { case_bool_decide as Hc; [|apply mergeNestedEntries_map].
      by rewrite Hc, analyze_empty_text, children_union_empty_r. }
    rewrite IH.
    + unfold childrenUnder, ruleResults. cbn [fmap list_fmap concat].
      rewrite lookup_union_with, app_assoc. f_equal.
      by destruct (all !! parent),
           (nestedConstraints (analyze (expression c)) !! parent); cbn;
        rewrite ?app_nil_r.
    + intros k l. rewrite lookup_union_with.
      pose proof (proj1 (analyze_childrenNonEmpty snakeToCamel parse
                           typeErrorMessage (expression c)) k) as Hc.
      pose proof (Hall k) as Hk.
      destruct (all !! k) as [a|],
        (nestedConstraints (analyze (expression c)) !! k) as [b|];
        cbn; intros [= <-]; try by eauto.
      destruct a; [by destruct (Hk [] eq_refl)|done].
Qed.

Lemma getNestedReadOnlyFields_rules message cel parent :
  getOption message = LookupRules cel →
  getNestedReadOnlyFields snakeToCamel parse typeErrorMessage message !! parent
  = uniqueChildren (childrenUnder parent (results cel)).
Proof.
  intros Hopt. unfold getNestedReadOnlyFields. rewrite Hopt.
  destruct cel as [|c cel]; [by rewrite lookup_empty|].
  rewrite lookup_fmap, collected_children by by intros ? ? ?.
  rewrite lookup_empty. cbn [default app].
  by destruct (childrenUnder parent _).
Qed.

End GetterFacts.

Section GetterExtras.

Variable snakeToCamel : string → string.
Variable parse : string → ParseOutcome.
Variable typeErrorMessage : string.

Local Abbreviation visit := (visitExpr snakeToCamel).
Local Abbreviation analyze :=
  (parseCELExpression snakeToCamel parse typeErrorMessage).
Local Abbreviation fresh := createEmptyResult.
Local Abbreviation results := (ruleResults snakeToCamel parse typeErrorMessage).
Local Abbreviation readOnlyOf :=
  (getReadOnlyFields snakeToCamel parse typeErrorMessage).
Local Abbreviation unionGroupsOf :=
  (getUnionGroups snakeToCamel parse typeErrorMessage).
Local Abbreviation nestedOf :=
  (getNestedReadOnlyFields snakeToCamel parse typeErrorMessage).
Local Abbreviation shapeOf :=
  (generateMessageShape snakeToCamel parse typeErrorMessage).

Implicit Types (message : DescMessage) (cel : list Rule).

Lemma readOnlyFields_fold_mergeInto (ds : list CELParseResult) :
  ∀ r, readOnlyFields (fold_left mergeInto ds r)
       = readOnlyFields r ++ concat (readOnlyFields <$> ds).
Proof.
  induction ds as [|d ds IH]; intros r; cbn [fold_left fmap list_fmap concat].
  - by rewrite app_nil_r.
  - rewrite IH. cbn. by rewrite app_assoc.
Qed.

Lemma children_fold_mergeInto (ds : list CELParseResult) parent :
  ∀ r, default [] (nestedConstraints (fold_left mergeInto ds r) !! parent)
       = default [] (nestedConstraints r !! parent)
         ++ concat ((λ d, default [] (nestedConstraints d !! parent)) <$> ds).
Proof.
  induction ds as [|d ds IH]; intros r; cbn [fold_left fmap list_fmap concat].
  - by rewrite app_nil_r.
  - rewrite IH. cbn. rewrite lookup_union_with.
    rewrite app_assoc. f_equal.
    by destruct (nestedConstraints r !! parent),
         (nestedConstraints d !! parent); cbn;
      rewrite ?app_nil_r.
Qed.

Lemma elem_of_concat {A} (x : A) (ls : list (list A)) :
  x ∈ concat ls ↔ ∃ l, x ∈ l ∧ l ∈ ls.
Proof.
  rewrite list_elem_of_In, in_concat. split.
  - intros (l & Hl & Hx). exists l. by rewrite !list_elem_of_In.
  - intros (l & Hx & Hl). exists l. by rewrite <- !list_elem_of_In.
Qed.

Lemma uniqueChildren_ext (l1 l2 : list string) :
  Js.uniq l1 = Js.uniq l2 → uniqueChildren l1 = uniqueChildren l2.
Proof.
  unfold uniqueChildren.
  intros Heq. destruct l1 as [|x1 t1], l2 as [|x2 t2]; try done.
  by rewrite Heq.
Qed.

(** A result without fields of its own: what a blank or failing expression
    gives. *)
Lemma analyze_failure_fields text :
  Js.trim text = "" ∨ parse text = Parsed None
  ∨ (∃ msg, parse text = Throws msg) →
  readOnlyFields (analyze text) = []
  ∧ unionGroups (analyze text) = []
  ∧ nestedConstraints (analyze text) = ∅.
Proof.
  unfold parseCELExpression. case_bool_decide as Hblank; [done|].
  intros [?|[->|[msg ->]]]; done.
Qed.

(** X11. With a [snakeToCamel] that leaves its own values alone,
    [getReadOnlyFields] returns the read-only fields of all rules of the
    message, in order of first occurrence and without duplicates. *)
Theorem X11_read_only_fields_of_a_message message cel :
  (∀ s, snakeToCamel (snakeToCamel s) = snakeToCamel s) →
  getOption message = LookupRules cel →
  readOnlyOf message = Js.uniq (concat (readOnlyFields <$> results cel))
  ∧ NoDup (readOnlyOf message)
  ∧ ∀ x, x ∈ readOnlyOf message
         ↔ ∃ constraint, constraint ∈ cel
             ∧ x ∈ readOnlyFields (analyze (expression constraint)).
Proof.
  intros Hidem Hopt.
  assert (readOnlyOf message
          = Js.uniq (concat (readOnlyFields <$> results cel))) as Heq.
  { rewrite (getReadOnlyFields_rules _ _ _ _ _ Hopt).
    rewrite <- (list_fmap_id (Js.uniq _)) at 2.
    apply list_fmap_ext. intros i x Hx.
    apply list_elem_of_lookup_2, uniq_elem_of, elem_of_concat in Hx
      as (l & Hxl & Hl).
    apply list_elem_of_fmap in Hl as (r & -> & Hr).
    apply list_elem_of_fmap in Hr as (c & -> & Hc).
    apply analyze_readOnlyFields_camelCased in Hxl as [s ->].
    rewrite Hidem. by destruct (Js.includes _ _). }
  split; [done|]. rewrite Heq. split; [apply uniq_NoDup|].
  intros x. rewrite uniq_elem_of, elem_of_concat. split.
  - intros (l & Hxl & Hl).
    apply list_elem_of_fmap in Hl as (r & -> & Hr).
    apply list_elem_of_fmap in Hr as (c & -> & Hc). by exists c.
  - intros (c & Hc & Hx). eexists. split; [exact Hx|].
    apply list_elem_of_fmap. eexists. split; [done|].
    apply list_elem_of_fmap. by exists c.
Qed.

(** X12. [getNestedReadOnlyFields] maps a parent to the children that the
    rules of the message record under it, rule after rule, without
    duplicates; a parent that no rule mentions is absent, and no parent has
    an empty list. *)
Theorem X12_nested_constraints_of_a_message message cel parent :
  getOption message = LookupRules cel →
  nestedOf message !! parent
  = uniqueChildren (childrenUnder parent (results cel))
  ∧ childrenNonEmpty (nestedOf message)
  ∧ ∀ children, nestedOf message !! parent = Some children → NoDup children.
Proof.
  intros Hopt.
  pose proof (getNestedReadOnlyFields_rules snakeToCamel parse
                typeErrorMessage message cel) as Hlookup.
  split; [by apply Hlookup|]. split.
  - intros k children. rewrite Hlookup by done. unfold uniqueChildren.
    destruct (childrenUnder k (results cel)) as [|x t] eqn:Hk; [done|].
    intros [= <-]. by rewrite uniq_nil_iff.
  - intros children. rewrite Hlookup by done. unfold uniqueChildren.
    destruct (childrenUnder parent (results cel)); [done|].
    intros [= <-]. apply uniq_NoDup.
Qed.

(** X13. [getUnionGroups] lists the union groups of all rules of the
    message in rule order; every group it returns constrains something and
    none records a parent without children. *)
Theorem X13_union_groups_of_a_message message cel :
  getOption message = LookupRules cel →
  unionGroupsOf message = concat (unionGroups <$> results cel)
  ∧ Forall branchNonEmpty (unionGroupsOf message)
  ∧ Forall (λ br, childrenNonEmpty (UnionBranch.nestedConstraints br))
           (unionGroupsOf message).
Proof.
  intros Hopt. rewrite (getUnionGroups_rules _ _ _ _ _ Hopt).
  split; [done|]. split.
  - unfold ruleResults.
    apply Forall_concat, Forall_fmap, Forall_fmap, Forall_true. intros c.
    apply analyze_branchNonEmpty.
  - unfold ruleResults.
    apply Forall_concat, Forall_fmap, Forall_fmap, Forall_true. intros c. cbn.
    apply analyze_childrenNonEmpty.
Qed.

Lemma children_deduplicateResult (r : CELParseResult) parent :
  default [] (nestedConstraints (deduplicateResult r) !! parent)
  = Js.uniq (default [] (nestedConstraints r !! parent)).
Proof. cbn. rewrite lookup_fmap. by destruct (nestedConstraints r !! parent). Qed.

Lemma ruleResults_parsed cel (es : list Expr) :
  Forall2 (λ constraint e,
             Js.trim (expression constraint) ≠ ""
             ∧ parse (expression constraint) = Parsed (Some e)
             ∧ isAbrupt (visit e fresh) = false) cel es →
  ∃ ds, Forall2 (λ e d, visit e fresh = Normal d) es ds
        ∧ results cel = deduplicateResult <$> ds.
Proof.
  unfold ruleResults.
  induction 1 as [|c e cel es (Hc & He & [d Hd]%isAbrupt_false) _ (ds & Hds & IH)].
  - by exists [].
  - exists (d :: ds). split; [by constructor|].
    cbn [fmap list_fmap]. by rewrite IH, (parseCELExpression_normal _ _ _ _ e d).
Qed.

(** X14. Splitting a conjunction over several rules changes nothing for
    the plugin, as long as the visitor throws on none of them: rules whose
    expressions parse to [e1 .. en] give the same read-only fields, union
    groups and nested constraints as one rule whose expression parses to
    their conjunction. *)
Theorem X14_rules_act_as_their_conjunction
    message1 message2 cel (es : list Expr) conjunction :
  getOption message1 = LookupRules cel →
  getOption message2 = LookupRules [conjunction] →
  Forall2 (λ constraint e,
             Js.trim (expression constraint) ≠ ""
             ∧ parse (expression constraint) = Parsed (Some e)
             ∧ isAbrupt (visit e fresh) = false) cel es →
  Js.trim (expression conjunction) ≠ "" →
  parse (expression conjunction) = Parsed (Some (andE es)) →
  readOnlyOf message1 = readOnlyOf message2
  ∧ unionGroupsOf message1 = unionGroupsOf message2
  ∧ nestedOf message1 = nestedOf message2.
Proof.
  intros Hopt1 Hopt2 Hrules Htrim Hparse.
  destruct (ruleResults_parsed cel es Hrules) as (ds & Hds & Hcel).
  assert (results [conjunction]
          = [deduplicateResult (fold_left mergeInto ds fresh)]) as Hconj.
  { unfold ruleResults. cbn [fmap list_fmap].
    rewrite (parseCELExpression_normal _ _ _ _ (andE es)
               (fold_left mergeInto ds fresh)); try done.
    apply visit_and_scopes; [done|apply plainKeys_fresh]. }
  split; [|split].
  - rewrite (getReadOnlyFields_rules _ _ _ _ _ Hopt1).
    rewrite (getReadOnlyFields_rules _ _ _ _ _ Hopt2).
    f_equal. rewrite Hcel, Hconj. cbn [fmap list_fmap concat].
    rewrite app_nil_r, <- list_fmap_compose.
    change (readOnlyFields ∘ deduplicateResult)
      with (Js.uniq ∘ readOnlyFields).
    change (readOnlyFields (deduplicateResult (fold_left mergeInto ds fresh)))
      with (Js.uniq (readOnlyFields (fold_left mergeInto ds fresh))).
    rewrite list_fmap_compose, uniq_concat_uniq, uniq_idemp.
    by rewrite readOnlyFields_fold_mergeInto.
  - rewrite (getUnionGroups_rules _ _ _ _ _ Hopt1).
    rewrite (getUnionGroups_rules _ _ _ _ _ Hopt2).
    rewrite Hcel, Hconj. cbn [fmap list_fmap concat].
    rewrite app_nil_r, <- list_fmap_compose.
    change (unionGroups ∘ deduplicateResult) with unionGroups.
    change (unionGroups (deduplicateResult (fold_left mergeInto ds fresh)))
      with (unionGroups (fold_left mergeInto ds fresh)).
    by rewrite unionGroups_fold_mergeInto.
  - apply map_eq. intros parent.
    rewrite (getNestedReadOnlyFields_rules _ _ _ _ _ _ Hopt1).
    rewrite (getNestedReadOnlyFields_rules _ _ _ _ _ _ Hopt2).
    apply uniqueChildren_ext. rewrite Hcel, Hconj. unfold childrenUnder.
    cbn [fmap list_fmap concat]. rewrite app_nil_r, <- list_fmap_compose.
    rewrite (list_fmap_ext _
               (Js.uniq ∘ (λ d, default [] (nestedConstraints d !! parent))))
      by (intros i d _; apply children_deduplicateResult).
    rewrite list_fmap_compose, uniq_concat_uniq.
    rewrite children_deduplicateResult, uniq_idemp.
    rewrite children_fold_mergeInto.
    change (nestedConstraints fresh) with (∅ : gmap string (list string)).
    by rewrite lookup_empty.
Qed.

(** A rule whose result has no read-only fields, no union groups and no
    nested constraints can be left out. *)
Lemma rule_without_fields_is_dropped
    message1 message2 (before after : list Rule) constraint :
  getOption message1 = LookupRules (before ++ constraint :: after) →
  getOption message2 = LookupRules (before ++ after) →
  members message1 = members message2 →
  readOnlyFields (analyze (expression constraint)) = [] →
  unionGroups (analyze (expression constraint)) = [] →
  nestedConstraints (analyze (expression constraint)) = ∅ →
  readOnlyOf message1 = readOnlyOf message2
  ∧ unionGroupsOf message1 = unionGroupsOf message2
  ∧ nestedOf message1 = nestedOf message2
  ∧ shapeOf message1 = shapeOf message2.
Proof.
  intros Hopt1 Hopt2 Hmembers Hro Hug Hnested.
  assert (readOnlyOf message1 = readOnlyOf message2) as Hro_eq.
  { rewrite (getReadOnlyFields_rules _ _ _ _ _ Hopt1).
    rewrite (getReadOnlyFields_rules _ _ _ _ _ Hopt2).
    unfold ruleResults. rewrite !fmap_app. cbn [fmap list_fmap].
    rewrite !concat_app. cbn [concat]. by rewrite Hro. }
  assert (unionGroupsOf message1 = unionGroupsOf message2) as Hug_eq.
  { rewrite (getUnionGroups_rules _ _ _ _ _ Hopt1).
    rewrite (getUnionGroups_rules _ _ _ _ _ Hopt2).
    unfold ruleResults. rewrite !fmap_app. cbn [fmap list_fmap].
    rewrite !concat_app. cbn [concat]. by rewrite Hug. }
  assert (nestedOf message1 = nestedOf message2) as Hnested_eq.
  { apply map_eq. intros parent.
    rewrite (getNestedReadOnlyFields_rules _ _ _ _ _ _ Hopt1).
    rewrite (getNestedReadOnlyFields_rules _ _ _ _ _ _ Hopt2).
    unfold childrenUnder, ruleResults. rewrite !fmap_app. cbn [fmap list_fmap].
    rewrite !concat_app. cbn [concat]. by rewrite Hnested, lookup_empty. }
  repeat split; try done.
  unfold generateMessageShape. by rewrite Hro_eq, Hug_eq, Hnested_eq, Hmembers.
Qed.

(** X15. A rule whose expression is blank, or on which the parser throws
    or returns no expression, counts for nothing: read-only fields, union
    groups, nested constraints and the alternatives of the shape are those
    of the message without that rule. The error message of the analysis is
    read by no getter. *)
Theorem X15_failing_rules_are_dropped
    message1 message2 (before after : list Rule) constraint :
  getOption message1 = LookupRules (before ++ constraint :: after) →
  getOption message2 = LookupRules (before ++ after) →
  members message1 = members message2 →
  Js.trim (expression constraint) = ""
  ∨ parse (expression constraint) = Parsed None
  ∨ (∃ msg, parse (expression constraint) = Throws msg) →
  readOnlyOf message1 = readOnlyOf message2
  ∧ unionGroupsOf message1 = unionGroupsOf message2
  ∧ nestedOf message1 = nestedOf message2
  ∧ shapeOf message1 = shapeOf message2.
Proof.
  intros Hopt1 Hopt2 Hmembers Hfail.
  destruct (analyze_failure_fields _ Hfail) as (Hro & Hug & Hnested).
  by apply (rule_without_fields_is_dropped _ _ before after constraint).
Qed.

Lemma processEqualityPair_pin a b r :
  isTopLevelPin a b = true →
  ∃ key value,
    processEqualityPair snakeToCamel a b r
    = Normal (set_literalFields (Js.assign key value (literalFields r)) r)
    ∧ ∀ r', processEqualityPair snakeToCamel b a r' = Normal r'.
Proof.
  unfold isTopLevelPin, processEqualityPair.
  destruct (truthyPath (extractFieldPath a)) as [path|] eqn:Ha; [|done].
  destruct (extractConstant b) as [v|] eqn:Hb; [|done].
  intros ->. exists (snakeToCamel path), v. split; [done|].
  intros r'. rewrite (const_not_path b v Hb). cbn. by destruct (extractConstant a).
Qed.

(** An expression that only pins top-level fields returns, and touches
    the literals only. *)
Lemma visit_pinsOnly e :
  pinsOnly e = true →
  ∀ r, ∃ r', visit e r = Normal r'
             ∧ readOnlyFields r' = readOnlyFields r
             ∧ unionGroups r' = unionGroups r
             ∧ nestedConstraints r' = nestedConstraints r.
Proof.
  induction e as [e Hleaf|fn args IH] using Expr_call_ind.
  - destruct e as [| | | |fn args| | |]; try done. by destruct (Hleaf fn args).
  - cbn [pinsOnly visitExpr]. repeat case_bool_decide; subst; try done.
    + intros Hall r. rewrite forallb_forall in Hall.
      change (handleAnd visit args r) with (visit (andE args) r). revert r.
      induction IH as [|a args Ha _ IHargs]; intros r; [by exists r|].
      rewrite visit_and_cons.
      destruct (Ha (Hall a (or_introl eq_refl)) r) as (r1 & -> & <- & <- & <-).
      cbn [andThen]. apply IHargs. intros x Hx. apply Hall. by right.
    + destruct args as [|a [|b [|]]]; try done.
      intros [Hpin|Hpin]%orb_true_iff r; cbn [handleEquality].
      * destruct (processEqualityPair_pin a b r Hpin) as (key & v & -> & Hback).
        cbn [andThen]. rewrite Hback. by eexists.
      * destruct (processEqualityPair_pin b a r Hpin) as (key & v & _ & ->).
        cbn [andThen].
        destruct (processEqualityPair_pin b a r Hpin) as (? & ? & -> & _).
        by eexists.
Qed.

(** X20. The plugin does not read the literals. A rule whose expression
    only pins top-level fields to constants, in one equality or in a
    conjunction of them, changes nothing: read-only fields, union groups,
    nested constraints and the alternatives of the shape are those of the
    message without it. *)
Theorem X20_pinned_literals_do_not_reach_the_shape
    message1 message2 (before after : list Rule) constraint (e : Expr) :
  getOption message1 = LookupRules (before ++ constraint :: after) →
  getOption message2 = LookupRules (before ++ after) →
  members message1 = members message2 →
  Js.trim (expression constraint) ≠ "" →
  parse (expression constraint) = Parsed (Some e) →
  pinsOnly e = true →
  readOnlyOf message1 = readOnlyOf message2
  ∧ unionGroupsOf message1 = unionGroupsOf message2
  ∧ nestedOf message1 = nestedOf message2
  ∧ shapeOf message1 = shapeOf message2.
Proof.
  intros Hopt1 Hopt2 Hmembers Htrim Hparse Hpins.
  destruct (visit_pinsOnly e Hpins fresh) as (d & Hd & Hro & Hug & Hnested).
  apply (rule_without_fields_is_dropped _ _ before after constraint);
    try done;
    rewrite (parseCELExpression_normal _ _ _ _ _ _ Htrim Hparse Hd);
    unfold deduplicateResult.
  - cbn [readOnlyFields]. by rewrite Hro.
  - cbn [unionGroups]. by rewrite Hug.
  - cbn [nestedConstraints]. rewrite Hnested.
    change (nestedConstraints fresh) with (∅ : gmap string (list string)).
    by rewrite fmap_empty.
Qed.

End GetterExtras.

(** * Properties of the alternatives of a message shape *)

Section ShapeFacts.

Implicit Types (store : gmap string (list string))
  (merged : gmap string ArrayRef) (group : UnionBranch.t)
  (groups : list UnionBranch.t) (key parent : string).

Lemma spreadCopy_lookup store key :
  spreadCopy store !! key = (λ _, SharedArray key) <$> store !! key.
Proof.
  unfold spreadCopy. rewrite map_lookup_imap. by destruct (store !! key).
Qed.

(** One entry of a group, for a key that the copy still shares with the
    message-level object or does not have: the push goes through to the
    message-level array, the deduplicated array stays in the copy. *)
Lemma mergeGroupEntry_shared store merged key (fields : list string) :
  merged !! key = (λ _, SharedArray key) <$> store !! key →
  mergeGroupEntry (store, merged) (key, fields)
  = (alter (λ items, items ++ fields) key store,
     <[key := OwnArray (Js.uniq (default [] (store !! key) ++ fields))]> merged).
Proof.
  intros Hkey. unfold mergeGroupEntry. cbn [fst snd].
  destruct (store !! key) as [items|] eqn:Hstore; cbn in Hkey; rewrite Hkey.
  - rewrite Hkey. cbn [fst snd]. rewrite Hkey. cbn [readArray].
    by rewrite lookup_alter_eq, Hstore.
  - rewrite lookup_insert_eq. cbn [fst snd]. rewrite lookup_insert_eq.
    cbn [readArray default app]. rewrite !insert_insert_eq. f_equal.
    apply map_eq. intros i. destruct (decide (key = i)) as [<-|Hne].
    + by rewrite lookup_alter_eq, Hstore.
    + by rewrite lookup_alter_ne.
Qed.

Lemma fold_mergeGroupEntry (entries : list (string * list string)) :
  ∀ store merged,
    NoDup entries.*1 →
    (∀ key, key ∈ entries.*1 →
       merged !! key = (λ _, SharedArray key) <$> store !! key) →
    ∀ key,
      (fold_left mergeGroupEntry entries (store, merged)).1 !! key
      = match (list_to_map entries : gmap string (list string)) !! key with
        | Some fields => (λ items, items ++ fields) <$> store !! key
        | None => store !! key
        end
      ∧ (fold_left mergeGroupEntry entries (store, merged)).2 !! key
        = match (list_to_map entries : gmap string (list string)) !! key with
          | Some fields =>
              Some (OwnArray (Js.uniq (default [] (store !! key) ++ fields)))
          | None => merged !! key
          end.
Proof.
  induction entries as [|[k fields] entries IH]; intros store merged Hnd Hshared key.
  - cbn. by rewrite lookup_empty.
  - cbn in Hnd. apply NoDup_cons in Hnd as [Hk Hnd].
    cbn [fold_left]. rewrite mergeGroupEntry_shared
      by (apply Hshared; cbn; apply list_elem_of_here).
    assert ((list_to_map entries : gmap string (list string)) !! k = None)
      as Hfresh by by apply not_elem_of_list_to_map_1.
    destruct (IH (alter (λ items, items ++ fields) k store)
                 (<[k := OwnArray (Js.uniq (default [] (store !! k) ++ fields))]>
                    merged) Hnd) with (key := key) as [Hstore Hmerged].
    { intros key' Hkey'. assert (k ≠ key') as Hne by by intros ->.
      rewrite lookup_insert_ne, lookup_alter_ne by done.
      apply Hshared. cbn. by apply list_elem_of_further. }
    rewrite Hstore, Hmerged. cbn [list_to_map foldr fst snd].
    destruct (decide (k = key)) as [<-|Hne].
    + by rewrite lookup_insert_eq, Hfresh, lookup_alter_eq, lookup_insert_eq.
    + by rewrite !lookup_insert_ne, lookup_alter_ne by done.
Qed.

(** What one group does: to the message-level object, and in the
    constraints of its alternative. *)
Lemma groupAlternative_lookup readOnly (ms : list DescMember) store group parent :
  (groupAlternative readOnly ms store group).1 !! parent
  = match UnionBranch.nestedConstraints group !! parent with
    | Some fields => (λ items, items ++ fields) <$> store !! parent
    | None => store !! parent
    end
  ∧ shapeConstraints (groupAlternative readOnly ms store group).2 !! parent
    = match UnionBranch.nestedConstraints group !! parent with
      | Some fields => Some (Js.uniq (default [] (store !! parent) ++ fields))
      | None => store !! parent
      end.
Proof.
  unfold groupAlternative. cbn [fst snd shapeConstraints].
  destruct (fold_mergeGroupEntry
              (map_to_list (UnionBranch.nestedConstraints group))
              store (spreadCopy store)) with (key := parent) as [Hstore Hmerged].
  { apply NoDup_fst_map_to_list. }
  { intros key _. apply spreadCopy_lookup. }
  rewrite list_to_map_to_list in Hstore, Hmerged.
  split; [done|]. rewrite lookup_fmap, Hmerged.
  destruct (UnionBranch.nestedConstraints group !! parent) as [fields|] eqn:Hg;
    [done|].
  rewrite spreadCopy_lookup.
  destruct (store !! parent) as [items|] eqn:Hs; [|done].
  cbn [fmap option_fmap option_map readArray]. by rewrite Hstore.
Qed.

Lemma unionAlternatives_cons readOnly (ms : list DescMember) store group groups :
  unionAlternatives readOnly ms store (group :: groups)
  = (groupAlternative readOnly ms store group).2
    :: unionAlternatives readOnly ms
         (groupAlternative readOnly ms store group).1 groups.
Proof.
  unfold unionAlternatives. cbn [fold_left fst snd app].
  generalize (groupAlternative readOnly ms store group).1 as store'.
  generalize (groupAlternative readOnly ms store group).2 as alt.
  intros alt store'.
  enough (∀ acc store0,
            (fold_left
               (λ acc g,
                  ((groupAlternative readOnly ms acc.1 g).1,
                   acc.2 ++ [(groupAlternative readOnly ms acc.1 g).2]))
               groups (store0, acc)).2
            = acc ++ (fold_left
                        (λ acc g,
                           ((groupAlternative readOnly ms acc.1 g).1,
                            acc.2 ++ [(groupAlternative readOnly ms acc.1 g).2]))
                        groups (store0, [])).2) as H
    by apply (H [alt]).
  induction groups as [|g groups IH]; intros acc store0; cbn [fold_left fst snd].
  - by rewrite app_nil_r.
  - rewrite IH. rewrite (IH ([] ++ _)). by rewrite app_assoc.
Qed.

(** The alternative of the group that comes after the groups [earlier], and
    the message-level object at that point. *)
Lemma unionAlternatives_lookup readOnly (ms : list DescMember) group later parent :
  ∀ earlier store,
    ∃ alt,
      unionAlternatives readOnly ms store (earlier ++ group :: later)
        !! length earlier = Some alt
      ∧ shapeMembers alt
        = filter (λ member,
                    skipsMember readOnly (UnionBranch.readOnlyFields group) member
                    = false) ms
      ∧ shapeConstraints alt !! parent
        = match UnionBranch.nestedConstraints group !! parent with
          | Some fields =>
              Some (Js.uniq
                      (default []
                         ((λ items, items ++ groupChildrenUnder parent earlier)
                            <$> store !! parent) ++ fields))
          | None =>
              (λ items, items ++ groupChildrenUnder parent earlier)
                <$> store !! parent
          end.
Proof.
  induction earlier as [|g earlier IH]; intros store.
  - cbn [app length]. rewrite unionAlternatives_cons. eexists.
    split; [done|]. split; [done|].
    destruct (groupAlternative_lookup readOnly ms store group parent) as [_ ->].
    unfold groupChildrenUnder. cbn [fmap list_fmap concat].
    destruct (store !! parent); cbn; by rewrite ?app_nil_r.
  - cbn [app length]. rewrite unionAlternatives_cons.
    destruct (IH (groupAlternative readOnly ms store g).1)
      as (alt & Halt & Hmembers & Hconstraints).
    exists alt. split; [done|]. split; [done|].
    rewrite Hconstraints.
    destruct (groupAlternative_lookup readOnly ms store g parent) as [-> _].
    unfold groupChildrenUnder. cbn [fmap list_fmap concat].
    destruct (UnionBranch.nestedConstraints g !! parent) as [fields|],
      (store !! parent) as [items|]; cbn; by rewrite <- ?app_assoc.
Qed.

End ShapeFacts.

Section ShapeExtras.

Implicit Types (store : gmap string (list string)) (group : UnionBranch.t)
  (groups : list UnionBranch.t) (parent : string).

(** X16. The alternative printed for a union group omits the fields that
    are read-only for the message or for the group, and excludes under each
    parent that the group mentions the children of the message-level
    constraints, those that the earlier groups pushed onto the shared
    array, and the group's own, without duplicates. There is one
    alternative per group, in order. *)
Theorem X16_alternative_of_a_union_group
    readOnly (ms : list DescMember) store (earlier later : list UnionBranch.t)
    group parent :
  length (unionAlternatives readOnly ms store (earlier ++ group :: later))
  = length (earlier ++ group :: later)
  ∧ ∃ alt,
      unionAlternatives readOnly ms store (earlier ++ group :: later)
        !! length earlier = Some alt
      ∧ shapeMembers alt
        = filter (λ member,
                    skipsMember readOnly (UnionBranch.readOnlyFields group) member
                    = false) ms
      ∧ shapeConstraints alt !! parent
        = match UnionBranch.nestedConstraints group !! parent with
          | Some fields =>
              Some (Js.uniq
                      (default []
                         ((λ items, items ++ groupChildrenUnder parent earlier)
                            <$> store !! parent) ++ fields))
          | None =>
              (λ items, items ++ groupChildrenUnder parent earlier)
                <$> store !! parent
          end.
Proof.
  split; [|apply unionAlternatives_lookup].
  generalize (earlier ++ group :: later) as groups. intros groups. revert store.
  induction groups as [|g groups IH]; intros store; [done|].
  rewrite unionAlternatives_cons. cbn [length]. by rewrite IH.
Qed.

(** X17. The nested constraints of one union group leak into the
    alternatives of the groups after it: when the message-level
    constraints already have the parent, a child that an earlier group
    records under it is excluded in every later alternative as well. When
    the message-level constraints do not have the parent, the alternative
    excludes the group's own children only. *)
Theorem X17_group_children_leak_into_later_alternatives
    readOnly (ms : list DescMember) store (earlier between later : list UnionBranch.t)
    first group parent child items fields alt :
  unionAlternatives readOnly ms store
    (earlier ++ first :: between ++ group :: later)
    !! length (earlier ++ first :: between) = Some alt →
  UnionBranch.nestedConstraints first !! parent = Some fields →
  child ∈ fields →
  (store !! parent = Some items →
     ∃ children, shapeConstraints alt !! parent = Some children
                 ∧ child ∈ children)
  ∧ (store !! parent = None →
       shapeConstraints alt !! parent
       = Js.uniq <$> UnionBranch.nestedConstraints group !! parent).
Proof.
  intros Halt Hfirst Hchild.
  destruct (unionAlternatives_lookup readOnly ms group later parent
              (earlier ++ first :: between) store)
    as (alt' & Halt' & _ & Hconstraints).
  rewrite <- app_assoc in Halt'. cbn [app] in Halt'.
  rewrite Halt in Halt'. injection Halt' as <-.
  assert (child ∈ groupChildrenUnder parent (earlier ++ first :: between))
    as Hleak.
  { unfold groupChildrenUnder. rewrite fmap_app, concat_app.
    cbn [fmap list_fmap concat]. rewrite Hfirst. cbn [default].
    rewrite !elem_of_app. right. by left. }
  split.
  - intros Hstore. rewrite Hconstraints, Hstore. cbn.
    destruct (UnionBranch.nestedConstraints group !! parent) as [own|].
    + eexists. split; [done|]. rewrite uniq_elem_of, !elem_of_app.
      left. by right.
    + eexists. split; [done|]. rewrite elem_of_app. by right.
  - intros Hstore. rewrite Hconstraints, Hstore. cbn.
    by destruct (UnionBranch.nestedConstraints group !! parent).
Qed.

End ShapeExtras.

(** * Properties of the plugin options *)

Section OptionFacts.

Implicit Types (options : list (string * string)) (option : string * string)
  (parts : list string) (types : ValidTypes) (state : Options).

Lemma forEach_from_threw {A B} (body : A → B → Outcome A) (items : list B) thrown :
  fold_left
    (λ acc item,
       match acc with
       | Returned st => body st item
       | Threw t => Threw t
       end) items (Threw thrown)
  = Threw thrown.
Proof. by induction items. Qed.

Lemma forEach_cons {A B} (body : A → B → Outcome A) item (items : list B) start :
  forEach body (item :: items) start
  = match body start item with
    | Returned st => forEach body items st
    | Threw thrown => Threw thrown
    end.
Proof.
  unfold forEach. cbn [fold_left].
  destruct (body start item); [done|apply forEach_from_threw].
Qed.

Lemma forEach_app {A B} (body : A → B → Outcome A) (items1 items2 : list B) :
  ∀ start,
    forEach body (items1 ++ items2) start
    = match forEach body items1 start with
      | Returned st => forEach body items2 st
      | Threw thrown => Threw thrown
      end.
Proof.
  induction items1 as [|item items1 IH]; intros start; [done|].
  cbn [app]. rewrite !forEach_cons. destruct (body start item); [apply IH|done].
Qed.

Lemma valid_types_parts_accepted parts :
  ∀ types,
    Forall (λ part, part = "protovalidate_required" ∨ part = "legacy_required")
           parts →
    forEach parseValidTypesPart parts types
    = Returned
        (mkValidTypes
           (legacyRequired types || bool_decide ("legacy_required" ∈ parts))
           (protovalidateRequired types
            || bool_decide ("protovalidate_required" ∈ parts))).
Proof.
  induction parts as [|part parts IH]; intros types Hparts.
  - destruct types as [l p]. cbn. by rewrite !orb_false_r.
  - apply Forall_cons in Hparts as [Hpart Hparts].
    rewrite forEach_cons. unfold parseValidTypesPart.
    destruct Hpart as [->| ->].
    + rewrite bool_decide_eq_true_2 by done. rewrite IH by done.
      cbn [legacyRequired protovalidateRequired]. f_equal. f_equal.
      * f_equal. apply bool_decide_ext. rewrite elem_of_cons.
        split; [by right|]. by intros [?|?].
      * rewrite (bool_decide_eq_true_2 (_ ∈ _ :: _)) by apply list_elem_of_here.
        by rewrite orb_true_r.
    + rewrite bool_decide_eq_false_2 by done.
      rewrite bool_decide_eq_true_2 by done. rewrite IH by done.
      cbn [legacyRequired protovalidateRequired]. f_equal. f_equal.
      * rewrite (bool_decide_eq_true_2 (_ ∈ _ :: _)) by apply list_elem_of_here.
        by rewrite orb_true_r.
      * f_equal. apply bool_decide_ext. rewrite elem_of_cons.
        split; [by right|]. by intros [?|?].
Qed.

Lemma valid_types_parts_rejected parts :
  ∀ types,
    ¬ Forall (λ part, part = "protovalidate_required" ∨ part = "legacy_required")
             parts →
    forEach parseValidTypesPart parts types = Threw ThrownError.
Proof.
  induction parts as [|part parts IH]; intros types Hparts.
  - by destruct Hparts.
  - rewrite forEach_cons. unfold parseValidTypesPart.
    case_bool_decide as Hp; [|case_bool_decide as Hl; [|done]].
    + apply IH. intros Hrest. apply Hparts. constructor; [by left|done].
    + apply IH. intros Hrest. apply Hparts. constructor; [by right|done].
Qed.

(** The options as [parseOptions] returns them when it returns. *)
Lemma lastFlag_snoc key options option :
  lastFlag key (options ++ [option])
  = if bool_decide (option.1 = key) then bool_decide (option.2 ∈ ["true"; "1"])
    else lastFlag key options.
Proof.
  unfold lastFlag. rewrite filter_app, filter_cons, filter_nil.
  case_bool_decide as Hkey.
  - rewrite decide_True by done. by rewrite last_snoc.
  - rewrite decide_False by done. by rewrite app_nil_r.
Qed.

Lemma namesPart_snoc part options option :
  namesPart part (options ++ [option])
  = namesPart part options
    || bool_decide (option.1 = "valid_types" ∧ part ∈ Js.split "+" option.2).
Proof.
  unfold namesPart. apply eq_true_iff_eq.
  rewrite orb_true_iff, !bool_decide_eq_true, Exists_app, Exists_cons, Exists_nil.
  tauto.
Qed.

Lemma parseOptions_snoc options option :
  parseOptions (options ++ [option])
  = match parseOptions options with
    | Returned state => parseOption state option
    | Threw thrown => Threw thrown
    end.
Proof.
  unfold parseOptions. rewrite forEach_app.
  destruct (forEach parseOption options _); [|done].
  rewrite forEach_cons. by destruct (parseOption value option).
Qed.

Lemma parseOption_json_types state value :
  parseOption state ("json_types", value)
  = match parseFlag value with
    | Returned flag =>
        Returned (mkOptions flag (validTypes state) (celValidation state))
    | Threw thrown => Threw thrown
    end.
Proof. reflexivity. Qed.

Lemma parseOption_cel_validation state value :
  parseOption state ("cel_validation", value)
  = match parseFlag value with
    | Returned flag =>
        Returned (mkOptions (jsonTypes state) (validTypes state) flag)
    | Threw thrown => Threw thrown
    end.
Proof. reflexivity. Qed.

Lemma parseOption_valid_types state value :
  parseOption state ("valid_types", value)
  = match forEach parseValidTypesPart (Js.split "+" value) (validTypes state) with
    | Returned types =>
        Returned (mkOptions (jsonTypes state) types (celValidation state))
    | Threw thrown => Threw thrown
    end.
Proof. reflexivity. Qed.

Lemma parseOption_accepted state option :
  acceptedOption option → ∃ state', parseOption state option = Returned state'.
Proof.
  destruct option as [key value].
  intros [[Hkey Hvalue]|[[Hkey Hvalue]|[Hkey Hparts]]]; cbn [fst snd] in *;
    subst key.
  - rewrite parseOption_json_types. unfold parseFlag.
    rewrite bool_decide_eq_true_2 by done. by eexists.
  - rewrite parseOption_cel_validation. unfold parseFlag.
    rewrite bool_decide_eq_true_2 by done. by eexists.
  - rewrite parseOption_valid_types, valid_types_parts_accepted by done.
    by eexists.
Qed.

Lemma parseOptions_accepted options :
  Forall acceptedOption options → ∃ state, parseOptions options = Returned state.
Proof.
  induction options as [|option options IH] using rev_ind; intros Hall.
  - by eexists.
  - apply Forall_app in Hall as [Hall Hoption].
    apply Forall_cons in Hoption as [Hoption _].
    destruct (IH Hall) as [state Hstate].
    rewrite parseOptions_snoc, Hstate. by apply parseOption_accepted.
Qed.

Lemma parseOption_rejected state option :
  ¬ acceptedOption option →
  parseOption state option
  = Threw (if bool_decide (option.1 = "json_types" ∨ option.1 = "cel_validation")
           then ThrownText "please provide true or false"
           else ThrownError).
Proof.
  destruct option as [key value]. unfold acceptedOption. cbn [fst snd].
  intros Hrejected. unfold parseOption. cbn [fst snd].
  case_bool_decide as Hjson.
  { rewrite bool_decide_eq_true_2 by by left.
    unfold parseFlag. case_bool_decide as Hvalue; [|done].
    destruct Hrejected. by left. }
  case_bool_decide as Hvalid.
  { subst key. rewrite bool_decide_eq_false_2 by by intros [?|?].
    rewrite valid_types_parts_rejected; [done|].
    intros Hparts. destruct Hrejected. right. by right. }
  case_bool_decide as Hcel.
  { rewrite bool_decide_eq_true_2 by by right.
    unfold parseFlag. case_bool_decide as Hvalue; [|done].
    destruct Hrejected. right. by left. }
  by rewrite bool_decide_eq_false_2 by by intros [?|?].
Qed.

End OptionFacts.

Section OptionExtras.

Implicit Types (options : list (string * string)) (option : string * string).

(** X18. When every option is one that [parseOptions] accepts, it
    returns: each flag has the value of the last option that sets it (false
    when none does), and a requirement of [valid_types] is on exactly when
    some [valid_types] option names it. Requirements are never switched
    off again. *)
Theorem X18_accepted_options_are_returned options :
  Forall acceptedOption options →
  parseOptions options
  = Returned
      (mkOptions
         (lastFlag "json_types" options)
         (mkValidTypes (namesPart "legacy_required" options)
                       (namesPart "protovalidate_required" options))
         (lastFlag "cel_validation" options)).
Proof.
  induction options as [|option options IH] using rev_ind; intros Hall.
  - reflexivity.
  - apply Forall_app in Hall as [Hall Hoption].
    apply Forall_cons in Hoption as [Hoption _].
    rewrite parseOptions_snoc, IH by done.
    rewrite !lastFlag_snoc, !namesPart_snoc.
    destruct option as [key value].
    destruct Hoption as [[Hkey Hvalue]|[[Hkey Hvalue]|[Hkey Hparts]]];
      cbn [fst snd] in *; subst key.
    + rewrite parseOption_json_types. unfold parseFlag.
      rewrite (bool_decide_eq_true_2 (value ∈ _)) by done.
      rewrite (bool_decide_eq_true_2 ("json_types" = "json_types")) by done.
      rewrite (bool_decide_eq_false_2 ("json_types" = "cel_validation")) by done.
      rewrite !(bool_decide_eq_false_2 (_ ∧ _)) by by intros [? _].
      by rewrite !orb_false_r.
    + rewrite parseOption_cel_validation. unfold parseFlag.
      rewrite (bool_decide_eq_true_2 (value ∈ _)) by done.
      rewrite (bool_decide_eq_true_2 ("cel_validation" = "cel_validation"))
        by done.
      rewrite (bool_decide_eq_false_2 ("cel_validation" = "json_types")) by done.
      rewrite !(bool_decide_eq_false_2 (_ ∧ _)) by by intros [? _].
      by rewrite !orb_false_r.
    + rewrite parseOption_valid_types.
      rewrite valid_types_parts_accepted by done.
      cbn [jsonTypes validTypes celValidation legacyRequired
           protovalidateRequired].
      rewrite (bool_decide_eq_false_2 ("valid_types" = "json_types")) by done.
      rewrite (bool_decide_eq_false_2 ("valid_types" = "cel_validation")) by done.
      assert (∀ part,
                bool_decide ("valid_types" = "valid_types"
                             ∧ part ∈ Js.split "+" value)
                = bool_decide (part ∈ Js.split "+" value)) as Hsame
        by (intros part; apply bool_decide_ext; tauto).
      by rewrite !Hsame.
Qed.

(** X19. [parseOptions] throws at the first option it does not accept,
    whatever follows: the text asking for true or false when the key is
    [json_types] or [cel_validation], a plain error for a bad part of
    [valid_types] and for an unknown key. *)
Theorem X19_first_rejected_option_throws
    (accepted rest : list (string * string)) option :
  Forall acceptedOption accepted →
  ¬ acceptedOption option →
  parseOptions (accepted ++ option :: rest)
  = Threw (if bool_decide (option.1 = "json_types" ∨ option.1 = "cel_validation")
           then ThrownText "please provide true or false"
           else ThrownError).
Proof.
  intros Haccepted Hrejected.
  destruct (parseOptions_accepted accepted Haccepted) as [state Hstate].
  unfold parseOptions in *. rewrite forEach_app, Hstate, forEach_cons.
  by rewrite parseOption_rejected.
Qed.

End OptionExtras.

(** * Facts about the modelled [snakeToCamel] *)

Section UtilFacts.

Lemma toUpperCase_underscore c :
  Util.toUpperCase c = "_"%char → c = "_"%char.
Proof. destruct c as [[] [] [] [] [] [] [] []]; by vm_compute. Qed.

Lemma camelFrom_without_underscore s :
  (∀ c, c ∈ list_ascii_of_string s → c ≠ "_"%char) →
  Util.camelFrom false s = s.
Proof.
  induction s as [|c s IH]; intros Hs; [done|]. cbn [Util.camelFrom].
  destruct (Ascii.eqb_spec c "_") as [->|_].
  - destruct (Hs "_"%char); [apply list_elem_of_here|done].
  - f_equal. apply IH. intros c' Hc'. apply Hs. by apply list_elem_of_further.
Qed.

Lemma camelFrom_has_no_underscore s :
  ∀ capNext c, c ∈ list_ascii_of_string (Util.camelFrom capNext s) →
               c ≠ "_"%char.
Proof.
  induction s as [|c0 s IH]; intros capNext c; cbn [Util.camelFrom].
  - by intros ?%not_elem_of_nil.
  - destruct (Ascii.eqb_spec c0 "_") as [->|Hc0]; [apply IH|].
    cbn [list_ascii_of_string]. intros [->|Hc]%elem_of_cons; [|by eapply IH].
    destruct capNext; [|done]. by intros ?%toUpperCase_underscore.
Qed.

(** The modelled [snakeToCamel] leaves its own values alone. *)
Lemma snakeToCamel_idempotent s :
  Util.snakeToCamel (Util.snakeToCamel s) = Util.snakeToCamel s.
Proof.
  unfold Util.snakeToCamel. apply camelFrom_without_underscore.
  apply camelFrom_has_no_underscore.
Qed.

End UtilFacts.

(** * Concrete runs of the further properties *)

Section FurtherRuns.

Import PluginExamples.

Local Abbreviation camel := Util.snakeToCamel.
Local Abbreviation wording := Examples.typeErrorMessage.

Lemma X1_visiting_is_merging_witness :
  visitExpr camel childTree
    (set_nestedConstraints {[ "p" := ["a"] ]} createEmptyResult)
  = Normal (set_nestedConstraints {[ "p" := ["a"; "c"] ]} createEmptyResult).
Proof.
  refine (eq_trans
            (proj1 (X1_visiting_is_merging camel childTree [] []
                      (set_nestedConstraints {[ "p" := ["a"] ]} createEmptyResult)
                      _)) _).
  - split; [reflexivity|repeat constructor].
  - by vm_compute.
Defined.

Lemma X5_every_branch_constrains_something_witness :
  branchNonEmpty groupB.
Proof.
  refine (proj2 (X5_every_branch_constrains_something camel parse wording
                   NoExprKind leakText groupB) _).
  vm_compute. apply list_elem_of_here.
Defined.

Lemma X6_returned_result_is_normalised_witness :
  deduplicateResult (parseCELExpression camel parse wording bothText)
  = parseCELExpression camel parse wording bothText.
Proof.
  refine (proj1 (proj2 (proj2 (proj2 (proj2
            (X6_returned_result_is_normalised camel parse wording
               createEmptyResult bothText))))) _).
  by vm_compute.
Defined.

Lemma X7_paths_not_rooted_at_this_are_ignored_witness :
  visitExpr camel (eqE (IdentExpr "field") (stringLit "")) createEmptyResult
  = Normal createEmptyResult.
Proof.
  refine (proj1 (X7_paths_not_rooted_at_this_are_ignored camel "field" []
                   (stringLit "") (LString "") createEmptyResult _ _)).
  - by left.
  - reflexivity.
Defined.

Lemma X8_negated_nested_path_records_child_witness :
  visitExpr camel (notE (hasMacro (thisField ["parent"; "child"])))
    createEmptyResult
  = Normal (set_nestedConstraints {[ "parent" := ["child"] ]} createEmptyResult)
  ∧ visitExpr camel (notE (hasMacro (thisField ["value_of"; "child"])))
      createEmptyResult
    = Abrupt createEmptyResult.
Proof.
  split.
  - refine (proj1 (X8_negated_nested_path_records_child camel "parent" "child" []
                     createEmptyResult _ _ _) _).
    + discriminate.
    + reflexivity.
    + reflexivity.
    + left. compute_done.
  - refine (proj1 (proj2 (X8_negated_nested_path_records_child camel "value_of"
                            "child" [] createEmptyResult _ _ _)) _ _).
    + discriminate.
    + reflexivity.
    + reflexivity.
    + compute_done.
    + reflexivity.
Defined.

Lemma X9_conjoined_disjunctions_are_one_list_witness :
  visitExpr camel
    (andE [orE [omitTree]; orE [childTree; pinTree]]) createEmptyResult
  = visitExpr camel (orE [omitTree; childTree; pinTree]) createEmptyResult.
Proof.
  refine (proj2 (X9_conjoined_disjunctions_are_one_list camel [] []
                   [[omitTree]; [childTree; pinTree]] createEmptyResult _ _ _)).
  - split; [reflexivity|repeat constructor].
  - constructor.
  - repeat constructor.
Defined.

Lemma X11_read_only_fields_of_a_message_witness :
  getReadOnlyFields camel parse wording (messageWith [omitText; bothText])
  = ["a"].
Proof.
  refine (proj1 (X11_read_only_fields_of_a_message camel parse wording
                   (messageWith [omitText; bothText])
                   (mkRule <$> [omitText; bothText]) _ _)).
  - exact snakeToCamel_idempotent.
  - reflexivity.
Defined.

Lemma X12_nested_constraints_of_a_message_witness :
  getNestedReadOnlyFields camel parse wording
    (messageWith [childText; bothText]) !! "p"
  = Some ["c"].
Proof.
  refine (proj1 (X12_nested_constraints_of_a_message camel parse wording
                   (messageWith [childText; bothText])
                   (mkRule <$> [childText; bothText]) "p" _)).
  reflexivity.
Defined.

Lemma X13_union_groups_of_a_message_witness :
  getUnionGroups camel parse wording (messageWith [leakText]) = [groupB; groupC].
Proof.
  refine (proj1 (X13_union_groups_of_a_message camel parse wording
                   (messageWith [leakText]) (mkRule <$> [leakText]) _)).
  reflexivity.
Defined.

Lemma X14_rules_act_as_their_conjunction_witness :
  getReadOnlyFields camel parse wording (messageWith [omitText; childText])
  = getReadOnlyFields camel parse wording (messageWith [bothText])
  ∧ getNestedReadOnlyFields camel parse wording
      (messageWith [omitText; childText])
    = getNestedReadOnlyFields camel parse wording (messageWith [bothText]).
Proof.
  destruct (X14_rules_act_as_their_conjunction camel parse wording
              (messageWith [omitText; childText]) (messageWith [bothText])
              (mkRule <$> [omitText; childText]) [omitTree; childTree]
              (mkRule bothText)) as (Hro & _ & Hnested).
  - reflexivity.
  - reflexivity.
  - repeat constructor; by vm_compute.
  - by vm_compute.
  - reflexivity.
  - exact (conj Hro Hnested).
Defined.

Lemma X15_failing_rules_are_dropped_witness :
  generateMessageShape camel parse wording (messageWith [omitText; brokenText])
  = generateMessageShape camel parse wording (messageWith [omitText]).
Proof.
  refine (proj2 (proj2 (proj2
    (X15_failing_rules_are_dropped camel parse wording
       (messageWith [omitText; brokenText]) (messageWith [omitText])
       [mkRule omitText] [] (mkRule brokenText) _ _ _ _)))).
  - reflexivity.
  - reflexivity.
  - reflexivity.
  - right. right. by exists "syntax error".
Defined.

Lemma X17_group_children_leak_into_later_alternatives_witness :
  ∃ children,
    shapeConstraints
      (mkAlternative fields {[ "p" := ["a"; "b"; "c"] ]}) !! "p"
    = Some children
    ∧ "b" ∈ children.
Proof.
  refine (proj1 (X17_group_children_leak_into_later_alternatives
                   [] fields {[ "p" := ["a"] ]} [] [] [] groupB groupC
                   "p" "b" ["a"] ["b"]
                   (mkAlternative fields {[ "p" := ["a"; "b"; "c"] ]})
                   _ _ _) _).
  - by vm_compute.
  - reflexivity.
  - apply list_elem_of_here.
  - reflexivity.
Defined.

Lemma X18_accepted_options_are_returned_witness :
  parseOptions [("json_types", "true");
                ("valid_types", "legacy_required+protovalidate_required");
                ("json_types", "0")]
  = Returned (mkOptions false (mkValidTypes true true) false).
Proof.
  refine (X18_accepted_options_are_returned
            [("json_types", "true");
             ("valid_types", "legacy_required+protovalidate_required");
             ("json_types", "0")] _).
  repeat apply Forall_cons_2; [| | |apply Forall_nil_2].
  - left. split; [reflexivity|apply list_elem_of_here].
  - right. right. split; [reflexivity|]. cbn [snd].
    assert (Js.split "+" "legacy_required+protovalidate_required"
            = ["legacy_required"; "protovalidate_required"]) as ->
      by (vm_compute; reflexivity).
    apply Forall_cons_2; [by right|].
    apply Forall_cons_2; [by left|apply Forall_nil_2].
  - left. split; [reflexivity|]. do 3 apply list_elem_of_further.
    apply list_elem_of_here.
Defined.

Lemma X19_first_rejected_option_throws_witness :
  parseOptions [("json_types", "true"); ("valid_types", "");
                ("unknown", "x")]
  = Threw ThrownError.
Proof.
  refine (X19_first_rejected_option_throws
            [("json_types", "true")] [("unknown", "x")] ("valid_types", "")
            _ _).
  - apply Forall_cons_2; [|apply Forall_nil_2].
    left. split; [reflexivity|apply list_elem_of_here].
  - intros [[H _]|[[H _]|[_ H]]]; try discriminate H.
    apply Forall_cons in H as [[H|H] _]; discriminate H.
Defined.

Lemma X20_pinned_literals_do_not_reach_the_shape_witness :
  generateMessageShape camel parse wording (messageWith [omitText; pinText])
  = generateMessageShape camel parse wording (messageWith [omitText]).
Proof.
  refine (proj2 (proj2 (proj2
    (X20_pinned_literals_do_not_reach_the_shape camel parse wording
       (messageWith [omitText; pinText]) (messageWith [omitText])
       [mkRule omitText] [] (mkRule pinText) pinTree _ _ _ _ _ _)))).
  - reflexivity.
  - reflexivity.
  - reflexivity.
  - by vm_compute.
  - reflexivity.
  - reflexivity.
Defined.

Lemma X21_nested_equality_records_child_witness :
  visitExpr camel Examples.deepTree createEmptyResult
  = Normal (set_nestedConstraints {[ "parent" := ["child"] ]} createEmptyResult)
  ∧ visitExpr camel Examples.inheritedTree createEmptyResult
    = Abrupt createEmptyResult.
Proof.
  split.
  - refine (proj1 (X21_nested_equality_records_child camel "parent" "child"
                     ["grandchild"] (stringLit "") (LString "")
                     createEmptyResult _ _ _ _) _).
    + discriminate.
    + reflexivity.
    + reflexivity.
    + reflexivity.
    + left. compute_done.
  - refine (proj1 (proj2 (X21_nested_equality_records_child camel "constructor"
                            "child" [] (stringLit "") (LString "")
                            createEmptyResult _ _ _ _)) _ _).
    + discriminate.
    + reflexivity.
    + reflexivity.
    + reflexivity.
    + compute_done.
    + reflexivity.
Defined.

Lemma X22_negated_presence_forms_agree_witness :
  Examples.run Examples.presenceText = Examples.run Examples.bareText
  ∧ set_errors [] (Examples.run Examples.inheritedPresenceText)
    = set_errors [] (Examples.run Examples.inheritedBareText).
Proof.
  split.
  - refine (proj1 (proj2 (proj2 (proj2 (proj2
              (X22_negated_presence_forms_agree camel Examples.parse wording
                 (thisField ["field"]) "field" (stringLit "x") []
                 Examples.presenceText Examples.bareText createEmptyResult
                 _ _ _ _ _ _ _))))) _).
    + reflexivity.
    + by vm_compute.
    + by vm_compute.
    + reflexivity.
    + reflexivity.
    + discriminate.
    + reflexivity.
    + reflexivity.
  - refine (proj1 (proj2 (proj2 (proj2
              (X22_negated_presence_forms_agree camel Examples.parse wording
                 (thisField ["constructor"; "child"]) "constructor.child"
                 (stringLit "x") []
                 Examples.inheritedPresenceText Examples.inheritedBareText
                 createEmptyResult _ _ _ _ _ _ _))))).
    + reflexivity.
    + by vm_compute.
    + by vm_compute.
    + reflexivity.
    + reflexivity.
    + discriminate.
    + reflexivity.
Defined.

Lemma X24_visitor_throws_on_inherited_parents_witness :
  (∃ d, visitExpr camel Examples.partialTree createEmptyResult = Abrupt d)
  ↔ ∃ p, p ∈ assertedPaths Examples.partialTree
         ∧ inheritedParent camel p = true.
Proof.
  refine (X24_visitor_throws_on_inherited_parents camel Examples.partialTree
            createEmptyResult _).
  split; [reflexivity|repeat constructor].
Defined.

(** The shape of a message whose rule is
    [this.p.a == '' && (this.p.b == '' || this.p.c == '')]: the second
    alternative excludes [b] as well. *)
Example leak_run :
  generateMessageShape camel parse wording (messageWith [leakText])
  = [mkAlternative fields {[ "p" := ["a"; "b"] ]};
     mkAlternative fields {[ "p" := ["a"; "b"; "c"] ]}].
Proof. by vm_compute. Qed.

(** The shape of a message without union groups: the read-only field is
    left out, the oneof group stays. *)
Example omit_run :
  generateMessageShape camel parse wording (messageWith [bothText])
  = [mkAlternative [mkMember KindField "p"; mkMember KindOneof "kind"]
                   {[ "p" := ["c"] ]}].
Proof. by vm_compute. Qed.

(** Two rules, the first of which throws in the visitor: it counts for
    nothing, while the one rule with their conjunction loses the second
    conjunct as well. *)
Example split_rules_run :
  getReadOnlyFields camel Examples.parse wording
    (mkMessage (LookupRules [mkRule Examples.inheritedText;
                             mkRule Examples.bareText]) fields)
  = ["field"]
  ∧ visitExpr camel (andE [Examples.inheritedTree; Examples.bareTree])
      createEmptyResult
    = Abrupt createEmptyResult.
Proof. split; by vm_compute. Qed.

End FurtherRuns.
